(** * dsl2: the declarative workflow interpreter of [dsl2/workflow.go]

    A shallow embedding of the interpreter's evaluator ([evalValue],
    [isTruthy], [evalCond], [deepEqualNumberAware]) and of its executor
    ([Sequence], [Parallel], [Map], [If], [While], [ActivityInvocation]),
    followed by the properties of the merge protocol, of the [Map] window,
    of the loops and of number-aware equality. *)

From Stdlib Require Import ZArith Bool List Lia.
From Stdlib Require Import Floats.SpecFloat.
From stdpp Require Import gmap strings list fin_maps pretty.

Local Open Scope Z_scope.
Set Warnings "-register-all".

(* ===================================================================== *)
(** ** float64 *)
(* ===================================================================== *)

(** Go's [float64] is IEEE 754 binary64: 53 bits of precision, exponents
    below 1024.  [spec_float] is the Standard Library's specification of
    such numbers. *)
Abbreviation float64 := spec_float.

Definition prec64 : Z := 53.
Definition emax64 : Z := 1024.

(** [float64(x)] for an integer [x]: round to nearest, ties to even. *)
Definition float64_of_int (x : Z) : float64 :=
  binary_normalize prec64 emax64 x 0 false.

(** [math.IsNaN]. *)
Definition IsNaN (f : float64) : bool :=
  match f with S754_nan => true | _ => false end.

(** Go's [==] on [float64]: IEEE equality (a NaN differs from everything,
    the two zeros are equal). *)
Definition float64_eq (a b : float64) : bool := SFeqb a b.

(* ===================================================================== *)
(** ** Dynamically typed values: Go's [any] as the bindings hold it *)
(* ===================================================================== *)

(** The identity of a slice or of a map: the address of its storage.  Two
    Go values that are the same slice or the same map object carry the same
    address. *)
Abbreviation addr := positive.

(** What a binding holds: what the YAML and JSON decoders produce ([nil],
    [bool], [string], [int], [int64], [float64], [[]any],
    [map[string]any]).  A map value is written as the list of its entries
    in increasing key order, so that the entries of two maps with the same
    keys stand at the same positions. *)
Inductive any : Type :=
| VNil
| VBool (b : bool)
| VStr (s : string)
| VInt (n : Z)
| VInt64 (n : Z)
| VFloat (f : float64)
| VSlice (p : addr) (xs : list any)
| VMap (p : addr) (kvs : list (string * any)).

(** The bindings of a scope: Go's [map[string]any]. *)
Abbreviation Bindings := (gmap string any).

(** Induction over [any] that reaches inside slices and maps. *)
Section any_induction.
Variable P : any → Prop.
Hypothesis HNil : P VNil.
Hypothesis HBool : ∀ b, P (VBool b).
Hypothesis HStr : ∀ s, P (VStr s).
Hypothesis HInt : ∀ n, P (VInt n).
Hypothesis HInt64 : ∀ n, P (VInt64 n).
Hypothesis HFloat : ∀ f, P (VFloat f).
Hypothesis HSlice : ∀ p xs, Forall P xs → P (VSlice p xs).
Hypothesis HMap : ∀ p kvs, Forall (λ kv, P kv.2) kvs → P (VMap p kvs).

Fixpoint any_nested_ind (v : any) : P v :=
  match v with
  | VNil => HNil
  | VBool b => HBool b
  | VStr s => HStr s
  | VInt n => HInt n
  | VInt64 n => HInt64 n
  | VFloat f => HFloat f
  | VSlice p xs =>
      HSlice p xs
        ((fix go (l : list any) : Forall P l :=
            match l with
            | [] => Forall_nil_2 P
            | x :: l' => Forall_cons_2 P x l' (any_nested_ind x) (go l')
            end) xs)
  | VMap p kvs =>
      HMap p kvs
        ((fix go (l : list (string * any)) : Forall (λ kv, P kv.2) l :=
            match l with
            | [] => Forall_nil_2 _
            | kv :: l' =>
                Forall_cons_2 (λ kv, P kv.2) kv l'
                  (any_nested_ind kv.2) (go l')
            end) kvs)
  end.
End any_induction.

(** [forallb2 f l1 l2]: the two lists have the same length and [f] holds of
    the elements that stand at the same position. *)
Definition forallb2 {A B : Type} (f : A → B → bool)
    : list A → list B → bool :=
  fix go (l1 : list A) (l2 : list B) {struct l1} : bool :=
    match l1, l2 with
    | [], [] => true
    | a :: l1', b :: l2' => f a b && go l1' l2'
    | _, _ => false
    end.

(** [reflect.DeepEqual] on these values.  Values of different dynamic types
    are unequal; floats are compared with [==]; two slices (two maps) are
    deeply equal when they have the same length and either are the same
    object or have deeply equal corresponding elements. *)
Fixpoint reflect_DeepEqual (x y : any) {struct x} : bool :=
  match x, y with
  | VNil, VNil => true
  | VBool a, VBool b => Bool.eqb a b
  | VStr a, VStr b => String.eqb a b
  | VInt a, VInt b => Z.eqb a b
  | VInt64 a, VInt64 b => Z.eqb a b
  | VFloat a, VFloat b => float64_eq a b
  | VSlice p xs, VSlice q ys =>
      Nat.eqb (length xs) (length ys) &&
      (Pos.eqb p q || forallb2 reflect_DeepEqual xs ys)
  | VMap p xs, VMap q ys =>
      Nat.eqb (length xs) (length ys) &&
      (Pos.eqb p q ||
       forallb2 (λ kv1 kv2 : string * any,
                   String.eqb kv1.1 kv2.1 && reflect_DeepEqual kv1.2 kv2.2)
         xs ys)
  | _, _ => false
  end.

(** The slices and the maps that a value holds, the value included. *)
Fixpoint objects (v : any) : list any :=
  match v with
  | VSlice _ xs => v :: flat_map objects xs
  | VMap _ kvs => v :: flat_map (λ kv : string * any, objects kv.2) kvs
  | _ => []
  end.

(** Two values that are the same slice or the same map: they have the same
    address and the same length. *)
Definition sameObject (x y : any) : Prop :=
  match x, y with
  | VSlice p xs, VSlice q ys => p = q ∧ length xs = length ys
  | VMap p xs, VMap q ys => p = q ∧ length xs = length ys
  | _, _ => False
  end.

(** Two values of one heap: an object that both hold has the same elements
    in both. *)
Definition coherent (a b : any) : Prop :=
  ∀ x y, x ∈ objects a → y ∈ objects b → sameObject x y → x = y.

(** [toFloat]: the numeric dynamic types, coerced to [float64]. *)
Definition toFloat (v : any) : float64 * bool :=
  match v with
  | VInt x => (float64_of_int x, true)
  | VInt64 x => (float64_of_int x, true)
  | VFloat x => (x, true)
  | _ => (S754_zero false, false)
  end.

Definition deepEqualNumberAware (a b : any) : bool :=
  let '(af, aIsNum) := toFloat a in
  let '(bf, bIsNum) := toFloat b in
  if aIsNum && bIsNum then (IsNaN af && IsNaN bf) || float64_eq af bf
  else reflect_DeepEqual a b.

Definition isTruthy (v : any) : bool :=
  match v with
  | VBool x => x
  | VStr x => negb (String.eqb x "")
  | VInt x => negb (x =? 0)
  | VInt64 x => negb (x =? 0)
  | VFloat x => negb (float64_eq x (S754_zero false)) && negb (IsNaN x)
  | VSlice _ x => (0 <? length x)%nat
  | VMap _ x => (0 <? length x)%nat
  | VNil => false
  end.

(* ===================================================================== *)
(** ** Errors *)
(* ===================================================================== *)

(** The errors the interpreter builds, by the message that builds them, and
    the errors the runtime hands to it. *)
Inductive error : Type :=
| ErrRefNotFound (ref : string)
| ErrEmptyValue
| ErrEmptyCondition
| ErrInvalidStatement
| ErrSequenceNilElement
| ErrActivityArg (name : string) (i : nat) (cause : error)
| ErrActivityFailed (name : string) (cause : error)
| ErrParallelWriteConflict (k : string)
| ErrMapItemsNotFound (itemsRef : string)
| ErrMapItemsNotSlice (itemsRef : string)
| ErrMapWriteConflict (k : string)
| ErrIfCond (cause : error)
| ErrWhileCond (cause : error)
| ErrWhileMaxIters (maxIters : Z)
| ErrCanceled
| ErrRuntime (msg : string).

(* ===================================================================== *)
(** ** The model: values and conditions of the DSL *)
(* ===================================================================== *)

Record Value : Type := mkValue {
  Value_Ref : string;
  Value_Str : option string;
  Value_Int : option Z;
  Value_Float : option float64;
  Value_Bool : option bool
}.

Record Compare : Type := mkCompare {
  Compare_Left : Value;
  Compare_Right : Value
}.

Inductive Cond : Type := mkCond {
  Cond_Truthy : option Value;
  Cond_Eq : option Compare;
  Cond_Ne : option Compare;
  Cond_Not : option Cond;
  Cond_Any : list Cond;
  Cond_All : list Cond
}.

(** The zero value of [Cond], and the six forms with one field set. *)
Definition emptyCond : Cond := mkCond None None None None [] [].
Definition CTruthy (v : Value) : Cond := mkCond (Some v) None None None [] [].
Definition CEq (l r : Value) : Cond :=
  mkCond None (Some (mkCompare l r)) None None [] [].
Definition CNe (l r : Value) : Cond :=
  mkCond None None (Some (mkCompare l r)) None [] [].
Definition CNot (c : Cond) : Cond := mkCond None None None (Some c) [] [].
Definition CAny (cs : list Cond) : Cond := mkCond None None None None cs [].
Definition CAll (cs : list Cond) : Cond := mkCond None None None None [] cs.

Definition emptyValue : Value := mkValue "" None None None None.
Definition VRef (k : string) : Value := mkValue k None None None None.
Definition VLitStr (s : string) : Value := mkValue "" (Some s) None None None.
Definition VLitInt (n : Z) : Value := mkValue "" None (Some n) None None.
Definition VLitFloat (f : float64) : Value := mkValue "" None None (Some f) None.
Definition VLitBool (b : bool) : Value := mkValue "" None None None (Some b).

(* ===================================================================== *)
(** ** The evaluator *)
(* ===================================================================== *)

(** A Go result pair is a pair [(x, err)]; [err = None] is the nil error,
    and [failed err] is the test [err != nil]. *)
Definition failed (err : option error) : bool :=
  match err with Some _ => true | None => false end.

Definition evalValue (v : Value) (bindings : Bindings) : any * option error :=
  if negb (String.eqb (Value_Ref v) "") then
    match bindings !! Value_Ref v with
    | None => (VNil, Some (ErrRefNotFound (Value_Ref v)))
    | Some val => (val, None)
    end
  else match Value_Str v with
  | Some s => (VStr s, None)
  | None =>
  match Value_Int v with
  | Some n => (VInt64 n, None)
  | None =>
  match Value_Float v with
  | Some f => (VFloat f, None)
  | None =>
  match Value_Bool v with
  | Some b => (VBool b, None)
  | None => (VNil, Some ErrEmptyValue)
  end end end end.

(** The atomic predicates of [evalCond], tried after the composite ones. *)
Definition evalAtom (truthy : option Value) (eq ne : option Compare)
    (bindings : Bindings) : bool * option error :=
  match truthy with
  | Some tv =>
      match evalValue tv bindings with
      | (_, Some err) => (false, Some err)
      | (v, None) => (isTruthy v, None)
      end
  | None =>
  match eq with
  | Some cmp =>
      match evalValue (Compare_Left cmp) bindings with
      | (_, Some err) => (false, Some err)
      | (l, None) =>
          match evalValue (Compare_Right cmp) bindings with
          | (_, Some err) => (false, Some err)
          | (r, None) => (deepEqualNumberAware l r, None)
          end
      end
  | None =>
  match ne with
  | Some cmp =>
      match evalValue (Compare_Left cmp) bindings with
      | (_, Some err) => (false, Some err)
      | (l, None) =>
          match evalValue (Compare_Right cmp) bindings with
          | (_, Some err) => (false, Some err)
          | (r, None) => (negb (deepEqualNumberAware l r), None)
          end
      end
  | None => (false, Some ErrEmptyCondition)
  end end end.

Fixpoint evalCond (c : Cond) (bindings : Bindings) {struct c}
    : bool * option error :=
  match c with
  | mkCond truthy eq ne not any all =>
      match not with
      | Some n =>
          let '(ok, err) := evalCond n bindings in (negb ok, err)
      | None =>
      match all with
      | _ :: _ =>
          (fix loop (subs : list Cond) : bool * option error :=
             match subs with
             | [] => (true, None)
             | sub :: rest =>
                 let '(ok, err) := evalCond sub bindings in
                 if failed err || negb ok then (ok, err)
                 else loop rest
             end) all
      | [] =>
      match any with
      | _ :: _ =>
          (fix loop (subs : list Cond) (anyMatch : bool)
               : bool * option error :=
             match subs with
             | [] => (anyMatch, None)
             | sub :: rest =>
                 let '(ok, err) := evalCond sub bindings in
                 match err with
                 | Some e => (false, Some e)
                 | None => loop rest (anyMatch || ok)
                 end
             end) any false
      | [] => evalAtom truthy eq ne bindings
      end end end
  end.

(* ===================================================================== *)
(** ** The model: statements *)
(* ===================================================================== *)

Record RetryPolicy : Type := mkRetryPolicy {
  RetryPolicy_MaxAttempts : Z;
  RetryPolicy_InitialIntervalSec : Z;
  RetryPolicy_MaxIntervalSec : Z;
  RetryPolicy_BackoffCoefficient : float64
}.

Record ActOpts : Type := mkActOpts {
  ActOpts_StartToCloseSeconds : Z;
  ActOpts_ScheduleToCloseSeconds : Z;
  ActOpts_HeartbeatSeconds : Z;
  ActOpts_Retry : option RetryPolicy
}.

Record ActivityInvocation : Type := mkActivityInvocation {
  Activity_Name : string;
  Activity_Args : list Value;
  Activity_Result : string;
  Activity_Opts : option ActOpts
}.

(** A [*Statement] that the code tests against nil before it follows it (an
    element of a [Sequence], the branches of an [If]) is an [option]; the
    branches of a [Parallel] and the bodies of [Map] and [While], which
    [validate] has checked and [execute] follows without a test, are
    statements. *)
Inductive Statement : Type := mkStatement {
  Statement_ID : string;
  Statement_Activity : option ActivityInvocation;
  Statement_Sequence : option Sequence;
  Statement_Parallel : option Parallel;
  Statement_Map : option Map;
  Statement_While : option While;
  Statement_If : option If
}
with Sequence : Type := mkSequence {
  Sequence_Elements : list (option Statement)
}
with Parallel : Type := mkParallel {
  Parallel_Branches : list Statement
}
with Map : Type := mkMap {
  Map_ItemsRef : string;
  Map_ItemVar : string;
  Map_Concurrency : Z;
  Map_Body : Statement;
  Map_CollectVar : string;
  Map_FailFast : bool
}
with While : Type := mkWhile {
  While_Cond : Cond;
  While_Body : Statement;
  While_MaxIters : Z;
  While_SleepSeconds : Z
}
with If : Type := mkIf {
  If_Cond : Cond;
  If_Then : option Statement;
  If_Else : option Statement
}.

Record Workflow : Type := mkWorkflow {
  Workflow_Version : string;
  Workflow_TaskQueue : string;
  Workflow_Variables : Bindings;
  Workflow_Root : option Statement;
  Workflow_Retry : option RetryPolicy;
  Workflow_TimeoutSec : Z;
  Workflow_Concurrency : Z
}.

(** The statements with one variant set. *)
Definition SActivity (a : ActivityInvocation) : Statement :=
  mkStatement "" (Some a) None None None None None.
Definition SSequence (els : list Statement) : Statement :=
  mkStatement "" None (Some (mkSequence (Some <$> els))) None None None None.
Definition SParallel (brs : list Statement) : Statement :=
  mkStatement "" None None (Some (mkParallel brs)) None None None.
Definition SMap (m : Map) : Statement :=
  mkStatement "" None None None (Some m) None None.
Definition SWhile (w : While) : Statement :=
  mkStatement "" None None None None (Some w) None.
Definition SIf (i : If) : Statement :=
  mkStatement "" None None None None None (Some i).

(* ===================================================================== *)
(** ** The runtime the interpreter runs on *)
(* ===================================================================== *)

(** What the interpreter asks of the workflow runtime and of the Go runtime.
    [W] is the state of the world outside the interpreter (the activities,
    the clock, the scheduler, the allocator); [Ctx] is [workflow.Context]. *)
Record Substrate (Ctx W : Type) : Type := mkSubstrate {
  (** [workflow.WithActivityOptions(ctx, mergeActOpts(ctx, o))] *)
  WithActivityOptions : Ctx → ActOpts → Ctx;
  (** the context of [workflow.WithCancel(ctx)] *)
  WithCancel : Ctx → Ctx;
  (** [workflow.ExecuteActivity(ctx, name, args...)] followed by [Get] *)
  ExecuteActivity : Ctx → string → list any → W → (any * option error) * W;
  (** [workflow.Sleep(ctx, seconds)] *)
  Sleep : Ctx → Z → W → option error * W;
  (** which of the futures registered on a selector and not yet fired
      (given by their task indices) [selector.Select] fires next: its
      position in that list, modulo its length *)
  SelectNext : list nat → W → nat * W;
  (** the address of a slice made by [make] *)
  NewSlice : W → addr * W;
  (** the order in which a [range] enumerates a map: the positions at which
      the entries are inserted one after the other, see [shuffle] *)
  RangeOrder : Bindings → list nat
}.

Arguments WithActivityOptions {Ctx W} _ _ _.
Arguments WithCancel {Ctx W} _ _.
Arguments ExecuteActivity {Ctx W} _ _ _ _ _.
Arguments Sleep {Ctx W} _ _ _ _.
Arguments SelectNext {Ctx W} _ _ _.
Arguments NewSlice {Ctx W} _ _.
Arguments RangeOrder {Ctx W} _ _.

(** [insertAt i x l] puts [x] before position [i] of [l] (at the end when
    [l] is shorter); [shuffle seed l] inserts the elements of [l] one by one
    at the positions [seed] gives.  Every enumeration order is a shuffle. *)
Fixpoint insertAt {A} (i : nat) (x : A) (l : list A) : list A :=
  match i, l with
  | O, _ => x :: l
  | S _, [] => [x]
  | S i', y :: l' => y :: insertAt i' x l'
  end.

Fixpoint shuffle {A} (seed : list nat) (l : list A) : list A :=
  match l with
  | [] => []
  | x :: l' => insertAt (hd O seed) x (shuffle (tl seed) l')
  end.

(** What [execute] does, seen from its caller: it returns [err] and leaves
    the bindings (a Go map, updated in place) as [b]; or it never returns,
    because a selector waits for a future that is not there ([Blocked]) or
    because the run is longer than the fuel given to it ([OutOfFuel]). *)
Inductive Outcome (W : Type) : Type :=
| Done (err : option error) (b : Bindings) (w : W)
| Blocked
| OutOfFuel.

Arguments Done {W} _ _ _.
Arguments Blocked {W}.
Arguments OutOfFuel {W}.

Definition cloneMap (m : Bindings) : Bindings := m.

(** [v == nil] for an interface value. *)
Definition isNil (v : any) : bool :=
  match v with VNil => true | _ => false end.

Definition toSlice (v : any) : list any * bool :=
  match v with
  | VSlice _ arr => (arr, true)
  | _ => ([], false)
  end.

(** [firstErr]: the first non-nil error of a list of results, in its order. *)
Definition firstError (errs : list (option error)) : option error :=
  fold_left (λ firstErr err,
    if failed err && negb (failed firstErr) then err else firstErr) errs None.

(** A task launched with [executeAsync] and registered on the selector:
    its index, and what its future yields when it fires: the clone it was
    given, as the task left it, and the task's error. *)
Record future : Type := mkFuture {
  fut_idx : nat;
  fut_local : Bindings;
  fut_err : option error
}.

(** The result of one [Parallel] branch and of one [Map] iteration, as the
    completion callbacks record them. *)
Record mergeResult : Type := mkMergeResult {
  mr_local : option Bindings;
  mr_err : option error
}.

Record branchRes : Type := mkBranchRes {
  br_local : Bindings;
  br_err : option error;
  br_idx : nat
}.

(* ===================================================================== *)
(** ** The executor *)
(* ===================================================================== *)

(** The tasks that [Parallel] and [Map] launch with [executeAsync] work on
    clones of the bindings that no other task holds, and meet the other
    tasks through the runtime only.  A task is run here when it is
    launched, the world being passed from one task to the next in the order
    of the launches; the order in which the futures of the tasks fire, which
    is what the operators observe of their interleaving, is the runtime's
    choice ([SelectNext]).  A task that does not end leaves its future
    unfired for ever. *)
Section Executor.
Context {Ctx W : Type} (sub : Substrate Ctx W).

(** [st.execute(ctx, wf, bindings)] for the children of the statement
    being executed. *)
Variable exec : Statement → Ctx → Workflow → Bindings → W → Outcome W.

(** [for k, v := range m]. *)
Definition rangeMap (m : Bindings) : list (string * any) :=
  shuffle (RangeOrder sub m) (map_to_list m).

(** [selector.Select]: fire one of the futures registered and not yet
    fired, chosen by the runtime; with none registered it waits for
    ever. *)
Definition selectOne (pending : list future) (w : W)
    : option (future * list future * W) :=
  match pending with
  | [] => None
  | _ :: _ =>
      let '(n, w') := SelectNext sub (fut_idx <$> pending) w in
      let i := (n mod length pending)%nat in
      match pending !! i with
      | Some f => Some (f, delete i pending, w')
      | None => None
      end
  end.

(** *** Activity *)

Fixpoint evalArgs (name : string) (args : list Value) (i : nat)
    (bindings : Bindings) (acc : list any) : list any * option error :=
  match args with
  | [] => (acc, None)
  | a :: rest =>
      match evalValue a bindings with
      | (_, Some err) => (acc, Some (ErrActivityArg name i err))
      | (v, None) => evalArgs name rest (S i) bindings (acc ++ [v])
      end
  end.

Definition Activity_execute (a : ActivityInvocation) (ctx : Ctx)
    (wf : Workflow) (bindings : Bindings) (w : W) : Outcome W :=
  let ctx :=
    match Activity_Opts a with
    | Some o => WithActivityOptions sub ctx o
    | None => ctx
    end in
  match evalArgs (Activity_Name a) (Activity_Args a) O bindings [] with
  | (_, Some err) => Done (Some err) bindings w
  | (args, None) =>
      let '((result, err), w') :=
        ExecuteActivity sub ctx (Activity_Name a) args w in
      match err with
      | Some e => Done (Some (ErrActivityFailed (Activity_Name a) e)) bindings w'
      | None =>
          if negb (String.eqb (Activity_Result a) "")
          then Done None (<[Activity_Result a := result]> bindings) w'
          else Done None bindings w'
      end
  end.

(** *** Sequence *)

Fixpoint Sequence_loop (els : list (option Statement)) (ctx : Ctx)
    (wf : Workflow) (bindings : Bindings) (w : W) : Outcome W :=
  match els with
  | [] => Done None bindings w
  | None :: _ => Done (Some ErrSequenceNilElement) bindings w
  | Some st :: rest =>
      match exec st ctx wf bindings w with
      | Done (Some err) b' w' => Done (Some err) b' w'
      | Done None b' w' => Sequence_loop rest ctx wf b' w'
      | Blocked => Blocked
      | OutOfFuel => OutOfFuel
      end
  end.

Definition Sequence_execute (s : Sequence) :=
  Sequence_loop (Sequence_Elements s).

(** *** If *)

Definition If_execute (i : If) (ctx : Ctx) (wf : Workflow)
    (bindings : Bindings) (w : W) : Outcome W :=
  match evalCond (If_Cond i) bindings with
  | (_, Some err) => Done (Some (ErrIfCond err)) bindings w
  | (true, None) =>
      match If_Then i with
      | Some st => exec st ctx wf bindings w
      | None => Done None bindings w
      end
  | (false, None) =>
      match If_Else i with
      | Some st => exec st ctx wf bindings w
      | None => Done None bindings w
      end
  end.

(** *** While *)

(** [if w.SleepSeconds > 0 { _ = workflow.Sleep(ctx, ...) }]: the error of
    [Sleep] is assigned to the blank identifier. *)
Definition While_sleep (wh : While) (ctx : Ctx) (w : W) : W :=
  if While_SleepSeconds wh >? 0
  then snd (Sleep sub ctx (While_SleepSeconds wh) w)
  else w.

(** The [for] loop of [While.execute], from its head, with the counter at
    [iter].  The counter is a Go [int]: when [MaxIters > 0] the bound
    stops the loop before the counter can wrap around, and otherwise the
    loop never reads it, so it is an integer here. *)
Fixpoint While_loop (fuel : nat) (wh : While) (ctx : Ctx) (wf : Workflow)
    (iter : Z) (bindings : Bindings) (w : W) : Outcome W :=
  match fuel with
  | O => OutOfFuel
  | S fuel' =>
      match evalCond (While_Cond wh) bindings with
      | (_, Some err) => Done (Some (ErrWhileCond err)) bindings w
      | (false, None) => Done None bindings w
      | (true, None) =>
          if (While_MaxIters wh >? 0) && (iter >=? While_MaxIters wh)
          then Done (Some (ErrWhileMaxIters (While_MaxIters wh))) bindings w
          else
            match exec (While_Body wh) ctx wf bindings w with
            | Done (Some err) b' w' => Done (Some err) b' w'
            | Done None b' w' =>
                While_loop fuel' wh ctx wf (iter + 1) b'
                  (While_sleep wh ctx w')
            | Blocked => Blocked
            | OutOfFuel => OutOfFuel
            end
      end
  end.

Definition While_execute (fuel : nat) (wh : While) (ctx : Ctx)
    (wf : Workflow) (bindings : Bindings) (w : W) : Outcome W :=
  While_loop fuel wh ctx wf 0 bindings w.

(** *** Merging a clone into the parent bindings *)

(** The body of the two merge loops, [for k, v := range r.local], over the
    entries of a clone in the order the [range] gives them: an entry
    whose key [skip] holds of is passed over; an entry whose key is bound
    to a value that [reflect.DeepEqual] tells from the entry's stops the
    merge with [conflict k]; any other entry is written. *)
Fixpoint mergeEntries (conflict : string → error) (skip : string → bool)
    (entries : list (string * any)) (bindings : Bindings)
    : option error * Bindings :=
  match entries with
  | [] => (None, bindings)
  | (k, v) :: rest =>
      if skip k then mergeEntries conflict skip rest bindings
      else
        match bindings !! k with
        | Some old =>
            if negb (reflect_DeepEqual old v)
            then (Some (conflict k), bindings)
            else mergeEntries conflict skip rest (<[k := v]> bindings)
        | None => mergeEntries conflict skip rest (<[k := v]> bindings)
        end
  end.

(** *** Parallel *)

(** [for i, st := range p.Branches]: clone, launch, register.  A branch
    that never ends leaves the selector waiting for ever, whatever the
    other branches do: the operator does not return either. *)
Fixpoint Parallel_launch (branches : list Statement) (i : nat) (ctx : Ctx)
    (wf : Workflow) (bindings : Bindings) (pending : list future) (w : W)
    : Outcome W + (list future * W) :=
  match branches with
  | [] => inr (pending, w)
  | st :: rest =>
      let localBindings := cloneMap bindings in
      match exec st ctx wf localBindings w with
      | Done err local' w' =>
          Parallel_launch rest (S i) ctx wf bindings
            (pending ++ [mkFuture i local' err]) w'
      | Blocked => inl Blocked
      | OutOfFuel => inl OutOfFuel
      end
  end.

(** The completion callback of a branch. *)
Definition Parallel_callback (f : future) (results : list mergeResult)
    : list mergeResult :=
  match fut_err f with
  | Some err => results ++ [mkMergeResult None (Some err)]
  | None => results ++ [mkMergeResult (Some (fut_local f)) None]
  end.

(** [for completed < len(p.Branches) { selector.Select(ctx) }]. *)
Fixpoint Parallel_wait (gas : nat) (n : nat) (completed : nat)
    (pending : list future) (results : list mergeResult) (w : W)
    : option (list mergeResult * W) :=
  if (completed <? n)%nat then
    match gas with
    | O => None
    | S gas' =>
        match selectOne pending w with
        | None => None
        | Some (f, pending', w') =>
            Parallel_wait gas' n (S completed) pending'
              (Parallel_callback f results) w'
        end
    end
  else Some (results, w).

Fixpoint Parallel_merge (results : list mergeResult) (bindings : Bindings)
    : option error * Bindings :=
  match results with
  | [] => (None, bindings)
  | r :: rest =>
      match mr_local r with
      | None => Parallel_merge rest bindings
      | Some local =>
          match mergeEntries ErrParallelWriteConflict (λ _, false)
                  (rangeMap local) bindings with
          | (Some err, b') => (Some err, b')
          | (None, b') => Parallel_merge rest b'
          end
      end
  end.

(** What [Parallel.execute] does once every branch has completed. *)
Definition Parallel_finish (results : list mergeResult)
    (bindings : Bindings) (w : W) : Outcome W :=
  match firstError (mr_err <$> results) with
  | Some firstErr => Done (Some firstErr) bindings w
  | None =>
      let '(err, b') := Parallel_merge results bindings in Done err b' w
  end.

Definition Parallel_execute (p : Parallel) (ctx : Ctx) (wf : Workflow)
    (bindings : Bindings) (w : W) : Outcome W :=
  match Parallel_Branches p with
  | [] => Done None bindings w
  | _ :: _ =>
      match Parallel_launch (Parallel_Branches p) O ctx wf bindings [] w with
      | inl never => never
      | inr (pending, w1) =>
          let n := length (Parallel_Branches p) in
          match Parallel_wait n n O pending [] w1 with
          | None => Blocked
          | Some (results, w2) => Parallel_finish results bindings w2
          end
      end
  end.

(** *** Map *)

(** The variables of [Map.execute] that its closures and loops share, with
    the futures registered on its selector and not yet fired, and whether
    [cancel], the cancel function of [childCtx], has been called. *)
Record MapState : Type := mkMapState {
  st_inflight : Z;
  st_next : nat;
  st_allResults : list branchRes;
  st_completed : nat;
  st_pending : list future;
  st_canceled : bool;
  st_world : W
}.

(** How the dispatch of [Map.execute] ends: its loop exits ([Dispatched]);
    it returns from inside the loop after calling [cancel] ([FailedFast]);
    [selector.Select] waits for ever ([Stuck]); or an iteration that was
    launched never ends ([Never]). *)
Inductive Dispatch : Type :=
| Dispatched (st : MapState)
| FailedFast (err : option error) (st : MapState)
| Stuck (st : MapState)
| Never (o : Outcome W).

Section Map.
Variables (m : Map) (ctx : Ctx) (wf : Workflow) (bindings : Bindings).
Variable items : list any.

Definition Map_itemVar : string :=
  if String.eqb (Map_ItemVar m) "" then "_item" else Map_ItemVar m.

Definition Map_window : Z :=
  if Map_Concurrency m <=? 0 then
    if Workflow_Concurrency wf >? 0 then Workflow_Concurrency wf else 1
  else Map_Concurrency m.

Definition childCtx : Ctx := WithCancel sub ctx.

(** The closure [emit]: clone, bind the item, launch, count, register.
    An iteration that never ends keeps the operator from returning. *)
Definition emit (idx : nat) (it : any) (st : MapState)
    : Outcome W + MapState :=
  let localBindings := <[Map_itemVar := it]> (cloneMap bindings) in
  match exec (Map_Body m) childCtx wf localBindings (st_world st) with
  | Done err local' w' =>
      inr (mkMapState (st_inflight st + 1) (st_next st)
             (st_allResults st) (st_completed st)
             (st_pending st ++ [mkFuture idx local' err])
             (st_canceled st) w')
  | Blocked => inl Blocked
  | OutOfFuel => inl OutOfFuel
  end.

(** [emit(next, items[next]); next++], which the code does under the test
    [next < len(items)] only. *)
Definition emitNext (st : MapState) : Outcome W + MapState :=
  match items !! st_next st with
  | None => inr st
  | Some it =>
      match emit (st_next st) it st with
      | inl never => inl never
      | inr st' =>
          inr (mkMapState (st_inflight st') (S (st_next st'))
                 (st_allResults st') (st_completed st') (st_pending st')
                 (st_canceled st') (st_world st'))
      end
  end.

(** [for next < len(items) && inflight < window { emit; next++ }]. *)
Fixpoint Map_prime (gas : nat) (st : MapState) : Outcome W + MapState :=
  if (st_next st <? length items)%nat && (st_inflight st <? Map_window)
  then
    match gas with
    | O => inl OutOfFuel
    | S gas' =>
        match emitNext st with
        | inl never => inl never
        | inr st' => Map_prime gas' st'
        end
    end
  else inr st.

(** The completion callback of an iteration. *)
Definition Map_callback (f : future) (pending' : list future) (w' : W)
    (st : MapState) : MapState :=
  mkMapState (st_inflight st) (st_next st)
    (st_allResults st ++ [mkBranchRes (fut_local f) (fut_err f) (fut_idx f)])
    (S (st_completed st)) pending' (st_canceled st) w'.

(** The dispatch loop, [for completed < totalExpected].  Under the test
    [completed < len(allResults)] the list [allResults] has a last
    element, [lastResult]. *)
Fixpoint Map_dispatch (gas : nat) (st : MapState) : Dispatch :=
  if (st_completed st <? length items)%nat then
    match gas with
    | O => Never OutOfFuel
    | S gas' =>
        match selectOne (st_pending st) (st_world st) with
        | None => Stuck st
        | Some (f, pending', w') =>
            let st := Map_callback f pending' w' st in
            if (st_completed st <? length (st_allResults st))%nat then
              match last (st_allResults st) with
              | None => Dispatched st
              | Some lastResult =>
                  let st :=
                    mkMapState (st_inflight st - 1) (st_next st)
                      (st_allResults st) (st_completed st)
                      (st_pending st) (st_canceled st) (st_world st) in
                  if failed (br_err lastResult) && Map_FailFast m then
                    FailedFast (br_err lastResult)
                      (mkMapState (st_inflight st) (st_next st)
                         (st_allResults st) (st_completed st)
                         (st_pending st) true (st_world st))
                  else if (st_next st <? length items)%nat
                          && (st_inflight st <? Map_window) then
                    match emitNext st with
                    | inl never => Never never
                    | inr st' => Map_dispatch gas' st'
                    end
                  else Map_dispatch gas' st
              end
            else Map_dispatch gas' st
        end
    end
  else Dispatched st.

(** The key [CollectVar_<idx>]. *)
Definition collectKey (idx : nat) : string :=
  Map_CollectVar m +:+ "_" +:+ pretty idx.

(** The value collected for a successful iteration, with the key it was
    found under: [CollectVar], else [CollectVar_<idx>], else the first
    key the [range] meets that the body introduced. *)
Definition pickCollected (r : branchRes) : option (string * any) :=
  match br_local r !! Map_CollectVar m with
  | Some v => Some (Map_CollectVar m, v)
  | None =>
      match br_local r !! collectKey (br_idx r) with
      | Some v => Some (collectKey (br_idx r), v)
      | None =>
          find (λ kv : string * any,
                  negb (String.eqb kv.1 Map_itemVar)
                  && negb (String.eqb kv.1 (Map_CollectVar m))
                  && negb (String.prefix (Map_CollectVar m +:+ "_") kv.1)
                  && negb (bool_decide (is_Some (bindings !! kv.1))))
               (rangeMap (br_local r))
      end
  end.

(** The variables of the loop that sorts the results. *)
Record Sorted : Type := mkSorted {
  so_successResults : list branchRes;
  so_collected : list any;
  so_firstErr : option error;
  so_collectVars : gset string
}.

(** The body of [for _, r := range allResults]. *)
Definition Map_sortStep (so : Sorted) (r : branchRes) : Sorted :=
  match br_err r with
  | Some err =>
      mkSorted (so_successResults so) (so_collected so)
        (if negb (failed (so_firstErr so)) then Some err
         else so_firstErr so)
        (so_collectVars so)
  | None =>
      let success := so_successResults so ++ [r] in
      if negb (String.eqb (Map_CollectVar m) "") then
        match pickCollected r with
        | Some (k, collectedValue) =>
            mkSorted success
              (if (br_idx r <? length (so_collected so))%nat
               then <[br_idx r := collectedValue]> (so_collected so)
               else so_collected so)
              (so_firstErr so) ({[k]} ∪ so_collectVars so)
        | None =>
            mkSorted success (so_collected so) (so_firstErr so)
              (so_collectVars so)
        end
      else
        mkSorted success (so_collected so) (so_firstErr so)
          (so_collectVars so)
  end.

Definition Map_sort (allResults : list branchRes) : Sorted :=
  fold_left Map_sortStep allResults
    (mkSorted [] (replicate (length items) VNil) None ∅).

(** The test of the merge loop that passes a key over. *)
Definition Map_skip (collectVars : gset string) (k : string) : bool :=
  String.eqb k Map_itemVar
  || (negb (String.eqb (Map_CollectVar m) "")
      && (String.eqb k (Map_CollectVar m)
          || String.prefix (Map_CollectVar m +:+ "_") k))
  || bool_decide (k ∈ collectVars).

Fixpoint Map_merge (collectVars : gset string)
    (successResults : list branchRes) (b : Bindings)
    : option error * Bindings :=
  match successResults with
  | [] => (None, b)
  | r :: rest =>
      match mergeEntries ErrMapWriteConflict (Map_skip collectVars)
              (rangeMap (br_local r)) b with
      | (Some err, b') => (Some err, b')
      | (None, b') => Map_merge collectVars rest b'
      end
  end.

(** [finalCollected]: the slots that are not nil, in the order of the
    slots. *)
Definition finalCollected (collected : list any) : list any :=
  List.filter (λ v, negb (isNil v)) collected.

(** What [Map.execute] does once its dispatch loop has exited. *)
Definition Map_finish (allResults : list branchRes) (w : W) : Outcome W :=
  let so := Map_sort allResults in
  if failed (so_firstErr so) && Map_FailFast m
  then Done (so_firstErr so) bindings w
  else
    match Map_merge (so_collectVars so) (so_successResults so) bindings with
    | (Some err, b') => Done (Some err) b' w
    | (None, b') =>
        if negb (String.eqb (Map_CollectVar m) "") then
          let '(p, w') := NewSlice sub w in
          Done (so_firstErr so)
            (<[Map_CollectVar m := VSlice p (finalCollected (so_collected so))]> b')
            w'
        else Done (so_firstErr so) b' w
    end.

Definition Map_initial (w : W) : MapState :=
  mkMapState 0 O [] O [] false w.

(** [Map.execute], from the point where [items] is known. *)
Definition Map_run (w : W) : Outcome W :=
  match Map_prime (length items) (Map_initial w) with
  | inl never => never
  | inr st =>
      match Map_dispatch (length items) st with
      | Dispatched st' => Map_finish (st_allResults st') (st_world st')
      | FailedFast err st' => Done err bindings (st_world st')
      | Stuck _ => Blocked
      | Never o => o
      end
  end.
End Map.

Definition Map_execute (m : Map) (ctx : Ctx) (wf : Workflow)
    (bindings : Bindings) (w : W) : Outcome W :=
  match bindings !! Map_ItemsRef m with
  | None => Done (Some (ErrMapItemsNotFound (Map_ItemsRef m))) bindings w
  | Some itemsAny =>
      match toSlice itemsAny with
      | (_, false) =>
          Done (Some (ErrMapItemsNotSlice (Map_ItemsRef m))) bindings w
      | (items, true) => Map_run m ctx wf bindings items w
      end
  end.

(** *** Statement *)

Definition Statement_dispatch (fuel : nat) (s : Statement) (ctx : Ctx)
    (wf : Workflow) (bindings : Bindings) (w : W) : Outcome W :=
  match Statement_Activity s with
  | Some a => Activity_execute a ctx wf bindings w
  | None =>
  match Statement_Sequence s with
  | Some sq => Sequence_execute sq ctx wf bindings w
  | None =>
  match Statement_Parallel s with
  | Some p => Parallel_execute p ctx wf bindings w
  | None =>
  match Statement_Map s with
  | Some m => Map_execute m ctx wf bindings w
  | None =>
  match Statement_While s with
  | Some wh => While_execute fuel wh ctx wf bindings w
  | None =>
  match Statement_If s with
  | Some i => If_execute i ctx wf bindings w
  | None => Done (Some ErrInvalidStatement) bindings w
  end end end end end end.
End Executor.

(** [Statement.execute]: the executor closed on itself.  [fuel] bounds the
    depth of the statements and the number of rounds of every [While]. *)
Fixpoint Statement_execute {Ctx W : Type} (sub : Substrate Ctx W)
    (fuel : nat) (s : Statement) (ctx : Ctx) (wf : Workflow)
    (bindings : Bindings) (w : W) : Outcome W :=
  match fuel with
  | O => OutOfFuel
  | S fuel' =>
      Statement_dispatch sub (Statement_execute sub fuel') fuel' s ctx wf bindings w
  end.

(* ===================================================================== *)
(** ** Definitions the statements of the properties use *)
(* ===================================================================== *)

(** The loop of the [Any] form, as [evalCond] runs it. *)
Fixpoint anyLoop (subs : list Cond) (bindings : Bindings) (anyMatch : bool)
    : bool * option error :=
  match subs with
  | [] => (anyMatch, None)
  | sub :: rest =>
      match evalCond sub bindings with
      | (_, Some e) => (false, Some e)
      | (ok, None) => anyLoop rest bindings (anyMatch || ok)
      end
  end.


(** The floats [1.0] and NaN. *)
Definition float64_one : float64 := S754_finite false 4503599627370496 (-52).
Definition float64_nan : float64 := S754_nan.

(** A condition of the [Any] form whose first sub-condition is true and
    whose second one refers to a variable that is not bound. *)
Definition anyTrueThenUnbound : Cond :=
  CAny [CTruthy (VLitBool true); CTruthy (VRef "y")].

(** The [While] of the specification, in its words: evaluate the condition;
    on false, exit; if [MaxIters > 0] and the iteration counter has reached
    it before executing the body, fail with the [MaxIters] error; execute
    the body (errors abort the loop and propagate); sleep when
    [SleepSeconds > 0]; increment the counter; repeat.
    [While_spec sub exec wh ctx wf iter b w n err b' w']: entered with the
    counter at [iter], the loop executes its body [n] times and returns
    [err], leaving the bindings as [b']. *)
Inductive While_spec {Ctx W : Type} (sub : Substrate Ctx W)
    (exec : Statement → Ctx → Workflow → Bindings → W → Outcome W)
    (wh : While) (ctx : Ctx) (wf : Workflow)
    : Z → Bindings → W → nat → option error → Bindings → W → Prop :=
| While_cond_error iter b w ok e :
    evalCond (While_Cond wh) b = (ok, Some e) →
    While_spec sub exec wh ctx wf iter b w O (Some (ErrWhileCond e)) b w
| While_exit iter b w :
    evalCond (While_Cond wh) b = (false, None) →
    While_spec sub exec wh ctx wf iter b w O None b w
| While_max_iters iter b w :
    evalCond (While_Cond wh) b = (true, None) →
    While_MaxIters wh > 0 → iter >= While_MaxIters wh →
    While_spec sub exec wh ctx wf iter b w O
      (Some (ErrWhileMaxIters (While_MaxIters wh))) b w
| While_body_error iter b w e b' w' :
    evalCond (While_Cond wh) b = (true, None) →
    ¬ (While_MaxIters wh > 0 ∧ iter >= While_MaxIters wh) →
    exec (While_Body wh) ctx wf b w = Done (Some e) b' w' →
    While_spec sub exec wh ctx wf iter b w 1 (Some e) b' w'
| While_iterate iter b w b1 w1 n err b' w' :
    evalCond (While_Cond wh) b = (true, None) →
    ¬ (While_MaxIters wh > 0 ∧ iter >= While_MaxIters wh) →
    exec (While_Body wh) ctx wf b w = Done None b1 w1 →
    While_spec sub exec wh ctx wf (iter + 1) b1 (While_sleep sub wh ctx w1)
      n err b' w' →
    While_spec sub exec wh ctx wf iter b w (S n) err b' w'.

(** A runtime that differs from [sub] by the error its [Sleep] returns. *)
Definition withSleepError {Ctx W : Type} (sub : Substrate Ctx W)
    (sleepErr : Ctx → Z → W → option error) : Substrate Ctx W :=
  mkSubstrate Ctx W (WithActivityOptions sub) (WithCancel sub)
    (ExecuteActivity sub)
    (λ ctx d w, (sleepErr ctx d w, snd (Sleep sub ctx d w)))
    (SelectNext sub) (NewSlice sub) (RangeOrder sub).

(* ===================================================================== *)
(** ** A runtime and workflows for the examples *)
(* ===================================================================== *)

(** The activities of [dsl2/activity.go], on the arguments the examples
    give them; any other call fails.  The world is the log of the calls
    made to the runtime. *)
Definition exampleActivity (name : string) (args : list any)
    : any * option error :=
  match args with
  | [] =>
      if String.eqb name "MockApprove" then (VBool true, None)
      else (VNil, Some (ErrRuntime name))
  | [VInt64 x] =>
      if String.eqb name "DoA" then (VStr ("A:" +:+ pretty x), None)
      else if String.eqb name "DoB" then (VStr ("B:" +:+ pretty x), None)
      else (VNil, Some (ErrRuntime name))
  | [VStr x] =>
      if String.eqb name "Fetch" then (VStr ("content-of-" +:+ x), None)
      else (VNil, Some (ErrRuntime name))
  | [VStr x; VStr y] =>
      if String.eqb name "DoC"
      then (VStr ("C(" +:+ x +:+ "+" +:+ y +:+ ")"), None)
      else (VNil, Some (ErrRuntime name))
  | _ => (VNil, Some (ErrRuntime name))
  end.

(** [pick] tells which registered future fires next; [sleepErr] is what
    every [Sleep] returns. *)
Definition exampleRuntime (pick : list nat → nat) (sleepErr : option error)
    : Substrate unit (list string) :=
  mkSubstrate unit (list string)
    (λ ctx _, ctx) (λ ctx, ctx)
    (λ _ name args w, (exampleActivity name args, w ++ [name]))
    (λ _ _ w, (sleepErr, w ++ ["Sleep"]))
    (λ pending w, (pick pending, w))
    (λ w, (Pos.of_succ_nat (length w), w ++ ["make"]))
    (λ _, []).

(** Futures fire in the order of their registration, or in the reverse
    order. *)
Definition firstRegistered (pending : list nat) : nat := O.
Definition lastRegistered (pending : list nat) : nat := pred (length pending).

Definition activity (name : string) (args : list Value) (result : string)
    : Statement :=
  SActivity (mkActivityInvocation name args result None).

Definition exampleWorkflow : Workflow := mkWorkflow "" "" ∅ None None 0 0.

(** Scenario 4: wait for an approval, at most three times. *)
Definition whileApproval (sleepSeconds : Z) : While :=
  mkWhile (CNot (CTruthy (VRef "approved")))
    (activity "MockApprove" [] "approved") 3 sleepSeconds.

(* ===================================================================== *)
(** ** Definitions the statements about the merges use *)
(* ===================================================================== *)

(** The bindings once [entries] have been written over [b] in order, the
    entries that [skip] passes over apart. *)
Definition writeEntries (skip : string → bool)
    (entries : list (string * any)) (b : Bindings) : Bindings :=
  fold_left (λ b kv, if skip kv.1 then b else <[kv.1 := kv.2]> b) entries b.

(** The entries that the merge of [Parallel.execute] goes through: those of
    the clones of the branches in the order of [results], each clone in the
    order of its [range]. *)
Definition Parallel_entries {Ctx W : Type} (sub : Substrate Ctx W)
    (results : list mergeResult) : list (string * any) :=
  flat_map (λ r, match mr_local r with
                 | Some local => rangeMap sub local
                 | None => []
                 end) results.

(** The entries that the merge of [Map.execute] goes through. *)
Definition Map_entries {Ctx W : Type} (sub : Substrate Ctx W)
    (successResults : list branchRes) : list (string * any) :=
  flat_map (λ r, rangeMap sub (br_local r)) successResults.

(** What the completion callback of a [Parallel] branch records. *)
Definition resultOf (f : future) : mergeResult :=
  match fut_err f with
  | Some err => mkMergeResult None (Some err)
  | None => mkMergeResult (Some (fut_local f)) None
  end.

(** The completion order: the futures of [pending] in the order in which
    [gas] calls of [selector.Select] fire them. *)
Fixpoint fireOrder {Ctx W : Type} (sub : Substrate Ctx W) (gas : nat)
    (pending : list future) (w : W) : list future * W :=
  match gas with
  | O => ([], w)
  | S gas' =>
      match selectOne sub pending w with
      | None => ([], w)
      | Some (f, pending', w') =>
          let '(fs, w'') := fireOrder sub gas' pending' w' in (f :: fs, w'')
      end
  end.

(** A parent scope that binds [x] to the float [1.0], and the clone of a
    branch that has written the integer [1] to [x]. *)
Definition parentFloatOne : Bindings := {["x" := VFloat float64_one]}.
Definition cloneIntOne : Bindings := {["x" := VInt64 1]}.

(** A [Map] over the one item of [items], with no [CollectVar]. *)
Definition mapOverItems : Map :=
  mkMap "items" "" 1 (activity "DoA" [VLitInt 1] "x") "" false.

(** A [Parallel] with a branch that succeeds and two branches that fail:
    no activity is called [Fail1] or [Fail2]. *)
Definition parallelWithFailures : Parallel :=
  mkParallel [activity "DoA" [VLitInt 1] "a";
              activity "Fail1" [] "z";
              activity "Fail2" [] "z"].

(** Scenario 5: two branches that both set [z], to different values; the
    first branch sets [a] before. *)
Definition parallelConflict : Parallel :=
  mkParallel [SSequence [activity "DoA" [VLitInt 1] "a";
                         activity "DoA" [VLitInt 1] "z"];
              activity "DoB" [VLitInt 2] "z"].

(** The clones of the two branches of [parallelConflict], run on the empty
    bindings. *)
Definition conflictClone1 : Bindings :=
  <["z" := VStr "A:1"]> (<["a" := VStr "A:1"]> ∅).
Definition conflictClone2 : Bindings := <["z" := VStr "B:2"]> ∅.

(* ===================================================================== *)
(** ** Definitions the statements about [Map] use *)
(* ===================================================================== *)

(** What the completion callback of a [Map] iteration records. *)
Definition brOf (f : future) : branchRes :=
  mkBranchRes (fut_local f) (fut_err f) (fut_idx f).

(** The value that the iteration of result [r] contributes to the
    collection, if any. *)
Definition collectedOf {Ctx W : Type} (sub : Substrate Ctx W) (m : Map)
    (bindings : Bindings) (r : branchRes) : option any :=
  match br_err r with
  | Some _ => None
  | None => snd <$> pickCollected sub m bindings r
  end.

(** The slot of iteration [i]: what the result of index [i] contributes,
    nil when it contributes nothing or when there is no such result. *)
Definition slotByIndex {Ctx W : Type} (sub : Substrate Ctx W) (m : Map)
    (bindings : Bindings) (allResults : list branchRes) (i : nat) : any :=
  match find (λ r, br_idx r =? i)%nat allResults with
  | Some r => default VNil (collectedOf sub m bindings r)
  | None => VNil
  end.

(** A future that holds the outcome of the body of the [Map], run for the
    item of its index on a clone of the bindings with the item bound. *)
Definition iterationOf {Ctx W : Type} (sub : Substrate Ctx W)
    (exec : Statement → Ctx → Workflow → Bindings → W → Outcome W)
    (m : Map) (ctx : Ctx) (wf : Workflow) (bindings : Bindings)
    (items : list any) (f : future) : Prop :=
  ∃ it w0 w0',
    items !! fut_idx f = Some it
    ∧ exec (Map_Body m) (childCtx sub ctx) wf
        (<[Map_itemVar m := it]> (cloneMap bindings)) w0
      = Done (fut_err f) (fut_local f) w0'.

(** Scenario 2: fetch the pages of [urls] and collect them in [pages]. *)
Definition mapFetch (concurrency : Z) : Map :=
  mkMap "urls" "url" concurrency (activity "Fetch" [VRef "url"] "page")
    "pages" false.

Definition threeUrls : Bindings :=
  {["urls" := VSlice 1 [VStr "u1"; VStr "u2"; VStr "u3"]]}.

(** A fail-fast [Map] whose body fails on the items that are not integers,
    and two items of which the first is not an integer. *)
Definition mapFailFast (concurrency : Z) : Map :=
  mkMap "items" "n" concurrency (activity "DoA" [VRef "n"] "out") "" true.

Definition badThenGood : list any := [VStr "bad"; VInt64 2].

Definition badThenGoodBindings : Bindings :=
  {["items" := VSlice 1 badThenGood]}.

(** The bindings of scenario 2 once the pages are collected. *)
Definition threeUrlsFetched : Bindings :=
  <["pages" := VSlice 4 [VStr "content-of-u1"; VStr "content-of-u2";
                         VStr "content-of-u3"]]> threeUrls.

(* ===================================================================== *)
(** ** Validation *)
(* ===================================================================== *)

(** The errors of [validate], by the message that builds them.  The
    messages "map body required" and "while body required", and "nil
    statement" for a branch of a [Parallel], are for pointers that are
    statements here. *)
Inductive invalid : Type :=
| InvalidRootNil
| InvalidNilStatement
| InvalidVariants (id : string)
| InvalidActivityName
| InvalidMapItemsRef
| InvalidIfThen.

(** [p != nil] for a pointer. *)
Definition isSet {A : Type} (p : option A) : bool :=
  match p with Some _ => true | None => false end.

(** [cnt]: the number of variants that are set. *)
Definition variantCount (s : Statement) : nat :=
  (if isSet (Statement_Activity s) then 1 else 0)
  + (if isSet (Statement_Sequence s) then 1 else 0)
  + (if isSet (Statement_Parallel s) then 1 else 0)
  + (if isSet (Statement_Map s) then 1 else 0)
  + (if isSet (Statement_While s) then 1 else 0)
  + (if isSet (Statement_If s) then 1 else 0).

(** [validate] of a [Statement] that is not nil. *)
Fixpoint Statement_validate (s : Statement) : option invalid :=
  match s with
  | mkStatement id activity sequence parallel map while if_ =>
      if negb (variantCount (mkStatement id activity sequence parallel map
                               while if_) =? 1)%nat
      then Some (InvalidVariants id)
      else
      match
        match activity with
        | Some a =>
            if String.eqb (Activity_Name a) "" then Some InvalidActivityName
            else None
        | None => None
        end
      with Some err => Some err | None =>
      match
        match sequence with
        | Some (mkSequence elements) =>
            (fix loop (els : list (option Statement)) : option invalid :=
               match els with
               | [] => None
               | None :: _ => Some InvalidNilStatement
               | Some e :: rest =>
                   match Statement_validate e with
                   | Some err => Some err
                   | None => loop rest
                   end
               end) elements
        | None => None
        end
      with Some err => Some err | None =>
      match
        match parallel with
        | Some (mkParallel branches) =>
            (fix loop (brs : list Statement) : option invalid :=
               match brs with
               | [] => None
               | b :: rest =>
                   match Statement_validate b with
                   | Some err => Some err
                   | None => loop rest
                   end
               end) branches
        | None => None
        end
      with Some err => Some err | None =>
      match
        match map with
        | Some (mkMap itemsRef _ _ body _ _) =>
            match Statement_validate body with
            | Some err => Some err
            | None =>
                if String.eqb itemsRef "" then Some InvalidMapItemsRef
                else None
            end
        | None => None
        end
      with Some err => Some err | None =>
      match
        match while with
        | Some (mkWhile _ body _ _) => Statement_validate body
        | None => None
        end
      with Some err => Some err | None =>
        match if_ with
        | Some (mkIf _ then_ else_) =>
            match then_ with
            | None => Some InvalidIfThen
            | Some t =>
                match Statement_validate t with
                | Some err => Some err
                | None =>
                    match else_ with
                    | Some e => Statement_validate e
                    | None => None
                    end
                end
            end
        | None => None
        end
      end end end end end
  end.

(** [Workflow.validate]. *)
Definition Workflow_validate (wf : Workflow) : option invalid :=
  match Workflow_Root wf with
  | None => Some InvalidRootNil
  | Some root => Statement_validate root
  end.

(* ===================================================================== *)
(** ** Activity options *)
(* ===================================================================== *)

(** Go's [int64] and [int32] results, as integers with the wrap-around. *)
Definition wrap64 (z : Z) : Z := (z + 2 ^ 63) mod 2 ^ 64 - 2 ^ 63.
Definition wrap32 (z : Z) : Z := (z + 2 ^ 31) mod 2 ^ 32 - 2 ^ 31.

(** [time.Second], in the nanoseconds of [time.Duration]. *)
Definition time_Second : Z := 1000000000.

(** [time.Duration(sec) * time.Second]. *)
Definition secondsDuration (sec : Z) : Z := wrap64 (sec * time_Second).

(** [temporal.RetryPolicy], but for the list of errors not to retry, which
    the interpreter leaves empty. *)
Record temporal_RetryPolicy : Type := mkTemporalRetryPolicy {
  InitialInterval : Z;
  BackoffCoefficient : float64;
  MaximumInterval : Z;
  MaximumAttempts : Z
}.

(** The fields of [workflow.ActivityOptions] that the interpreter sets. *)
Record ActivityOptions : Type := mkActivityOptions {
  StartToCloseTimeout : Z;
  ScheduleToCloseTimeout : Z;
  HeartbeatTimeout : Z;
  RetryPolicyOption : option temporal_RetryPolicy
}.

(** The float [2.0]. *)
Definition float64_two : float64 := S754_finite false 4503599627370496 (-51).

(** [x > 0] on [float64]. *)
Definition float64_pos (x : float64) : bool :=
  SFltb (S754_zero false) x.

Definition toRetryPolicy (r : option RetryPolicy)
    : option temporal_RetryPolicy :=
  match r with
  | None => None
  | Some r =>
      Some (mkTemporalRetryPolicy
              (if RetryPolicy_InitialIntervalSec r >? 0
               then secondsDuration (RetryPolicy_InitialIntervalSec r) else 0)
              (if float64_pos (RetryPolicy_BackoffCoefficient r)
               then RetryPolicy_BackoffCoefficient r else float64_two)
              (if RetryPolicy_MaxIntervalSec r >? 0
               then secondsDuration (RetryPolicy_MaxIntervalSec r) else 0)
              (if RetryPolicy_MaxAttempts r >? 0
               then wrap32 (RetryPolicy_MaxAttempts r) else 0))
  end.

Definition durationOrDefault (sec : Z) (d : Z) : Z :=
  if sec >? 0 then secondsDuration sec else d.

(** [mergeActOpts], on the options of the context. *)
Definition mergeActOpts (parent : ActivityOptions) (o : ActOpts)
    : ActivityOptions :=
  mkActivityOptions
    (if ActOpts_StartToCloseSeconds o >? 0
     then secondsDuration (ActOpts_StartToCloseSeconds o)
     else StartToCloseTimeout parent)
    (if ActOpts_ScheduleToCloseSeconds o >? 0
     then secondsDuration (ActOpts_ScheduleToCloseSeconds o)
     else ScheduleToCloseTimeout parent)
    (if ActOpts_HeartbeatSeconds o >? 0
     then secondsDuration (ActOpts_HeartbeatSeconds o)
     else HeartbeatTimeout parent)
    (match ActOpts_Retry o with
     | Some r => toRetryPolicy (Some r)
     | None => RetryPolicyOption parent
     end).

(* ===================================================================== *)
(** ** The workflow function *)
(* ===================================================================== *)

(** The error of a run: of the validation or of the execution. *)
Inductive runError : Type :=
| RunInvalid (err : invalid)
| RunFailed (err : error).

(** What [SimpleDSLWorkflow] does: it returns a map (nil when [None]) and
    an error, or it never returns. *)
Inductive Run (W : Type) : Type :=
| Returned (bindings : option Bindings) (err : option runError) (w : W)
| RunBlocked
| RunOutOfFuel.

Arguments Returned {W} _ _ _.
Arguments RunBlocked {W}.
Arguments RunOutOfFuel {W}.

(** The options that [SimpleDSLWorkflow] sets on its context. *)
Definition Workflow_options (wf : Workflow) : ActivityOptions :=
  mkActivityOptions
    (durationOrDefault (Workflow_TimeoutSec wf) (30 * time_Second)) 0 0
    (match Workflow_Retry wf with
     | Some r => toRetryPolicy (Some r)
     | None => None
     end).

(** [SimpleDSLWorkflow]; [withOptions] is [workflow.WithActivityOptions]. *)
Definition SimpleDSLWorkflow {Ctx W : Type} (sub : Substrate Ctx W)
    (withOptions : Ctx → ActivityOptions → Ctx) (fuel : nat) (ctx : Ctx)
    (wf : Workflow) (w : W) : Run W :=
  let bindings := Workflow_Variables wf in
  let ctx := withOptions ctx (Workflow_options wf) in
  match Workflow_validate wf with
  | Some err => Returned None (Some (RunInvalid err)) w
  | None =>
      match Workflow_Root wf with
      | None => Returned None (Some (RunInvalid InvalidRootNil)) w
      | Some root =>
          match Statement_execute sub fuel root ctx wf bindings w with
          | Done (Some err) _ w' => Returned None (Some (RunFailed err)) w'
          | Done None b' w' => Returned (Some b') None w'
          | Blocked => RunBlocked
          | OutOfFuel => RunOutOfFuel
          end
      end
  end.

(** The loop of the [All] form, as [evalCond] runs it. *)
Fixpoint allLoop (subs : list Cond) (bindings : Bindings)
    : bool * option error :=
  match subs with
  | [] => (true, None)
  | sub :: rest =>
      match evalCond sub bindings with
      | (ok, Some e) => (ok, Some e)
      | (false, None) => (false, None)
      | (true, None) => allLoop rest bindings
      end
  end.

(** The two errors that [execute] reports about the shape of the tree: a
    statement with no variant set, and a nil element of a [Sequence]. *)
Definition structural (e : error) : bool :=
  match e with
  | ErrInvalidStatement | ErrSequenceNilElement => true
  | _ => false
  end.

(** The output sequence of a [Map] in the words of the specification: the
    values [c_i] that the iterations collected, [i] going through the
    indices of the items in their order, without the iterations whose slot
    is unset or holds nil.  [iterations] are the iterations in the order of
    their indices. *)
Definition collectedInIndexOrder {Ctx W : Type} (sub : Substrate Ctx W)
    (m : Map) (bindings : Bindings) (iterations : list future) : list any :=
  omap (λ f, match collectedOf sub m bindings (brOf f) with
             | Some VNil | None => None
             | Some v => Some v
             end) iterations.

(** Scenario 2 with an url that is empty: the body fetches the page of an
    url that is not empty, and does nothing for the others. *)
Definition mapFetchNonEmpty (concurrency : Z) : Map :=
  mkMap "urls" "url" concurrency
    (SIf (mkIf (CTruthy (VRef "url"))
            (Some (activity "Fetch" [VRef "url"] "page")) None))
    "pages" false.

Definition urlsWithBlank : Bindings :=
  {["urls" := VSlice 1 [VStr "u1"; VStr ""; VStr "u3"]]}.

Definition urlsWithBlankFetched : Bindings :=
  <["pages" := VSlice 3 [VStr "content-of-u1"; VStr "content-of-u3"]]>
    urlsWithBlank.
(* ===================================================================== *)
(** ** Properties of the evaluator *)
(* ===================================================================== *)

(** *** [==] on float64 *)

Lemma float64_eq_refl (f : float64) : IsNaN f = false → float64_eq f f = true.
Proof.
  unfold float64_eq, SFeqb, SFcompare.
  destruct f as [s|s| |s m e]; simpl; try done.
  - destruct s; done.
  - intros _. rewrite Z.compare_refl.
    change (Pcompare m m Eq) with (Pos.compare_cont Eq m m).
    rewrite Pos.compare_cont_refl. destruct s; done.
Qed.

Lemma float64_eq_sym (a b : float64) : float64_eq a b = float64_eq b a.
Proof.
  unfold float64_eq, SFeqb, SFcompare.
  destruct a as [s1|s1| |s1 m1 e1], b as [s2|s2| |s2 m2 e2];
    simpl; try done; try (destruct s1, s2; done); try (destruct s1; done);
    try (destruct s2; done).
  change (Pcompare m1 m2 Eq) with (Pos.compare m1 m2).
  change (Pcompare m2 m1 Eq) with (Pos.compare m2 m1).
  rewrite (Z.compare_antisym e1 e2), (Pos.compare_antisym m1 m2).
  destruct s1, s2; try done;
    destruct (e1 ?= e2); simpl; try done; destruct (m1 ?= m2)%positive; done.
Qed.

(** *** [reflect.DeepEqual] *)

Lemma forallb2_Forall2 {A B : Type} (f : A → B → bool) (l1 : list A)
    (l2 : list B) :
  forallb2 f l1 l2 = true ↔ Forall2 (λ a b, f a b = true) l1 l2.
Proof.
  revert l2. induction l1 as [|a l1 IH]; intros [|b l2]; simpl.
  - split; [constructor | done].
  - split; [done | inversion 1].
  - split; [done | inversion 1].
  - rewrite andb_true_iff, IH. split.
    + intros [??]. by constructor.
    + by inversion 1.
Qed.

Lemma forallb2_sym {A : Type} (f : A → A → bool) (l1 l2 : list A) :
  Forall (λ a, ∀ b, f a b = f b a) l1 →
  forallb2 f l1 l2 = forallb2 f l2 l1.
Proof.
  intros Hall. revert l2.
  induction Hall as [|a l1 Ha _ IH]; intros [|b l2]; simpl; try done.
  by rewrite Ha, IH.
Qed.

Lemma reflect_DeepEqual_sym (x y : any) :
  reflect_DeepEqual x y = reflect_DeepEqual y x.
Proof.
  revert y. induction x as [| | | | | |p xs IH|p kvs IH] using any_nested_ind;
    intros [| | | | | |q ys|q ys]; simpl; try done.
  - by destruct b, b0.
  - apply String.eqb_sym.
  - apply Z.eqb_sym.
  - apply Z.eqb_sym.
  - apply float64_eq_sym.
  - rewrite (Nat.eqb_sym (length xs)), (Pos.eqb_sym p). do 2 f_equal.
    by apply forallb2_sym.
  - rewrite (Nat.eqb_sym (length kvs)), (Pos.eqb_sym p). do 2 f_equal.
    apply forallb2_sym. eapply Forall_impl; [exact IH|].
    intros [k1 a] Ha [k2 b]. simpl in *. by rewrite Ha, (String.eqb_sym k1).
Qed.

(** The same object is deeply equal to itself, whatever it holds. *)
Lemma reflect_DeepEqual_same_slice (p : addr) (xs : list any) :
  reflect_DeepEqual (VSlice p xs) (VSlice p xs) = true.
Proof. simpl. by rewrite Nat.eqb_refl, Pos.eqb_refl. Qed.

Lemma reflect_DeepEqual_same_map (p : addr) (kvs : list (string * any)) :
  reflect_DeepEqual (VMap p kvs) (VMap p kvs) = true.
Proof. simpl. by rewrite Nat.eqb_refl, Pos.eqb_refl. Qed.

(** A float that is a NaN is the one value that differs from itself. *)
Lemma reflect_DeepEqual_refl (x : any) :
  x ≠ VFloat S754_nan → reflect_DeepEqual x x = true.
Proof.
  destruct x as [|b|s|n|n|f|p xs|p kvs]; simpl; intros Hx.
  - done.
  - by destruct b.
  - apply String.eqb_refl.
  - apply Z.eqb_refl.
  - apply Z.eqb_refl.
  - apply float64_eq_refl. by destruct f.
  - by rewrite Nat.eqb_refl, Pos.eqb_refl.
  - by rewrite Nat.eqb_refl, Pos.eqb_refl.
Qed.

(** Two floats that [==] holds of are two zeros or the same float. *)
Lemma float64_eq_true (a b : float64) :
  float64_eq a b = true →
  (∃ s1 s2, a = S754_zero s1 ∧ b = S754_zero s2)
  ∨ (a = b ∧ IsNaN a = false).
Proof.
  unfold float64_eq, SFeqb, SFcompare.
  destruct a as [s1|s1| |s1 m1 e1], b as [s2|s2| |s2 m2 e2];
    simpl; try done; try (destruct s1; done); try (destruct s2; done).
  - intros _. left. by exists s1, s2.
  - destruct s1, s2; try done; intros _; by right.
  - change (Pcompare m1 m2 Eq) with (Pos.compare m1 m2).
    destruct s1, s2; try done;
      destruct (Z.compare_spec e1 e2) as [->| |]; try done;
      destruct (Pos.compare_spec m1 m2) as [->| |]; try done;
      intros _; by right.
Qed.

Lemma float64_eq_trans (a b c : float64) :
  float64_eq a b = true → float64_eq b c = true → float64_eq a c = true.
Proof.
  intros Hab Hbc.
  destruct (float64_eq_true _ _ Hab) as [(s1 & s2 & -> & ->)|[-> _]];
    [|done].
  destruct (float64_eq_true _ _ Hbc) as [(s3 & s4 & _ & ->)|[<- _]]; done.
Qed.

Lemma elem_of_objects_self_slice (p : addr) (xs : list any) :
  VSlice p xs ∈ objects (VSlice p xs).
Proof. simpl. apply list_elem_of_here. Qed.

Lemma elem_of_objects_self_map (p : addr) (kvs : list (string * any)) :
  VMap p kvs ∈ objects (VMap p kvs).
Proof. simpl. apply list_elem_of_here. Qed.

Lemma elem_of_objects_slice (p : addr) (xs : list any) (a x : any) :
  a ∈ xs → x ∈ objects a → x ∈ objects (VSlice p xs).
Proof.
  intros Ha Hx. simpl. apply list_elem_of_further, list_elem_of_In, in_flat_map.
  exists a. by rewrite <- !list_elem_of_In.
Qed.

Lemma elem_of_objects_map (p : addr) (kvs : list (string * any))
    (kv : string * any) (x : any) :
  kv ∈ kvs → x ∈ objects kv.2 → x ∈ objects (VMap p kvs).
Proof.
  intros Ha Hx. simpl. apply list_elem_of_further, list_elem_of_In, in_flat_map.
  exists kv. by rewrite <- !list_elem_of_In.
Qed.

Lemma coherent_slice_elem (p q : addr) (xs ys : list any) (a b : any) :
  coherent (VSlice p xs) (VSlice q ys) → a ∈ xs → b ∈ ys → coherent a b.
Proof.
  intros Hco Ha Hb x y Hx Hy. apply Hco; by eapply elem_of_objects_slice.
Qed.

Lemma coherent_map_elem (p q : addr) (xs ys : list (string * any))
    (a b : string * any) :
  coherent (VMap p xs) (VMap q ys) → a ∈ xs → b ∈ ys → coherent a.2 b.2.
Proof.
  intros Hco Ha Hb x y Hx Hy. apply Hco; by eapply elem_of_objects_map.
Qed.

Lemma Forall2_trans_in {A : Type} (R : A → A → Prop) (l1 l2 l3 : list A) :
  Forall (λ a, ∀ b c, b ∈ l2 → c ∈ l3 → R a b → R b c → R a c) l1 →
  Forall2 R l1 l2 → Forall2 R l2 l3 → Forall2 R l1 l3.
Proof.
  intros Hall H12. revert l3 Hall.
  induction H12 as [|a b l1 l2 Hab _ IH]; intros l3 Hall H23.
  - inversion H23. constructor.
  - inversion H23 as [|b' c l2' l3' Hbc H23']; subst.
    apply Forall_cons in Hall as [Ha Hall]. constructor.
    + eapply Ha; [apply list_elem_of_here | apply list_elem_of_here | done..].
    + apply IH; [|done]. eapply Forall_impl; [exact Hall|].
      intros x Hx y z Hy Hz. apply Hx; by apply list_elem_of_further.
Qed.

(** On values of one heap [reflect.DeepEqual] is transitive. *)
Lemma reflect_DeepEqual_trans (a b c : any) :
  coherent a b → coherent b c →
  reflect_DeepEqual a b = true → reflect_DeepEqual b c = true →
  reflect_DeepEqual a c = true.
Proof.
  revert b c.
  induction a as [|x|x|x|x|x|p xs IH|p xs IH] using any_nested_ind;
    intros [|y|y|y|y|y|q ys|q ys] [|z|z|z|z|z|r zs|r zs] Hab Hbc;
    simpl; try done.
  - destruct x, y, z; done.
  - rewrite !String.eqb_eq. congruence.
  - rewrite !Z.eqb_eq. congruence.
  - rewrite !Z.eqb_eq. congruence.
  - apply float64_eq_trans.
  - rewrite !andb_true_iff, !Nat.eqb_eq. intros [Hl1 H1] [Hl2 H2].
    split; [congruence|].
    destruct (Pos.eqb_spec p q) as [->|Hpq].
    { assert (Heq : VSlice q xs = VSlice q ys).
      { apply Hab; [apply elem_of_objects_self_slice..|done]. }
      injection Heq as ->. exact H2. }
    destruct (Pos.eqb_spec q r) as [->|Hqr].
    { assert (Heq : VSlice r ys = VSlice r zs).
      { apply Hbc; [apply elem_of_objects_self_slice..|done]. }
      injection Heq as <-. apply Pos.eqb_neq in Hpq. rewrite Hpq. exact H1. }
    simpl in H1, H2. apply orb_true_iff. right.
    apply forallb2_Forall2. apply forallb2_Forall2 in H1, H2.
    eapply Forall2_trans_in; [|exact H1|exact H2].
    apply Forall_forall. intros a Ha b c Hb Hc.
    rewrite Forall_forall in IH. apply IH; [done|..].
    + exact (coherent_slice_elem _ _ _ _ _ _ Hab Ha Hb).
    + exact (coherent_slice_elem _ _ _ _ _ _ Hbc Hb Hc).
  - rewrite !andb_true_iff, !Nat.eqb_eq. intros [Hl1 H1] [Hl2 H2].
    split; [congruence|].
    destruct (Pos.eqb_spec p q) as [->|Hpq].
    { assert (Heq : VMap q xs = VMap q ys).
      { apply Hab; [apply elem_of_objects_self_map..|done]. }
      injection Heq as ->. exact H2. }
    destruct (Pos.eqb_spec q r) as [->|Hqr].
    { assert (Heq : VMap r ys = VMap r zs).
      { apply Hbc; [apply elem_of_objects_self_map..|done]. }
      injection Heq as <-. apply Pos.eqb_neq in Hpq. rewrite Hpq. exact H1. }
    simpl in H1, H2. apply orb_true_iff. right.
    apply forallb2_Forall2. apply forallb2_Forall2 in H1, H2.
    eapply Forall2_trans_in; [|exact H1|exact H2].
    apply Forall_forall. intros a Ha b c Hb Hc.
    rewrite Forall_forall in IH. specialize (IH a Ha b.2 c.2).
    rewrite !andb_true_iff, !String.eqb_eq.
    intros [Hk1 Hv1] [Hk2 Hv2]. split; [congruence|].
    apply IH; [| |done..].
    + exact (coherent_map_elem _ _ _ _ _ _ Hab Ha Hb).
    + exact (coherent_map_elem _ _ _ _ _ _ Hbc Hb Hc).
Qed.

(** *** [deepEqualNumberAware] *)

Lemma toFloat_numeric (v : any) :
  (toFloat v).2 = true ↔
  (∃ x, v = VInt x) ∨ (∃ x, v = VInt64 x) ∨ (∃ x, v = VFloat x).
Proof.
  destruct v; simpl; naive_solver.
Qed.

Lemma deepEqualNumberAware_numeric (a b : any) (af bf : float64) :
  toFloat a = (af, true) → toFloat b = (bf, true) →
  deepEqualNumberAware a b = (IsNaN af && IsNaN bf) || float64_eq af bf.
Proof. intros Ha Hb. unfold deepEqualNumberAware. by rewrite Ha, Hb. Qed.

Lemma deepEqualNumberAware_refl (a : any) : deepEqualNumberAware a a = true.
Proof.
  unfold deepEqualNumberAware.
  destruct (toFloat a) as [af [|]] eqn:Ha; simpl.
  - destruct (IsNaN af) eqn:Hnan; simpl; [done | by apply float64_eq_refl].
  - apply reflect_DeepEqual_refl. intros ->. discriminate.
Qed.

Lemma deepEqualNumberAware_sym (a b : any) :
  deepEqualNumberAware a b = deepEqualNumberAware b a.
Proof.
  unfold deepEqualNumberAware.
  destruct (toFloat a) as [af aIsNum], (toFloat b) as [bf bIsNum].
  rewrite (andb_comm bIsNum), (andb_comm (IsNaN bf)), (float64_eq_sym bf).
  destruct (aIsNum && bIsNum); [done | apply reflect_DeepEqual_sym].
Qed.

(** *** [evalCond] on the atomic and on the [Any] form *)

Lemma evalCond_CEq (l r : Value) (bindings : Bindings) (lv rv : any) :
  evalValue l bindings = (lv, None) → evalValue r bindings = (rv, None) →
  evalCond (CEq l r) bindings = (deepEqualNumberAware lv rv, None).
Proof. intros Hl Hr. simpl. by rewrite Hl, Hr. Qed.

Lemma evalCond_CNe (l r : Value) (bindings : Bindings) (lv rv : any) :
  evalValue l bindings = (lv, None) → evalValue r bindings = (rv, None) →
  evalCond (CNe l r) bindings = (negb (deepEqualNumberAware lv rv), None).
Proof. intros Hl Hr. simpl. by rewrite Hl, Hr. Qed.

Lemma evalCond_any_form truthy eq ne (sub : Cond) (subs : list Cond)
    (bindings : Bindings) :
  evalCond (mkCond truthy eq ne None (sub :: subs) []) bindings
  = anyLoop (sub :: subs) bindings false.
Proof.
  simpl. destruct (evalCond sub bindings) as [ok [e|]]; [done|].
  generalize ok. induction subs as [|c cs IH]; intros acc; [done|].
  simpl. destruct (evalCond c bindings) as [ok' [e'|]]; [done | apply IH].
Qed.

Lemma anyLoop_error (pre : list Cond) (c : Cond) (post : list Cond)
    (bindings : Bindings) (acc : bool) (e : error) :
  Forall (λ p, (evalCond p bindings).2 = None) pre →
  (evalCond c bindings).2 = Some e →
  anyLoop (pre ++ c :: post) bindings acc = (false, Some e).
Proof.
  intros Hpre Hc. revert acc.
  induction Hpre as [|p pre Hp _ IH]; intros acc; simpl.
  - destruct (evalCond c bindings) as [ok err]. simpl in Hc. by subst.
  - destruct (evalCond p bindings) as [ok err]. simpl in Hp. subst. apply IH.
Qed.

Lemma anyLoop_no_error (subs : list Cond) (bindings : Bindings) (acc : bool) :
  Forall (λ c, (evalCond c bindings).2 = None) subs →
  anyLoop subs bindings acc
  = (acc || existsb (λ c, (evalCond c bindings).1) subs, None).
Proof.
  intros Hsubs. revert acc.
  induction Hsubs as [|c subs Hc _ IH]; intros acc; simpl.
  - by rewrite orb_false_r.
  - destruct (evalCond c bindings) as [ok err]. simpl in Hc. subst.
    rewrite IH. simpl. by rewrite orb_assoc.
Qed.

(** C8: [deepEqualNumberAware] coerces two numeric operands ([int], [int64],
    [float64]) to float and compares them with [==], two NaNs being equal;
    it is reflexive and symmetric on every value; and when both operands of
    a comparison evaluate without error, [evalCond] of [Eq(l, r)] is the
    negation of [evalCond] of [Ne(l, r)]. *)
Theorem C8_number_aware_equality :
  (∀ x, toFloat (VInt x) = (float64_of_int x, true))
  ∧ (∀ x, toFloat (VInt64 x) = (float64_of_int x, true))
  ∧ (∀ x, toFloat (VFloat x) = (x, true))
  ∧ (∀ a b af bf,
       toFloat a = (af, true) → toFloat b = (bf, true) →
       deepEqualNumberAware a b
       = (IsNaN af && IsNaN bf) || float64_eq af bf)
  ∧ (∀ a, deepEqualNumberAware a a = true)
  ∧ (∀ a b, deepEqualNumberAware a b = deepEqualNumberAware b a)
  ∧ (∀ l r (bindings : Bindings) lv rv,
       evalValue l bindings = (lv, None) →
       evalValue r bindings = (rv, None) →
       ∃ eq, evalCond (CEq l r) bindings = (eq, None)
             ∧ evalCond (CNe l r) bindings = (negb eq, None)).
Proof.
  repeat split.
  - apply deepEqualNumberAware_numeric.
  - apply deepEqualNumberAware_refl.
  - apply deepEqualNumberAware_sym.
  - intros l r bindings lv rv Hl Hr. exists (deepEqualNumberAware lv rv).
    split; [by apply evalCond_CEq | by apply evalCond_CNe].
Qed.

Lemma C8_number_aware_equality_witness :
  deepEqualNumberAware (VInt64 1) (VFloat float64_one) = true
  ∧ deepEqualNumberAware (VFloat float64_nan) (VInt 1) = false
  ∧ deepEqualNumberAware (VFloat float64_nan) (VFloat float64_nan) = true
  ∧ ∃ eq,
      evalCond (CEq (VRef "x") (VLitInt 5)) {["x" := VInt 5]} = (eq, None)
      ∧ evalCond (CNe (VRef "x") (VLitInt 5)) {["x" := VInt 5]}
        = (negb eq, None).
Proof.
  destruct C8_number_aware_equality as (_ & _ & _ & Hnum & Hrefl & _ & Heq).
  split; [|split; [|split]].
  - rewrite (Hnum (VInt64 1) (VFloat float64_one) (float64_of_int 1)
               float64_one eq_refl eq_refl).
    reflexivity.
  - rewrite (Hnum (VFloat float64_nan) (VInt 1) float64_nan
               (float64_of_int 1) eq_refl eq_refl).
    reflexivity.
  - apply Hrefl.
  - apply (Heq (VRef "x") (VLitInt 5) {["x" := VInt 5]} (VInt 5) (VInt64 5));
      reflexivity.
Defined.

(** C5, as the code has it: a condition of the [Any] form evaluates its
    sub-conditions in order and does not stop at a true one.  The first
    sub-condition that raises an error makes the [Any] return that error,
    with false, whether or not a sub-condition before it was true; when no
    sub-condition raises an error, the [Any] returns their disjunction. *)
Theorem C5_any_evaluates_every_subcondition truthy eq ne
    (subs : list Cond) (bindings : Bindings) :
  subs ≠ [] →
  (∀ pre c post e,
     subs = pre ++ c :: post →
     Forall (λ p, (evalCond p bindings).2 = None) pre →
     (evalCond c bindings).2 = Some e →
     evalCond (mkCond truthy eq ne None subs []) bindings = (false, Some e))
  ∧ (Forall (λ c, (evalCond c bindings).2 = None) subs →
     evalCond (mkCond truthy eq ne None subs []) bindings
     = (existsb (λ c, (evalCond c bindings).1) subs, None)).
Proof.
  intros Hne. destruct subs as [|sub subs]; [done|].
  rewrite evalCond_any_form. split.
  - intros pre c post e -> Hpre Hc. by apply anyLoop_error.
  - intros Hall. by rewrite anyLoop_no_error.
Qed.

Lemma C5_any_evaluates_every_subcondition_witness :
  evalCond anyTrueThenUnbound ∅ = (false, Some (ErrRefNotFound "y"))
  ∧ evalCond (CAny [CTruthy (VLitBool false); CTruthy (VLitBool true)]) ∅
    = (true, None).
Proof.
  split.
  - destruct (C5_any_evaluates_every_subcondition None None None
                [CTruthy (VLitBool true); CTruthy (VRef "y")] ∅ ltac:(done))
      as [Herr _].
    apply (Herr [CTruthy (VLitBool true)] (CTruthy (VRef "y")) []).
    + reflexivity.
    + repeat constructor.
    + reflexivity.
  - destruct (C5_any_evaluates_every_subcondition None None None
                [CTruthy (VLitBool false); CTruthy (VLitBool true)] ∅
                ltac:(done)) as [_ Hok].
    apply Hok. repeat constructor.
Defined.

(** C5, as the claim states it, fails: with a first sub-condition that is
    true and a second one that refers to an unbound variable, the [Any]
    does not return true: it evaluates the second sub-condition and returns
    its error. *)
Lemma C5_any_short_circuit_counterexample :
  evalCond (CTruthy (VLitBool true)) ∅ = (true, None)
  ∧ evalCond anyTrueThenUnbound ∅ = (false, Some (ErrRefNotFound "y")).
Proof. split; reflexivity. Qed.

(* ===================================================================== *)
(** ** Properties of [While] *)
(* ===================================================================== *)

Section While_properties.
Context {Ctx W : Type} (sub : Substrate Ctx W).
Variable exec : Statement → Ctx → Workflow → Bindings → W → Outcome W.
Variables (wh : While) (ctx : Ctx) (wf : Workflow).

(** The guard of the loop, as a proposition. *)
Lemma While_guard_true (iter : Z) :
  (While_MaxIters wh >? 0) && (iter >=? While_MaxIters wh) = true
  ↔ While_MaxIters wh > 0 ∧ iter >= While_MaxIters wh.
Proof. rewrite andb_true_iff. lia. Qed.

Lemma While_guard_false (iter : Z) :
  (While_MaxIters wh >? 0) && (iter >=? While_MaxIters wh) = false
  ↔ ¬ (While_MaxIters wh > 0 ∧ iter >= While_MaxIters wh).
Proof. rewrite <- While_guard_true. by destruct (_ && _). Qed.

Lemma While_loop_sound (fuel : nat) (iter : Z) (b : Bindings) (w : W)
    err b' w' :
  While_loop sub exec fuel wh ctx wf iter b w = Done err b' w' →
  ∃ n, While_spec sub exec wh ctx wf iter b w n err b' w'.
Proof.
  revert iter b w. induction fuel as [|fuel IH]; intros iter b w; [done|].
  simpl.
  destruct (evalCond (While_Cond wh) b) as [ok [e|]] eqn:Hcond.
  { destruct ok; intros [= <- <- <-]; exists O; by eapply While_cond_error. }
  destruct ok.
  2:{ intros [= <- <- <-]. exists O. by apply While_exit. }
  destruct (_ && _) eqn:Hguard.
  { intros [= <- <- <-].
    destruct (proj1 (While_guard_true iter) Hguard) as [Hm Hi].
    exists O. by apply While_max_iters. }
  apply While_guard_false in Hguard.
  destruct (exec (While_Body wh) ctx wf b w) as [[e|] b1 w1| |] eqn:Hbody;
    try done.
  - intros [= <- <- <-]. exists 1%nat. by apply While_body_error.
  - intros Hrest. apply IH in Hrest as [n Hn].
    exists (S n). by eapply While_iterate.
Qed.

Lemma While_loop_complete (iter : Z) (b : Bindings) (w : W) n err b' w' :
  While_spec sub exec wh ctx wf iter b w n err b' w' →
  ∀ fuel, (n < fuel)%nat →
    While_loop sub exec fuel wh ctx wf iter b w = Done err b' w'.
Proof.
  induction 1 as [iter b w ok e Hcond|iter b w Hcond|iter b w Hcond Hm Hi
                 |iter b w e b' w' Hcond Hguard Hbody
                 |iter b w b1 w1 n err b' w' Hcond Hguard Hbody _ IH];
    intros [|fuel] Hfuel; try lia; simpl; rewrite Hcond; try done.
  - by destruct ok.
  - assert (Hg : (While_MaxIters wh >? 0) && (iter >=? While_MaxIters wh)
                 = true) by by apply While_guard_true.
    by rewrite Hg.
  - apply While_guard_false in Hguard. by rewrite Hguard, Hbody.
  - apply While_guard_false in Hguard. rewrite Hguard, Hbody.
    apply IH. lia.
Qed.

(** With a bound, the body is executed at most [MaxIters] times. *)
Lemma While_spec_bound (iter : Z) (b : Bindings) (w : W) n err b' w' :
  While_spec sub exec wh ctx wf iter b w n err b' w' →
  While_MaxIters wh > 0 →
  iter + Z.of_nat n <= Z.max iter (While_MaxIters wh).
Proof.
  induction 1 as [| | | |iter b w b1 w1 n err b' w' _ Hguard _ _ IH];
    intros Hmax; lia.
Qed.

(** C6: [While.execute] is the loop of the specification: the condition is
    evaluated before each iteration and the loop exits with no error as
    soon as it is false; the [MaxIters] error is returned when
    [MaxIters > 0] and the counter has reached [MaxIters] with the
    condition still true, before the body runs; an error of the body
    aborts the loop and is returned; with a bound the body runs at most
    [MaxIters] times; and a body that makes the condition false in one
    pass is executed once, with no error, whatever the bound that the
    first iteration passes. *)
Theorem C6_While_execute_is_the_specified_loop (b : Bindings) (w : W) :
  (∀ err b' w',
     (∃ fuel, While_execute sub exec fuel wh ctx wf b w = Done err b' w')
     ↔ ∃ n, While_spec sub exec wh ctx wf 0 b w n err b' w')
  ∧ (∀ fuel err b' w',
       While_execute sub exec fuel wh ctx wf b w = Done err b' w' →
       While_MaxIters wh > 0 →
       ∃ n, While_spec sub exec wh ctx wf 0 b w n err b' w'
            ∧ Z.of_nat n <= While_MaxIters wh)
  ∧ (∀ b1 w1 fuel,
       evalCond (While_Cond wh) b = (true, None) →
       While_MaxIters wh <= 0 ∨ 0 < While_MaxIters wh →
       exec (While_Body wh) ctx wf b w = Done None b1 w1 →
       evalCond (While_Cond wh) b1 = (false, None) →
       (2 <= fuel)%nat →
       While_execute sub exec fuel wh ctx wf b w
       = Done None b1 (While_sleep sub wh ctx w1)
       ∧ While_spec sub exec wh ctx wf 0 b w 1 None b1
           (While_sleep sub wh ctx w1)).
Proof.
  split; [|split].
  - intros err b' w'. split.
    + intros [fuel Hrun]. by eapply While_loop_sound.
    + intros [n Hspec]. exists (S n).
      eapply While_loop_complete; [done | lia].
  - intros fuel err b' w' Hrun Hmax.
    apply While_loop_sound in Hrun as [n Hn]. exists n. split; [done|].
    pose proof (While_spec_bound _ _ _ _ _ _ _ Hn Hmax). lia.
  - intros b1 w1 fuel Hcond Hbound Hbody Hcond1 Hfuel.
    assert (Hspec : While_spec sub exec wh ctx wf 0 b w 1 None b1
                      (While_sleep sub wh ctx w1)).
    { eapply While_iterate; [done | lia | done |]. by apply While_exit. }
    split; [|done]. eapply While_loop_complete; [done | lia].
Qed.

(** C9: with [SleepSeconds > 0], whatever error the [Sleep] between two
    iterations returns, a cancellation included, the loop goes on from its
    head, where it evaluates the condition again, with the counter
    incremented. *)
Theorem C9_While_discards_sleep_error (fuel : nat) (iter : Z)
    (b : Bindings) (w : W) b1 w1 (sleepErr : option error) w2 :
  While_SleepSeconds wh > 0 →
  evalCond (While_Cond wh) b = (true, None) →
  ¬ (While_MaxIters wh > 0 ∧ iter >= While_MaxIters wh) →
  exec (While_Body wh) ctx wf b w = Done None b1 w1 →
  Sleep sub ctx (While_SleepSeconds wh) w1 = (sleepErr, w2) →
  While_loop sub exec (S fuel) wh ctx wf iter b w
  = While_loop sub exec fuel wh ctx wf (iter + 1) b1 w2.
Proof.
  intros Hsleep Hcond Hguard Hbody Hs. simpl.
  apply While_guard_false in Hguard. rewrite Hcond, Hguard, Hbody.
  unfold While_sleep. rewrite Hs.
  by destruct (Z.gtb_spec (While_SleepSeconds wh) 0); [|lia].
Qed.

(** The loop does not depend on the errors that [Sleep] returns. *)
Lemma While_loop_sleep_error_irrelevant sleepErr (fuel : nat) (iter : Z)
    (b : Bindings) (w : W) :
  While_loop (withSleepError sub sleepErr) exec fuel wh ctx wf iter b w
  = While_loop sub exec fuel wh ctx wf iter b w.
Proof.
  revert iter b w. induction fuel as [|fuel IH]; intros iter b w; [done|].
  simpl. destruct (evalCond (While_Cond wh) b) as [[|] [e|]]; [done| |done..].
  destruct (_ && _); [done|].
  destruct (exec (While_Body wh) ctx wf b w) as [[e|] b1 w1| |];
    [done| |done..].
  apply IH.
Qed.
End While_properties.

Lemma C6_While_execute_is_the_specified_loop_witness :
  While_execute (exampleRuntime firstRegistered None)
    (Statement_execute (exampleRuntime firstRegistered None) 5) 5
    (whileApproval 0) tt exampleWorkflow {["approved" := VBool false]} []
  = Done None {["approved" := VBool true]} ["MockApprove"]
  ∧ While_spec (exampleRuntime firstRegistered None)
      (Statement_execute (exampleRuntime firstRegistered None) 5)
      (whileApproval 0) tt exampleWorkflow 0
      {["approved" := VBool false]} [] 1 None
      {["approved" := VBool true]} ["MockApprove"].
Proof.
  destruct (C6_While_execute_is_the_specified_loop
              (exampleRuntime firstRegistered None)
              (Statement_execute (exampleRuntime firstRegistered None) 5)
              (whileApproval 0) tt exampleWorkflow
              {["approved" := VBool false]} []) as (_ & _ & Hone).
  apply (Hone {["approved" := VBool true]} ["MockApprove"] 5%nat).
  - reflexivity.
  - right. simpl. lia.
  - vm_compute. reflexivity.
  - reflexivity.
  - lia.
Defined.

Lemma C9_While_discards_sleep_error_witness :
  While_loop (exampleRuntime firstRegistered (Some ErrCanceled))
    (Statement_execute (exampleRuntime firstRegistered (Some ErrCanceled)) 5)
    2 (whileApproval 1) tt exampleWorkflow 0
    {["approved" := VBool false]} []
  = Done None {["approved" := VBool true]} ["MockApprove"; "Sleep"].
Proof.
  rewrite (C9_While_discards_sleep_error
             (exampleRuntime firstRegistered (Some ErrCanceled))
             (Statement_execute
                (exampleRuntime firstRegistered (Some ErrCanceled)) 5)
             (whileApproval 1) tt exampleWorkflow 1 0
             {["approved" := VBool false]} []
             {["approved" := VBool true]} ["MockApprove"]
             (Some ErrCanceled) ["MockApprove"; "Sleep"]).
  - reflexivity.
  - simpl. lia.
  - reflexivity.
  - simpl. lia.
  - vm_compute. reflexivity.
  - reflexivity.
Defined.

(* ===================================================================== *)
(** ** The order of a [range] over a map *)
(* ===================================================================== *)

Lemma insertAt_perm {A : Type} (i : nat) (x : A) (l : list A) :
  insertAt i x l ≡ₚ x :: l.
Proof.
  revert i. induction l as [|y l IH]; intros [|i]; simpl; try done.
  rewrite IH. apply Permutation_swap.
Qed.

Lemma shuffle_perm {A : Type} (seed : list nat) (l : list A) :
  shuffle seed l ≡ₚ l.
Proof.
  revert seed. induction l as [|x l IH]; intros seed; simpl; [done|].
  by rewrite insertAt_perm, IH.
Qed.

(** A [range] meets every entry of the map, and nothing else. *)
Lemma elem_of_rangeMap {Ctx W : Type} (sub : Substrate Ctx W) (m : Bindings)
    (k : string) (v : any) :
  (k, v) ∈ rangeMap sub m ↔ m !! k = Some v.
Proof.
  unfold rangeMap. rewrite shuffle_perm. apply elem_of_map_to_list.
Qed.

(* ===================================================================== *)
(** ** Properties of the merge loops *)
(* ===================================================================== *)

Section merge_properties.
Variable conflict : string → error.
Variable skip : string → bool.

Lemma mergeEntries_app (l1 l2 : list (string * any)) (b : Bindings) :
  mergeEntries conflict skip (l1 ++ l2) b
  = match mergeEntries conflict skip l1 b with
    | (Some e, b') => (Some e, b')
    | (None, b') => mergeEntries conflict skip l2 b'
    end.
Proof.
  revert b. induction l1 as [|[k v] l1 IH]; intros b; simpl; [done|].
  destruct (skip k); [apply IH|].
  destruct (b !! k) as [old|]; [|apply IH].
  destruct (reflect_DeepEqual old v); simpl; [apply IH | done].
Qed.

(** A merge that goes through has written every entry it did not skip. *)
Lemma mergeEntries_written (entries : list (string * any)) (b b' : Bindings) :
  mergeEntries conflict skip entries b = (None, b') →
  b' = writeEntries skip entries b.
Proof.
  revert b. induction entries as [|[k v] l IH]; intros b; simpl.
  - by intros [= <-].
  - destruct (skip k); [apply IH|].
    destruct (b !! k) as [old|]; [|apply IH].
    destruct (reflect_DeepEqual old v); simpl; [apply IH | done].
Qed.

(** A merge fails exactly at the first entry, not skipped, whose key is
    bound to a value that [reflect.DeepEqual] tells from the entry's; it
    names that key, and leaves the bindings as they are at that point. *)
Lemma mergeEntries_conflict_iff (entries : list (string * any))
    (b : Bindings) (e : error) (b' : Bindings) :
  mergeEntries conflict skip entries b = (Some e, b')
  ↔ ∃ pre k v post old,
      entries = pre ++ (k, v) :: post
      ∧ mergeEntries conflict skip pre b = (None, b')
      ∧ skip k = false
      ∧ b' !! k = Some old
      ∧ reflect_DeepEqual old v = false
      ∧ e = conflict k.
Proof.
  split.
  - revert b. induction entries as [|[k v] l IH]; intros b; simpl; [done|].
    assert (Hcons : ∀ b1,
      mergeEntries conflict skip [(k, v)] b = (None, b1) →
      mergeEntries conflict skip l b1 = (Some e, b') →
      ∃ pre k0 v0 post old,
        (k, v) :: l = pre ++ (k0, v0) :: post
        ∧ mergeEntries conflict skip pre b = (None, b')
        ∧ skip k0 = false ∧ b' !! k0 = Some old
        ∧ reflect_DeepEqual old v0 = false ∧ e = conflict k0).
    { intros b1 Hhead Hrest.
      destruct (IH _ Hrest) as (pre & k0 & v0 & post & old & -> & Hpre & ?).
      exists ((k, v) :: pre), k0, v0, post, old. split; [done|].
      split; [|done].
      change ((k, v) :: pre) with ([(k, v)] ++ pre).
      by rewrite mergeEntries_app, Hhead. }
    destruct (skip k) eqn:Hskip.
    { apply Hcons. simpl. by rewrite Hskip. }
    destruct (b !! k) as [old|] eqn:Hk.
    2:{ apply Hcons. simpl. by rewrite Hskip, Hk. }
    destruct (reflect_DeepEqual old v) eqn:Heq; simpl.
    { apply Hcons. simpl. by rewrite Hskip, Hk, Heq. }
    intros [= <- <-]. by exists [], k, v, l, old.
  - intros (pre & k & v & post & old & -> & Hpre & Hskip & Hk & Heq & ->).
    rewrite mergeEntries_app, Hpre. simpl. by rewrite Hskip, Hk, Heq.
Qed.
(** When a merge goes through, on values of one heap, every entry agrees
    with the value that its key was bound to before the merge... *)
Lemma mergeEntries_agrees_with_parent (heap : any → Prop)
    (entries : list (string * any)) (b b' : Bindings) (k : string)
    (v0 v : any) :
  (∀ u1 u2, heap u1 → heap u2 → coherent u1 u2) →
  Forall (λ kv, heap kv.2) entries → heap v0 →
  mergeEntries conflict skip entries b = (None, b') →
  b !! k = Some v0 → skip k = false → (k, v) ∈ entries →
  reflect_DeepEqual v0 v = true.
Proof.
  intros Hco Hheap. revert b v0.
  induction Hheap as [|[k1 v1] l Hv1 Hl IH]; intros b v0 Hv0 Hm Hk Hskip Hin.
  { by apply elem_of_nil in Hin. }
  simpl in Hm, Hv1. destruct (skip k1) eqn:Hskip1.
  { apply elem_of_cons in Hin as [[= <- <-]|Hin]; [congruence|].
    by eapply IH. }
  destruct (decide (k1 = k)) as [->|Hne].
  - rewrite Hk in Hm.
    destruct (reflect_DeepEqual v0 v1) eqn:Heq; [|done]. simpl in Hm.
    apply elem_of_cons in Hin as [[= <-]|Hin]; [done|].
    eapply (reflect_DeepEqual_trans v0 v1 v); [by apply Hco| |done|].
    + apply Hco; [done|]. rewrite Forall_forall in Hl.
      by apply (Hl (k, v)).
    + eapply (IH _ v1); [done|exact Hm| |done..]. apply lookup_insert_eq.
  - apply elem_of_cons in Hin as [[= <- <-]|Hin]; [done|].
    destruct (b !! k1) as [old|].
    + destruct (reflect_DeepEqual old v1); [|done]. simpl in Hm.
      eapply (IH _ v0); [done|exact Hm| |done..].
      by rewrite lookup_insert_ne.
    + eapply (IH _ v0); [done|exact Hm| |done..].
      by rewrite lookup_insert_ne.
Qed.

(** ... and with every entry of the same key that it was merged after. *)
Lemma mergeEntries_agrees_between (heap : any → Prop)
    (pre post : list (string * any)) (b b' : Bindings) (k : string)
    (v1 v2 : any) :
  (∀ u1 u2, heap u1 → heap u2 → coherent u1 u2) →
  heap v1 → Forall (λ kv, heap kv.2) post →
  mergeEntries conflict skip (pre ++ (k, v1) :: post) b = (None, b') →
  skip k = false → (k, v2) ∈ post →
  reflect_DeepEqual v1 v2 = true.
Proof.
  intros Hco Hv1 Hpost Hm Hskip Hin.
  rewrite mergeEntries_app in Hm.
  destruct (mergeEntries conflict skip pre b) as [[e|] b1]; [done|].
  simpl in Hm. rewrite Hskip in Hm.
  assert (Hrest : mergeEntries conflict skip post (<[k := v1]> b1)
                  = (None, b')).
  { destruct (b1 !! k) as [old|]; [|done].
    by destruct (reflect_DeepEqual old v1). }
  eapply (mergeEntries_agrees_with_parent heap post); try done.
  apply lookup_insert_eq.
Qed.
End merge_properties.

Lemma Parallel_merge_entries {Ctx W : Type} (sub : Substrate Ctx W)
    (results : list mergeResult) (b : Bindings) :
  Parallel_merge sub results b
  = mergeEntries ErrParallelWriteConflict (λ _, false)
      (Parallel_entries sub results) b.
Proof.
  revert b. induction results as [|r rs IH]; intros b; simpl; [done|].
  destruct (mr_local r) as [local|]; simpl; [|apply IH].
  rewrite mergeEntries_app.
  destruct (mergeEntries _ _ (rangeMap sub local) b) as [[e|] b1];
    [done | apply IH].
Qed.

Lemma Map_merge_entries {Ctx W : Type} (sub : Substrate Ctx W) (m : Map)
    (collectVars : gset string) (successResults : list branchRes)
    (b : Bindings) :
  Map_merge sub m collectVars successResults b
  = mergeEntries ErrMapWriteConflict (Map_skip m collectVars)
      (Map_entries sub successResults) b.
Proof.
  revert b. induction successResults as [|r rs IH]; intros b; simpl; [done|].
  rewrite mergeEntries_app.
  destruct (mergeEntries _ _ (rangeMap sub (br_local r)) b) as [[e|] b1];
    [done | apply IH].
Qed.

(** C1, as the code has it: in the merge of [Parallel.execute] and in the
    merge of [Map.execute] (for the keys it does not skip), a value that
    meets a key already bound is compared with [reflect.DeepEqual]: the
    merge fails exactly at the first entry whose key is bound to a value
    that [reflect.DeepEqual] tells from the entry's, and the error names
    that key.  No number is coerced: the integer [1] published to a key
    bound to the float [1.0] is a conflict, and so is a float NaN published
    to a key bound to a float NaN. *)
Theorem C1_merges_compare_with_DeepEqual {Ctx W : Type}
    (sub : Substrate Ctx W) :
  (∀ results (b : Bindings) e b',
     Parallel_merge sub results b = (Some e, b')
     ↔ ∃ pre k v post old,
         Parallel_entries sub results = pre ++ (k, v) :: post
         ∧ mergeEntries ErrParallelWriteConflict (λ _, false) pre b
           = (None, b')
         ∧ b' !! k = Some old
         ∧ reflect_DeepEqual old v = false
         ∧ e = ErrParallelWriteConflict k)
  ∧ (∀ m collectVars successResults (b : Bindings) e b',
       Map_merge sub m collectVars successResults b = (Some e, b')
       ↔ ∃ pre k v post old,
           Map_entries sub successResults = pre ++ (k, v) :: post
           ∧ mergeEntries ErrMapWriteConflict (Map_skip m collectVars) pre b
             = (None, b')
           ∧ Map_skip m collectVars k = false
           ∧ b' !! k = Some old
           ∧ reflect_DeepEqual old v = false
           ∧ e = ErrMapWriteConflict k)
  ∧ reflect_DeepEqual (VFloat float64_one) (VInt64 1) = false
  ∧ reflect_DeepEqual (VFloat float64_one) (VInt 1) = false
  ∧ reflect_DeepEqual (VFloat float64_nan) (VFloat float64_nan) = false.
Proof.
  split; [|split; [|done]].
  - intros results b e b'.
    rewrite Parallel_merge_entries, mergeEntries_conflict_iff. naive_solver.
  - intros m collectVars successResults b e b'.
    by rewrite Map_merge_entries, mergeEntries_conflict_iff.
Qed.

Lemma C1_merges_compare_with_DeepEqual_witness :
  Parallel_merge (exampleRuntime firstRegistered None)
    [mkMergeResult (Some cloneIntOne) None] parentFloatOne
  = (Some (ErrParallelWriteConflict "x"), parentFloatOne).
Proof.
  destruct (C1_merges_compare_with_DeepEqual
              (exampleRuntime firstRegistered None)) as (Hpar & _).
  apply Hpar.
  exists [], "x", (VInt64 1), [], (VFloat float64_one).
  repeat split; reflexivity.
Defined.

(** C1, as the claim states it, fails: for a parent that binds [x] to the
    float [1.0] and a successful branch (a successful iteration) whose clone
    binds [x] to the integer [1], the two values are equal under
    number-aware equality, and yet both merges fail with the write-conflict
    error that names [x]. *)
Lemma C1_number_aware_merge_counterexample :
  deepEqualNumberAware (VFloat float64_one) (VInt64 1) = true
  ∧ Parallel_finish (exampleRuntime firstRegistered None)
      [mkMergeResult (Some cloneIntOne) None] parentFloatOne []
    = Done (Some (ErrParallelWriteConflict "x")) parentFloatOne []
  ∧ Map_finish (exampleRuntime firstRegistered None) mapOverItems
      (<["items" := VSlice 1 [VStr "u"]]> parentFloatOne) [VStr "u"]
      [mkBranchRes
         (<["_item" := VStr "u"]>
            (<["items" := VSlice 1 [VStr "u"]]> cloneIntOne)) None O] []
    = Done (Some (ErrMapWriteConflict "x"))
        (<["items" := VSlice 1 [VStr "u"]]> parentFloatOne) [].
Proof. repeat split; vm_compute; reflexivity. Qed.

(* ===================================================================== *)
(** ** Properties of [Parallel] *)
(* ===================================================================== *)

Lemma firstError_acc (errs : list (option error)) (e : error) :
  fold_left (λ firstErr err,
    if failed err && negb (failed firstErr) then err else firstErr)
    errs (Some e) = Some e.
Proof.
  induction errs as [|err errs IH]; simpl; [done|].
  by rewrite andb_false_r.
Qed.

Lemma firstError_first (pre : list (option error)) (e : error)
    (post : list (option error)) :
  Forall (λ err, err = None) pre →
  firstError (pre ++ Some e :: post) = Some e.
Proof.
  unfold firstError. induction 1 as [|err pre -> _ IH]; simpl.
  - apply firstError_acc.
  - apply IH.
Qed.

Lemma firstError_none (errs : list (option error)) :
  Forall (λ err, err = None) errs → firstError errs = None.
Proof. unfold firstError. induction 1 as [|err errs -> _ IH]; by simpl. Qed.

Section selector_properties.
Context {Ctx W : Type} (sub : Substrate Ctx W).

(** With a future registered, [Select] fires one of them. *)
Lemma selectOne_fires (pending : list future) (w : W) :
  pending ≠ [] →
  ∃ f pending' w',
    selectOne sub pending w = Some (f, pending', w')
    ∧ pending ≡ₚ f :: pending'.
Proof.
  intros Hne. unfold selectOne.
  destruct pending as [|f0 rest] eqn:Hp; [done|]. rewrite <- Hp.
  destruct (SelectNext sub (fut_idx <$> pending) w) as [n w'].
  assert (Hlt : (n mod length pending < length pending)%nat).
  { apply Nat.mod_upper_bound. subst pending. simpl. lia. }
  destruct (lookup_lt_is_Some_2 pending _ Hlt) as [f Hf].
  rewrite Hf. exists f, (delete (n mod length pending)%nat pending), w'.
  split; [done|]. by apply delete_Permutation.
Qed.

Lemma selectOne_Some (pending : list future) (w : W) f pending' w' :
  selectOne sub pending w = Some (f, pending', w') →
  pending ≡ₚ f :: pending'.
Proof.
  intros Hsel. destruct pending as [|f0 rest] eqn:Hp; [done|].
  destruct (selectOne_fires pending w) as (g & p' & w'' & Hg & Hperm);
    [by subst|]. subst pending. rewrite Hg in Hsel.
  by injection Hsel as -> -> ->.
Qed.

(** The completion order is an order of the futures that were registered. *)
Lemma fireOrder_perm (gas : nat) (pending : list future) (w : W) :
  length pending = gas → (fireOrder sub gas pending w).1 ≡ₚ pending.
Proof.
  revert pending w. induction gas as [|gas IH]; intros pending w Hlen.
  - by destruct pending.
  - simpl. destruct (selectOne_fires pending w) as (f & p' & w' & Hsel & Hp).
    { intros ->. done. }
    rewrite Hsel.
    assert (Hlen' : length p' = gas).
    { apply Permutation_length in Hp. simpl in Hp. lia. }
    specialize (IH p' w' Hlen').
    destruct (fireOrder sub gas p' w') as [fs w'']. simpl in *.
    by rewrite Hp, IH.
Qed.

Lemma Parallel_callback_resultOf (f : future) (results : list mergeResult) :
  Parallel_callback f results = results ++ [resultOf f].
Proof. unfold Parallel_callback, resultOf. by destruct (fut_err f). Qed.

(** The wait loop of [Parallel.execute] ends, with one result for each
    branch, in the completion order. *)
Lemma Parallel_wait_results (gas n completed : nat) (pending : list future)
    (results : list mergeResult) (w : W) :
  length pending = gas → (completed + gas = n)%nat →
  Parallel_wait sub gas n completed pending results w
  = Some (results ++ (resultOf <$> (fireOrder sub gas pending w).1),
          (fireOrder sub gas pending w).2).
Proof.
  revert completed pending results w.
  induction gas as [|gas IH]; intros completed pending results w Hlen Hn.
  - simpl. destruct (Nat.ltb_spec completed n); [lia|].
    by rewrite app_nil_r.
  - simpl. destruct (Nat.ltb_spec completed n); [|lia].
    destruct (selectOne_fires pending w) as (f & p' & w' & Hsel & Hp).
    { intros ->. done. }
    rewrite Hsel.
    assert (Hlen' : length p' = gas).
    { apply Permutation_length in Hp. simpl in Hp. lia. }
    rewrite (IH (S completed) p' _ w' Hlen') by lia.
    rewrite Parallel_callback_resultOf.
    destruct (fireOrder sub gas p' w') as [fs w'']. simpl.
    by rewrite <- app_assoc.
Qed.
End selector_properties.

Section Parallel_properties.
Context {Ctx W : Type} (sub : Substrate Ctx W).
Variable exec : Statement → Ctx → Workflow → Bindings → W → Outcome W.

(** Launching registers one future for each branch, in the order of the
    branches; the future of a branch holds what the branch, run on a clone
    of the parent bindings, has made of the clone, and its error. *)
Lemma Parallel_launch_futures (branches : list Statement) (i : nat)
    (ctx : Ctx) (wf : Workflow) (b : Bindings) (pending0 : list future)
    (w : W) pending w1 :
  Parallel_launch exec branches i ctx wf b pending0 w
  = inr (pending, w1) →
  ∃ launched,
    pending = pending0 ++ launched
    ∧ Forall2 (λ st f, ∃ w0 w0',
                 exec st ctx wf (cloneMap b) w0
                 = Done (fut_err f) (fut_local f) w0') branches launched.
Proof.
  revert i pending0 w. induction branches as [|st rest IH];
    intros i pending0 w; simpl.
  - intros [= <- <-]. exists []. by rewrite app_nil_r.
  - destruct (exec st ctx wf (cloneMap b) w) as [err l w'| |] eqn:Hrun;
      try done.
    intros Hrest. apply IH in Hrest as (launched & -> & Hall).
    exists (mkFuture i l err :: launched). rewrite <- app_assoc.
    split; [done|]. constructor; [|done]. by exists w, w'.
Qed.

Lemma Parallel_launch_length (branches : list Statement) (ctx : Ctx)
    (wf : Workflow) (b : Bindings) (w : W) pending w1 :
  Parallel_launch exec branches O ctx wf b [] w = inr (pending, w1) →
  length pending = length branches.
Proof.
  intros Hl. apply Parallel_launch_futures in Hl as (launched & -> & Hall).
  simpl. symmetry. by eapply Forall2_length.
Qed.

(** Once its branches are launched, [Parallel.execute] waits for all of
    them and then does [Parallel_finish] on the results, which stand in the
    completion order. *)
Lemma Parallel_execute_joined (p : Parallel) (ctx : Ctx) (wf : Workflow)
    (b : Bindings) (w : W) pending w1 :
  Parallel_Branches p ≠ [] →
  Parallel_launch exec (Parallel_Branches p) O ctx wf b [] w
  = inr (pending, w1) →
  Parallel_execute sub exec p ctx wf b w
  = Parallel_finish sub
      (resultOf <$> (fireOrder sub (length pending) pending w1).1) b
      (fireOrder sub (length pending) pending w1).2.
Proof.
  intros Hne Hlaunch. unfold Parallel_execute.
  destruct (Parallel_Branches p) as [|st rest] eqn:Hb; [done|].
  rewrite <- Hb in *. rewrite Hlaunch.
  pose proof (Parallel_launch_length _ _ _ _ _ _ _ Hlaunch) as Hlen.
  rewrite <- Hlen.
  by rewrite (Parallel_wait_results sub (length pending) (length pending) O
                pending [] w1 eq_refl) by lia.
Qed.

(** C10: when at least one branch of a [Parallel] fails, the operator
    returns the error of the failing branch that completes first, and the
    parent bindings are as they were: nothing that a successful branch
    wrote to its clone is merged. *)
Theorem C10_Parallel_returns_first_failure (p : Parallel) (ctx : Ctx)
    (wf : Workflow) (b : Bindings) (w : W) pending w1 :
  Parallel_launch exec (Parallel_Branches p) O ctx wf b [] w
  = inr (pending, w1) →
  (∃ f, f ∈ pending ∧ failed (fut_err f) = true) →
  ∃ pre f e post w2,
    fireOrder sub (length pending) pending w1 = (pre ++ f :: post, w2)
    ∧ Forall (λ g, fut_err g = None) pre
    ∧ fut_err f = Some e
    ∧ Parallel_execute sub exec p ctx wf b w = Done (Some e) b w2.
Proof.
  intros Hlaunch (f0 & Hin & Hfail).
  assert (Hne : Parallel_Branches p ≠ []).
  { intros Hnil. apply Parallel_launch_length in Hlaunch.
    rewrite Hnil in Hlaunch. destruct pending; [|done].
    by apply elem_of_nil in Hin. }
  rewrite (Parallel_execute_joined p ctx wf b w pending w1 Hne Hlaunch).
  pose proof (fireOrder_perm sub (length pending) pending w1 eq_refl) as Hperm.
  destruct (fireOrder sub (length pending) pending w1) as [order w2].
  simpl in *.
  assert (Hex : Exists (λ g, failed (fut_err g) = true) order).
  { apply Exists_exists. exists f0. split; [|done]. by rewrite Hperm. }
  clear Hperm Hin Hfail Hlaunch.
  assert (Hsplit : ∃ pre f e post,
            order = pre ++ f :: post
            ∧ Forall (λ g, fut_err g = None) pre ∧ fut_err f = Some e).
  { induction order as [|g order IH]; [by apply Exists_nil in Hex|].
    destruct (fut_err g) as [e|] eqn:Hg.
    - by exists [], g, e, order.
    - apply Exists_cons in Hex as [Hex|Hex]; [by rewrite Hg in Hex|].
      destruct (IH Hex) as (pre & f & e & post & -> & Hpre & Hf).
      exists (g :: pre), f, e, post. split; [done|].
      split; [by constructor | done]. }
  destruct Hsplit as (pre & f & e & post & -> & Hpre & Hf).
  exists pre, f, e, post, w2. split; [done|]. split; [done|].
  split; [done|]. unfold Parallel_finish.
  assert (Herr : firstError (mr_err <$> (resultOf <$> (pre ++ f :: post)))
                 = Some e).
  { rewrite !fmap_app, !fmap_cons.
    replace (mr_err (resultOf f)) with (Some e)
      by (unfold resultOf; by rewrite Hf).
    apply firstError_first. rewrite Forall_fmap, Forall_fmap.
    eapply Forall_impl; [exact Hpre|]. intros g Hg. simpl.
    unfold resultOf. by rewrite Hg. }
  by rewrite Herr.
Qed.
End Parallel_properties.

Lemma C10_Parallel_returns_first_failure_witness :
  ∃ e w2,
    Parallel_execute (exampleRuntime lastRegistered None)
      (Statement_execute (exampleRuntime lastRegistered None) 5)
      parallelWithFailures tt exampleWorkflow {["n" := VInt64 1]} []
    = Done (Some e) {["n" := VInt64 1]} w2.
Proof.
  destruct (C10_Parallel_returns_first_failure
              (exampleRuntime lastRegistered None)
              (Statement_execute (exampleRuntime lastRegistered None) 5)
              parallelWithFailures tt exampleWorkflow {["n" := VInt64 1]} []
              [mkFuture 0 (<["a" := VStr "A:1"]> {["n" := VInt64 1]}) None;
               mkFuture 1 {["n" := VInt64 1]}
                 (Some (ErrActivityFailed "Fail1" (ErrRuntime "Fail1")));
               mkFuture 2 {["n" := VInt64 1]}
                 (Some (ErrActivityFailed "Fail2" (ErrRuntime "Fail2")))]
              ["DoA"; "Fail1"; "Fail2"])
    as (pre & f & e & post & w2 & _ & _ & _ & Hrun).
  - vm_compute. reflexivity.
  - exists (mkFuture 1 {["n" := VInt64 1]}
              (Some (ErrActivityFailed "Fail1" (ErrRuntime "Fail1")))).
    split; [|reflexivity]. apply list_elem_of_further, list_elem_of_here.
  - by exists e, w2.
Defined.

(** The failure that is returned is the one that completes first: with the
    futures fired in the order of their registration it is that of the
    second branch, with the reverse order that of the third one. *)
Example Parallel_first_failure_by_completion :
  Parallel_execute (exampleRuntime firstRegistered None)
    (Statement_execute (exampleRuntime firstRegistered None) 5)
    parallelWithFailures tt exampleWorkflow {["n" := VInt64 1]} []
  = Done (Some (ErrActivityFailed "Fail1" (ErrRuntime "Fail1")))
      {["n" := VInt64 1]} ["DoA"; "Fail1"; "Fail2"]
  ∧ Parallel_execute (exampleRuntime lastRegistered None)
      (Statement_execute (exampleRuntime lastRegistered None) 5)
      parallelWithFailures tt exampleWorkflow {["n" := VInt64 1]} []
    = Done (Some (ErrActivityFailed "Fail2" (ErrRuntime "Fail2")))
        {["n" := VInt64 1]} ["DoA"; "Fail1"; "Fail2"].
Proof. split; vm_compute; reflexivity. Qed.

(* ===================================================================== *)
(** ** The merge of [Parallel]: conflicts *)
(* ===================================================================== *)

Section Parallel_conflict.
Context {Ctx W : Type} (sub : Substrate Ctx W).

Lemma Parallel_entries_app (rs1 rs2 : list mergeResult) :
  Parallel_entries sub (rs1 ++ rs2)
  = Parallel_entries sub rs1 ++ Parallel_entries sub rs2.
Proof. apply flat_map_app. Qed.

Lemma Parallel_entries_cons (r : mergeResult) (local : Bindings)
    (rs : list mergeResult) :
  mr_local r = Some local →
  Parallel_entries sub (r :: rs) = rangeMap sub local ++ Parallel_entries sub rs.
Proof. intros Hr. unfold Parallel_entries. simpl. by rewrite Hr. Qed.

Lemma elem_of_Parallel_entries (results : list mergeResult) (k : string)
    (v : any) :
  (k, v) ∈ Parallel_entries sub results
  ↔ ∃ r local, r ∈ results ∧ mr_local r = Some local ∧ local !! k = Some v.
Proof.
  unfold Parallel_entries. rewrite list_elem_of_In, in_flat_map. split.
  - intros (r & Hr & Hin). destruct (mr_local r) as [local|] eqn:Hl; [|done].
    exists r, local. rewrite list_elem_of_In. split; [done|]. split; [done|].
    by apply (elem_of_rangeMap sub), list_elem_of_In.
  - intros (r & local & Hr & Hl & Hk). exists r.
    rewrite <- list_elem_of_In. split; [done|]. rewrite Hl.
    by apply list_elem_of_In, elem_of_rangeMap.
Qed.

Lemma Parallel_finish_all_succeeded (results : list mergeResult)
    (b : Bindings) (w : W) :
  Forall (λ r, mr_err r = None) results →
  Parallel_finish sub results b w
  = Done (Parallel_merge sub results b).1 (Parallel_merge sub results b).2 w.
Proof.
  intros Hok. unfold Parallel_finish.
  rewrite firstError_none by by rewrite Forall_fmap.
  by destruct (Parallel_merge sub results b).
Qed.

(** C4, as the code has it: when every branch of a [Parallel] has
    succeeded, the merge writes the entries of the clones to the parent
    bindings one after the other, the clones in the completion order, and
    fails exactly at the first entry whose key is bound to a value that
    [reflect.DeepEqual] tells from the entry's, with the write-conflict
    error that names that key.  The merge is not undone: the entries written
    before the conflict stay written in the parent bindings.  And the merge
    does fail, on values of one heap, when the clone of a branch binds a key
    to a value unequal to the one the key has in the parent, or to the one
    it has in the clone of a branch that completed before. *)
Theorem C4_Parallel_conflict_is_not_rolled_back (results : list mergeResult)
    (b : Bindings) (w : W) :
  Forall (λ r, mr_err r = None) results →
  (∀ e b' w',
     Parallel_finish sub results b w = Done (Some e) b' w'
     ↔ w' = w
       ∧ ∃ pre k v post old,
           Parallel_entries sub results = pre ++ (k, v) :: post
           ∧ mergeEntries ErrParallelWriteConflict (λ _, false) pre b
             = (None, b')
           ∧ b' = writeEntries (λ _, false) pre b
           ∧ b' !! k = Some old
           ∧ reflect_DeepEqual old v = false
           ∧ e = ErrParallelWriteConflict k)
  ∧ (∀ heap : any → Prop,
       (∀ u1 u2, heap u1 → heap u2 → coherent u1 u2) →
       (∀ k v, b !! k = Some v → heap v) →
       (∀ r local k v,
          r ∈ results → mr_local r = Some local → local !! k = Some v →
          heap v) →
       (∃ r local k v0 v,
          r ∈ results ∧ mr_local r = Some local
          ∧ b !! k = Some v0 ∧ local !! k = Some v
          ∧ reflect_DeepEqual v0 v = false)
       ∨ (∃ rs1 r1 rs2 r2 rs3 local1 local2 k v1 v2,
            results = rs1 ++ r1 :: rs2 ++ r2 :: rs3
            ∧ mr_local r1 = Some local1 ∧ mr_local r2 = Some local2
            ∧ local1 !! k = Some v1 ∧ local2 !! k = Some v2
            ∧ reflect_DeepEqual v1 v2 = false) →
       ∃ k' b',
         Parallel_finish sub results b w
         = Done (Some (ErrParallelWriteConflict k')) b' w).
Proof.
  intros Hok. rewrite (Parallel_finish_all_succeeded results b w Hok).
  rewrite Parallel_merge_entries. split.
  - intros e b' w'.
    destruct (mergeEntries ErrParallelWriteConflict (λ _, false)
                (Parallel_entries sub results) b) as [err b1] eqn:Hm.
    simpl. split.
    + intros [= -> -> ->]. split; [done|].
      apply mergeEntries_conflict_iff in Hm
        as (pre & k & v & post & old & He & Hpre & _ & Hk & Hneq & ->).
      exists pre, k, v, post, old. repeat split; try done.
      by eapply mergeEntries_written.
    + intros (-> & pre & k & v & post & old & He & Hpre & _ & Hk & Hneq & ->).
      assert (Hm' : mergeEntries ErrParallelWriteConflict (λ _, false)
                      (Parallel_entries sub results) b
                    = (Some (ErrParallelWriteConflict k), b')).
      { apply mergeEntries_conflict_iff. by exists pre, k, v, post, old. }
      rewrite Hm in Hm'. by injection Hm' as -> ->.
  - intros heap Hco Hparent Hclones Hconflict.
    assert (Hheap : Forall (λ kv, heap kv.2) (Parallel_entries sub results)).
    { apply Forall_forall. intros [k v] Hin.
      apply elem_of_Parallel_entries in Hin as (r & local & Hr & Hl & Hk).
      by eapply Hclones. }
    destruct (mergeEntries ErrParallelWriteConflict (λ _, false)
                (Parallel_entries sub results) b) as [[e|] b1] eqn:Hm.
    { simpl. apply mergeEntries_conflict_iff in Hm
        as (pre & k & v & post & old & _ & _ & _ & _ & _ & ->).
      by exists k, b1. }
    exfalso.
    destruct Hconflict
      as [(r & local & k & v0 & v & Hr & Hl & Hk0 & Hk & Hneq)
         |(rs1 & r1 & rs2 & r2 & rs3 & l1 & l2 & k & v1 & v2
           & -> & Hl1 & Hl2 & Hk1 & Hk2 & Hneq)].
    + assert (Hin : (k, v) ∈ Parallel_entries sub results).
      { apply elem_of_Parallel_entries. by exists r, local. }
      rewrite (mergeEntries_agrees_with_parent ErrParallelWriteConflict
                 (λ _, false) heap _ b b1 k v0 v Hco Hheap) in Hneq;
        eauto; done.
    + rewrite Parallel_entries_app, (Parallel_entries_cons r1 l1) in Hm, Hheap
        by done.
      assert (Hin1 : (k, v1) ∈ rangeMap sub l1) by by apply elem_of_rangeMap.
      apply list_elem_of_split in Hin1 as (p1 & q1 & Hsplit).
      rewrite Hsplit in Hm, Hheap.
      rewrite <- !app_assoc in Hm, Hheap. simpl in Hm, Hheap.
      rewrite app_assoc in Hm, Hheap.
      apply Forall_app in Hheap as [_ Hheap].
      apply Forall_cons in Hheap as [Hv1 Hpost].
      rewrite (mergeEntries_agrees_between ErrParallelWriteConflict
                 (λ _, false) heap _ _ b b1 k v1 v2 Hco Hv1 Hpost Hm)
        in Hneq; [done| |]; [done|].
      apply elem_of_app. right. apply elem_of_Parallel_entries.
      exists r2, l2. split; [|done].
      apply elem_of_app. right. apply list_elem_of_here.
Qed.
End Parallel_conflict.

Lemma C4_Parallel_conflict_is_not_rolled_back_witness :
  Parallel_finish (exampleRuntime firstRegistered None)
    [mkMergeResult (Some conflictClone1) None;
     mkMergeResult (Some conflictClone2) None] ∅ []
  = Done (Some (ErrParallelWriteConflict "z")) conflictClone1 []
  ∧ ∃ k' b',
      Parallel_finish (exampleRuntime firstRegistered None)
        [mkMergeResult (Some conflictClone1) None;
         mkMergeResult (Some conflictClone2) None] ∅ []
      = Done (Some (ErrParallelWriteConflict k')) b' [].
Proof.
  destruct (C4_Parallel_conflict_is_not_rolled_back
              (exampleRuntime firstRegistered None)
              [mkMergeResult (Some conflictClone1) None;
               mkMergeResult (Some conflictClone2) None] ∅ []
              ltac:(by repeat constructor)) as [Hiff Hfail].
  split.
  - apply Hiff. split; [done|].
    exists [("a", VStr "A:1"); ("z", VStr "A:1")], "z", (VStr "B:2"), [],
           (VStr "A:1").
    repeat split; vm_compute; reflexivity.
  - apply (Hfail (λ v, objects v = [])).
    + intros u1 u2 H1 _ x y Hx. rewrite H1 in Hx. by apply elem_of_nil in Hx.
    + intros k v Hk. by rewrite lookup_empty in Hk.
    + intros r local k v Hr Hl Hk.
      apply elem_of_cons in Hr as [->|Hr];
        [|apply elem_of_cons in Hr as [->|Hr]; [|by apply elem_of_nil in Hr]];
        injection Hl as <-; unfold conflictClone1, conflictClone2 in Hk;
        repeat (apply lookup_insert_Some in Hk as [[_ <-]|[_ Hk]]; [done|]);
        by rewrite lookup_empty in Hk.
    + right.
      exists [], (mkMergeResult (Some conflictClone1) None), [],
             (mkMergeResult (Some conflictClone2) None), [],
             conflictClone1, conflictClone2, "z", (VStr "A:1"), (VStr "B:2").
      repeat split; reflexivity.
Defined.

(** C4, as the claim states it, fails: in scenario 5, with two branches that
    succeed and set [z] to different values, the operator fails with the
    write-conflict error that names [z], and the parent bindings, empty
    before, hold what the first branch wrote. *)
Lemma C4_no_partial_merge_counterexample :
  Parallel_execute (exampleRuntime firstRegistered None)
    (Statement_execute (exampleRuntime firstRegistered None) 5)
    parallelConflict tt exampleWorkflow ∅ []
  = Done (Some (ErrParallelWriteConflict "z")) conflictClone1
      ["DoA"; "DoA"; "DoB"]
  ∧ conflictClone1 ≠ ∅.
Proof.
  split; [vm_compute; reflexivity|].
  intros Heq. apply (f_equal (λ m : Bindings, m !! "z")) in Heq.
  vm_compute in Heq. discriminate.
Qed.

(* ===================================================================== *)
(** ** Properties of [Map]: the dispatch *)
(* ===================================================================== *)

Section Map_dispatch_properties.
Context {Ctx W : Type} (sub : Substrate Ctx W).
Variable exec : Statement → Ctx → Workflow → Bindings → W → Outcome W.
Variables (m : Map) (ctx : Ctx) (wf : Workflow) (bindings : Bindings).
Variable items : list any.

Lemma Map_window_pos : 1 <= Map_window m wf.
Proof.
  unfold Map_window.
  destruct (Z.leb_spec (Map_Concurrency m) 0); [|lia].
  destruct (Z.gtb_spec (Workflow_Concurrency wf) 0); lia.
Qed.

(** The dispatch loop fires the registered futures one by one, records
    their results in the completion order, and does nothing else: the
    test [completed < len(allResults)] that guards the fail-fast return
    and the launch of the next item never holds, since the callback
    increments [completed] when it appends to [allResults].  With fewer
    futures registered than items remain, the loop ends up waiting on a
    selector with no future. *)
Lemma Map_dispatch_outcome (gas : nat) (st : MapState) :
  st_completed st = length (st_allResults st) →
  (st_completed st + length (st_pending st) <= length items)%nat →
  (length items <= gas + st_completed st)%nat →
  Map_dispatch sub exec m ctx wf bindings items gas st
  = let fired :=
      fireOrder sub (length (st_pending st)) (st_pending st) (st_world st) in
    let st' :=
      mkMapState (st_inflight st) (st_next st)
        (st_allResults st ++ (brOf <$> fired.1))
        (st_completed st + length (st_pending st)) []
        (st_canceled st) fired.2 in
    if (st_completed st + length (st_pending st) <? length items)%nat
    then Stuck st' else Dispatched st'.
Proof.
  revert st. induction gas as [|gas IH];
    intros [inflight next allResults completed pending canceled w];
    simpl; intros Hc Hle Hgas.
  - destruct (Nat.ltb_spec completed (length items)); [lia|].
    destruct pending; [|simpl in Hle; lia]. simpl.
    rewrite app_nil_r, Nat.add_0_r.
    by destruct (Nat.ltb_spec completed (length items)); [lia|].
  - destruct (Nat.ltb_spec completed (length items)) as [Hlt|Hge].
    2:{ destruct pending; [|simpl in Hle; lia]. simpl.
        rewrite app_nil_r, Nat.add_0_r.
        by destruct (Nat.ltb_spec completed (length items)); [lia|]. }
    destruct pending as [|f0 rest] eqn:Hp.
    { simpl. rewrite app_nil_r, Nat.add_0_r.
      by destruct (Nat.ltb_spec completed (length items)); [|lia]. }
    rewrite <- Hp in *.
    destruct (selectOne_fires sub pending w) as (f & p' & w' & Hsel & Hperm).
    { by rewrite Hp. }
    assert (Hlen : length pending = S (length p')).
    { by rewrite Hperm. }
    rewrite Hsel. unfold Map_callback. simpl.
    rewrite length_app. simpl.
    destruct (Nat.ltb_spec (S completed) (length allResults + 1)); [lia|].
    rewrite IH; simpl; [|rewrite length_app; simpl; lia|lia|lia].
    rewrite Hlen. simpl. rewrite Hsel.
    destruct (fireOrder sub (length p') p' w') as [fired w'']. simpl.
    rewrite <- app_assoc. simpl.
    replace (completed + S (length p'))%nat with (S (completed + length p'))
      by lia.
    done.
Qed.

(** The dispatch loop never takes the fail-fast return and never calls
    [cancel]. *)
Lemma Map_dispatch_never_cancels (gas : nat) (st : MapState) :
  st_completed st = length (st_allResults st) →
  (st_completed st + length (st_pending st) <= length items)%nat →
  (length items <= gas + st_completed st)%nat →
  match Map_dispatch sub exec m ctx wf bindings items gas st with
  | Dispatched st' | Stuck st' => st_canceled st' = st_canceled st
  | FailedFast _ _ => False
  | Never _ => False
  end.
Proof.
  intros Hc Hle Hgas. rewrite Map_dispatch_outcome by done. simpl.
  by destruct (_ <? _)%nat.
Qed.
Lemma emitNext_outcome (st : MapState) :
  (st_next st < length items)%nat →
  match emitNext sub exec m ctx wf bindings items st with
  | inl o => o = Blocked ∨ o = OutOfFuel
  | inr st' =>
      ∃ f, fut_idx f = st_next st ∧ iterationOf sub exec m ctx wf bindings items f
           ∧ st_inflight st' = st_inflight st + 1
           ∧ st_next st' = S (st_next st)
           ∧ st_pending st' = st_pending st ++ [f]
           ∧ st_allResults st' = st_allResults st
           ∧ st_completed st' = st_completed st
           ∧ st_canceled st' = st_canceled st
  end.
Proof.
  intros Hlt. unfold emitNext, emit.
  destruct (lookup_lt_is_Some_2 items _ Hlt) as [it Hit]. rewrite Hit.
  destruct (exec (Map_Body m) (childCtx sub ctx) wf _ (st_world st))
    as [err l w'| |] eqn:Hrun; [|by left|by right].
  exists (mkFuture (st_next st) l err). simpl. repeat split; try done.
  by exists it, (st_world st), w'.
Qed.

(** The loop that primes the window launches the items of index below
    [min(window, len(items))], in order, and no other. *)
Lemma Map_prime_outcome (gas : nat) (st : MapState) :
  st_inflight st = Z.of_nat (st_next st) →
  (st_next st <= length items)%nat →
  (length items <= gas + st_next st)%nat →
  match Map_prime sub exec m ctx wf bindings items gas st with
  | inl o => o = Blocked ∨ o = OutOfFuel
  | inr st' =>
      st_inflight st' = Z.of_nat (st_next st')
      ∧ (st_next st <= st_next st' <= length items)%nat
      ∧ (st_next st' = length items
         ∨ Map_window m wf <= Z.of_nat (st_next st'))
      ∧ Z.of_nat (st_next st') <= Z.max (Z.of_nat (st_next st)) (Map_window m wf)
      ∧ (∃ launched,
           st_pending st' = st_pending st ++ launched
           ∧ fut_idx <$> launched
             = seq (st_next st) (st_next st' - st_next st)
           ∧ Forall (iterationOf sub exec m ctx wf bindings items) launched)
      ∧ st_allResults st' = st_allResults st
      ∧ st_completed st' = st_completed st
      ∧ st_canceled st' = st_canceled st
  end.
Proof.
  revert st. induction gas as [|gas IH]; intros st Hin Hle Hgas; simpl.
  - destruct (Nat.ltb_spec (st_next st) (length items)); [lia|]. simpl.
    repeat split; try lia.
    exists []. rewrite app_nil_r, Nat.sub_diag. by repeat split.
  - destruct (Nat.ltb_spec (st_next st) (length items)) as [Hlt|Hge]; simpl.
    2:{ repeat split; try lia.
        exists []. rewrite app_nil_r, Nat.sub_diag. by repeat split. }
    destruct (Z.ltb_spec (st_inflight st) (Map_window m wf)) as [Hw|Hw].
    2:{ repeat split; try lia.
        exists []. rewrite app_nil_r, Nat.sub_diag. by repeat split. }
    pose proof (emitNext_outcome st Hlt) as Hemit.
    destruct (emitNext sub exec m ctx wf bindings items st) as [o|st1];
      [done|].
    destruct Hemit as (f & Hidx & Hf & Hin1 & Hn1 & Hp1 & Ha1 & Hc1 & Hx1).
    specialize (IH st1). rewrite Hin1, Hn1 in IH.
    specialize (IH ltac:(lia) ltac:(lia) ltac:(lia)).
    destruct (Map_prime sub exec m ctx wf bindings items gas st1)
      as [o|st']; [done|].
    destruct IH as (Hin' & Hnext & Hstop & Hmax & (launched & Hp' & Hidxs & Hall)
                    & Ha' & Hc' & Hx').
    repeat split; try lia; try congruence.
    exists (f :: launched). rewrite Hp', Hp1, <- app_assoc. split; [done|].
    split; [|by constructor].
    rewrite fmap_cons, Hidxs, Hidx.
    replace (st_next st' - st_next st)%nat
      with (S (st_next st' - S (st_next st))) by lia.
    done.
Qed.
(** [Map.execute], once [items] is known: it launches the first
    [min(window, len(items))] iterations; when that is all of them it waits
    for them and goes on to sort, merge and collect their results; when
    items remain it never returns. *)
Lemma Map_run_outcome (w : W) :
  match Map_prime sub exec m ctx wf bindings items (length items)
          (Map_initial w) with
  | inl o =>
      (o = Blocked ∨ o = OutOfFuel)
      ∧ Map_run sub exec m ctx wf bindings items w = o
  | inr st =>
      st_next st = Nat.min (length items) (Z.to_nat (Map_window m wf))
      ∧ fut_idx <$> st_pending st = seq O (st_next st)
      ∧ Forall (iterationOf sub exec m ctx wf bindings items) (st_pending st)
      ∧ Map_run sub exec m ctx wf bindings items w
        = let fired :=
            fireOrder sub (length (st_pending st)) (st_pending st)
              (st_world st) in
          if (st_next st <? length items)%nat then Blocked
          else Map_finish sub m bindings items (brOf <$> fired.1) fired.2
  end.
Proof.
  pose proof (Map_prime_outcome (length items) (Map_initial w)
                eq_refl ltac:(simpl; lia) ltac:(simpl; lia)) as Hprime.
  unfold Map_run.
  destruct (Map_prime sub exec m ctx wf bindings items (length items)
              (Map_initial w)) as [o|st]; [done|].
  simpl in Hprime.
  destruct Hprime as (Hin & Hnext & Hstop & Hmax & (launched & Hp & Hidx & Hall)
                      & Ha & Hc & Hx).
  simpl in Hp. subst launched. rewrite Nat.sub_0_r in Hidx.
  assert (Hlen : length (st_pending st) = st_next st).
  { by rewrite <- (length_fmap fut_idx), Hidx, length_seq. }
  pose proof Map_window_pos as Hwin.
  split; [lia|]. split; [done|]. split; [done|].
  rewrite Map_dispatch_outcome; [|by rewrite Hc, Ha|rewrite Hc; lia|lia].
  simpl. rewrite Hc, Ha, Hlen. simpl.
  by destruct (st_next st <? length items)%nat.
Qed.

(** With a window below the number of items, [Map.execute] does not
    return. *)
Lemma Map_run_below_window (w : W) :
  Map_window m wf < Z.of_nat (length items) →
  Map_run sub exec m ctx wf bindings items w = Blocked
  ∨ Map_run sub exec m ctx wf bindings items w = OutOfFuel.
Proof.
  intros Hlt. pose proof (Map_run_outcome w) as Hrun.
  destruct (Map_prime sub exec m ctx wf bindings items (length items)
              (Map_initial w)) as [o|st].
  - destruct Hrun as [[->| ->] ->]; [by left | by right].
  - destruct Hrun as (Hnext & _ & _ & ->). simpl.
    pose proof Map_window_pos.
    destruct (Nat.ltb_spec (st_next st) (length items)); [by left | lia].
Qed.
(** When every iteration that is launched ends, the window is primed... *)
Lemma Map_prime_total (gas : nat) (st : MapState) :
  (∀ local w0, ∃ err local' w0',
     exec (Map_Body m) (childCtx sub ctx) wf local w0 = Done err local' w0') →
  (length items <= gas + st_next st)%nat →
  ∃ st', Map_prime sub exec m ctx wf bindings items gas st = inr st'.
Proof.
  intros Htotal. revert st. induction gas as [|gas IH]; intros st Hgas; simpl.
  - destruct (Nat.ltb_spec (st_next st) (length items)); [lia|]. by eexists.
  - destruct (Nat.ltb_spec (st_next st) (length items)) as [Hlt|];
      [|by eexists]. simpl.
    destruct (st_inflight st <? Map_window m wf); [|by eexists].
    pose proof (emitNext_outcome st Hlt) as Hemit.
    unfold emitNext, emit in *.
    destruct (lookup_lt_is_Some_2 items _ Hlt) as [it Hit].
    rewrite Hit in *.
    destruct (Htotal (<[Map_itemVar m := it]> (cloneMap bindings))
                (st_world st)) as (err & l & w' & Hrun).
    rewrite Hrun in *. apply IH. simpl. lia.
Qed.

(** ... and with a window that holds every item, [Map.execute] returns. *)
Lemma Map_run_returns (w : W) :
  (∀ local w0, ∃ err local' w0',
     exec (Map_Body m) (childCtx sub ctx) wf local w0 = Done err local' w0') →
  Z.of_nat (length items) <= Map_window m wf →
  ∃ err b' w', Map_run sub exec m ctx wf bindings items w = Done err b' w'.
Proof.
  intros Htotal Hwin.
  destruct (Map_prime_total (length items) (Map_initial w) Htotal
              ltac:(simpl; lia)) as [st Hst].
  pose proof (Map_run_outcome w) as Hrun. rewrite Hst in Hrun.
  destruct Hrun as (Hnext & _ & _ & ->). simpl.
  destruct (Nat.ltb_spec (st_next st) (length items)); [lia|].
  unfold Map_finish.
  destruct (_ && Map_FailFast m); [by eexists _, _, _|].
  destruct (Map_merge _ _ _ _ _) as [[e|] bm]; [by eexists _, _, _|].
  destruct (negb _); [|by eexists _, _, _].
  destruct (NewSlice sub _). by eexists _, _, _.
Qed.
End Map_dispatch_properties.

(** C2, on the code: a [Map] over three items whose window is below three
    (the default window of one, or a window of two) launches the first
    items of the window and, once they have completed, launches no other
    item and never returns; with a window of three it completes. *)
Theorem C2_Map_below_window_never_returns :
  Statement_execute (exampleRuntime firstRegistered None) 5
    (SMap (mapFetch 0)) tt exampleWorkflow threeUrls [] = Blocked
  ∧ Statement_execute (exampleRuntime firstRegistered None) 5
      (SMap (mapFetch 2)) tt exampleWorkflow threeUrls [] = Blocked
  ∧ Statement_execute (exampleRuntime firstRegistered None) 5
      (SMap (mapFetch 3)) tt exampleWorkflow threeUrls []
    = Done None
        (<["pages" := VSlice 4 [VStr "content-of-u1"; VStr "content-of-u2";
                                VStr "content-of-u3"]]> threeUrls)
        ["Fetch"; "Fetch"; "Fetch"; "make"].
Proof. repeat split; vm_compute; reflexivity. Qed.

(** C3, on the code: a fail-fast [Map] over two items whose first iteration
    fails.  With a window of one the dispatch loop records the failure,
    does not call [cancel], and waits for ever on a selector with no
    future: the operator returns no error.  With a window of two the loop
    does not call [cancel] either: the second iteration runs to its end and
    succeeds, and the failure is returned after it. *)
Theorem C3_Map_fail_fast_does_not_cancel :
  Map_run (exampleRuntime firstRegistered None)
    (Statement_execute (exampleRuntime firstRegistered None) 5)
    (mapFailFast 1) tt exampleWorkflow badThenGoodBindings badThenGood []
  = Blocked
  ∧ (∃ st st',
       Map_prime (exampleRuntime firstRegistered None)
         (Statement_execute (exampleRuntime firstRegistered None) 5)
         (mapFailFast 1) tt exampleWorkflow badThenGoodBindings badThenGood
         2 (Map_initial []) = inr st
       ∧ Map_dispatch (exampleRuntime firstRegistered None)
           (Statement_execute (exampleRuntime firstRegistered None) 5)
           (mapFailFast 1) tt exampleWorkflow badThenGoodBindings badThenGood
           2 st = Stuck st'
       ∧ st_canceled st' = false
       ∧ st_next st' = 1%nat
       ∧ br_err <$> st_allResults st'
         = [Some (ErrActivityFailed "DoA" (ErrRuntime "DoA"))])
  ∧ (∃ st st',
       Map_prime (exampleRuntime firstRegistered None)
         (Statement_execute (exampleRuntime firstRegistered None) 5)
         (mapFailFast 2) tt exampleWorkflow badThenGoodBindings badThenGood
         2 (Map_initial []) = inr st
       ∧ Map_dispatch (exampleRuntime firstRegistered None)
           (Statement_execute (exampleRuntime firstRegistered None) 5)
           (mapFailFast 2) tt exampleWorkflow badThenGoodBindings badThenGood
           2 st = Dispatched st'
       ∧ st_canceled st' = false
       ∧ br_err <$> st_allResults st'
         = [Some (ErrActivityFailed "DoA" (ErrRuntime "DoA")); None])
  ∧ Map_run (exampleRuntime firstRegistered None)
      (Statement_execute (exampleRuntime firstRegistered None) 5)
      (mapFailFast 2) tt exampleWorkflow badThenGoodBindings badThenGood []
    = Done (Some (ErrActivityFailed "DoA" (ErrRuntime "DoA")))
        badThenGoodBindings ["DoA"; "DoA"].
Proof.
  split; [vm_compute; reflexivity|]. split; [|split].
  - eexists _, _. split; [vm_compute; reflexivity|].
    split; [vm_compute; reflexivity|]. repeat split.
  - eexists _, _. split; [vm_compute; reflexivity|].
    split; [vm_compute; reflexivity|]. repeat split.
  - vm_compute. reflexivity.
Qed.

(* ===================================================================== *)
(** ** Properties of [Map]: the collection *)
(* ===================================================================== *)

Lemma find_app_first {A : Type} (f : A → bool) (l1 l2 : list A) :
  find f (l1 ++ l2)
  = match find f l1 with Some x => Some x | None => find f l2 end.
Proof.
  induction l1 as [|a l1 IH]; simpl; [done|]. by destruct (f a).
Qed.

(** Among results of distinct indices, the result of an index is found by
    its index. *)
Lemma find_by_index (rs : list branchRes) (r : branchRes) :
  NoDup (br_idx <$> rs) → r ∈ rs →
  find (λ r', br_idx r' =? br_idx r)%nat rs = Some r.
Proof.
  induction rs as [|r0 rs IH]; intros Hnd Hin; [by apply elem_of_nil in Hin|].
  rewrite fmap_cons in Hnd. apply NoDup_cons in Hnd as [Hnotin Hnd].
  simpl. apply elem_of_cons in Hin as [->|Hin].
  - by rewrite Nat.eqb_refl.
  - destruct (Nat.eqb_spec (br_idx r0) (br_idx r)) as [Heq|_]; [|by apply IH].
    exfalso. apply Hnotin. rewrite Heq. by apply list_elem_of_fmap_2.
Qed.

Lemma find_by_index_None (rs : list branchRes) (i : nat) :
  i ∉ br_idx <$> rs → find (λ r', br_idx r' =? i)%nat rs = None.
Proof.
  induction rs as [|r0 rs IH]; intros Hnotin; [done|]. simpl.
  rewrite fmap_cons in Hnotin. apply not_elem_of_cons in Hnotin as [Hne Hnotin].
  destruct (Nat.eqb_spec (br_idx r0) i); [congruence | by apply IH].
Qed.

Lemma replicate_as_fmap_seq {A : Type} (x : A) (n start : nat) :
  replicate n x = (λ _, x) <$> seq start n.
Proof.
  revert start. induction n as [|n IH]; intros start; simpl; [done|].
  by rewrite <- IH.
Qed.

Section Map_collect_properties.
Context {Ctx W : Type} (sub : Substrate Ctx W).
Variables (m : Map) (bindings : Bindings) (items : list any).
Hypothesis HcollectVar : Map_CollectVar m ≠ "".

Lemma slotByIndex_snoc (rs : list branchRes) (r : branchRes) (i : nat) :
  br_idx r ∉ br_idx <$> rs →
  slotByIndex sub m bindings (rs ++ [r]) i
  = if decide (i = br_idx r)
    then default VNil (collectedOf sub m bindings r)
    else slotByIndex sub m bindings rs i.
Proof.
  intros Hnotin. unfold slotByIndex. rewrite find_app_first. simpl.
  destruct (decide (i = br_idx r)) as [->|Hne].
  - by rewrite find_by_index_None, Nat.eqb_refl.
  - destruct (Nat.eqb_spec (br_idx r) i); [congruence|].
    by destruct (find _ rs).
Qed.

(** The slot of an index does not depend on the order of the results. *)
Lemma slotByIndex_of_result (rs : list branchRes) (r : branchRes) :
  NoDup (br_idx <$> rs) → r ∈ rs →
  slotByIndex sub m bindings rs (br_idx r)
  = default VNil (collectedOf sub m bindings r).
Proof. intros Hnd Hin. unfold slotByIndex. by rewrite find_by_index. Qed.

Lemma slotByIndex_perm (rs rs' : list branchRes) (i : nat) :
  NoDup (br_idx <$> rs) → rs' ≡ₚ rs →
  slotByIndex sub m bindings rs' i = slotByIndex sub m bindings rs i.
Proof.
  intros Hnd Hperm.
  assert (Hnd' : NoDup (br_idx <$> rs')) by by rewrite Hperm.
  destruct (decide (i ∈ br_idx <$> rs)) as [Hin|Hnotin].
  - apply list_elem_of_fmap in Hin as (r & -> & Hr).
    rewrite !slotByIndex_of_result; try done. by rewrite Hperm.
  - unfold slotByIndex. rewrite !find_by_index_None; try done.
    by rewrite Hperm.
Qed.

Lemma Map_sort_snoc (rs : list branchRes) (r : branchRes) :
  Map_sort sub m bindings items (rs ++ [r])
  = Map_sortStep sub m bindings (Map_sort sub m bindings items rs) r.
Proof. unfold Map_sort. by rewrite fold_left_app. Qed.

Lemma Map_sortStep_collected (so : Sorted) (r : branchRes) :
  so_collected (Map_sortStep sub m bindings so r)
  = match collectedOf sub m bindings r with
    | Some v => <[br_idx r := v]> (so_collected so)
    | None => so_collected so
    end.
Proof.
  unfold Map_sortStep, collectedOf.
  destruct (br_err r); [done|].
  destruct (String.eqb_spec (Map_CollectVar m) ""); [done|]. simpl.
  destruct (pickCollected sub m bindings r) as [[k v]|]; [|done]. simpl.
  destruct (Nat.ltb_spec (br_idx r) (length (so_collected so))); [done|].
  by rewrite list_insert_ge.
Qed.

(** The slots are filled by iteration index, whatever the order of the
    results. *)
Lemma Map_sort_collected (rs : list branchRes) :
  NoDup (br_idx <$> rs) →
  so_collected (Map_sort sub m bindings items rs)
  = slotByIndex sub m bindings rs <$> seq O (length items).
Proof.
  induction rs as [|r rs IH] using rev_ind; intros Hnd.
  - simpl. apply replicate_as_fmap_seq.
  - rewrite fmap_app in Hnd. apply NoDup_app in Hnd as (Hnd & Hdisj & _).
    assert (Hnotin : br_idx r ∉ br_idx <$> rs).
    { intros Hin. apply (Hdisj _ Hin). apply list_elem_of_here. }
    rewrite Map_sort_snoc, Map_sortStep_collected, (IH Hnd).
    apply list_eq. intros i.
    rewrite list_lookup_fmap.
    destruct (seq O (length items) !! i) as [j|] eqn:Hi.
    2:{ apply lookup_ge_None in Hi.
        destruct (collectedOf sub m bindings r) as [v|].
        - apply lookup_ge_None. by rewrite length_insert, length_fmap.
        - apply lookup_ge_None. by rewrite length_fmap. }
    pose proof (lookup_lt_Some _ _ _ Hi) as Hlt. rewrite length_seq in Hlt.
    apply lookup_seq in Hi as [-> _]. simpl.
    rewrite slotByIndex_snoc by done.
    destruct (decide (i = br_idx r)) as [->|Hne].
    + destruct (collectedOf sub m bindings r) as [v|]; simpl.
      * apply list_lookup_insert_eq. by rewrite length_fmap, length_seq.
      * rewrite list_lookup_fmap, lookup_seq_lt by done. simpl.
        unfold slotByIndex. by rewrite find_by_index_None.
    + destruct (collectedOf sub m bindings r) as [v|]; simpl.
      * rewrite list_lookup_insert_ne by done.
        by rewrite list_lookup_fmap, lookup_seq_lt.
      * by rewrite list_lookup_fmap, lookup_seq_lt.
Qed.
End Map_collect_properties.

(** Filtering the nil slots out leaves, in their order, the values of the
    iterations that collected a value that is not nil. *)
Lemma finalCollected_slots {Ctx W : Type} (sub : Substrate Ctx W) (m : Map)
    (bindings : Bindings) (iterations : list future) :
  finalCollected
    ((λ f, default VNil (collectedOf sub m bindings (brOf f))) <$> iterations)
  = collectedInIndexOrder sub m bindings iterations.
Proof.
  unfold finalCollected, collectedInIndexOrder.
  induction iterations as [|f l IH]; [done|]. rewrite fmap_cons. simpl.
  destruct (collectedOf sub m bindings (brOf f)) as [v|]; simpl; [|done].
  destruct v; simpl; by rewrite ?IH.
Qed.

(** The output sequence holds no nil, and it is drawn from the slots in
    their order: a value stands before another in it only if its slot
    stands before the slot of the other. *)
Lemma collectedInIndexOrder_sublist {Ctx W : Type} (sub : Substrate Ctx W)
    (m : Map) (bindings : Bindings) (iterations : list future) :
  Forall (λ v, v ≠ VNil) (collectedInIndexOrder sub m bindings iterations)
  ∧ collectedInIndexOrder sub m bindings iterations
    `sublist_of`
    ((λ f, default VNil (collectedOf sub m bindings (brOf f))) <$> iterations).
Proof.
  unfold collectedInIndexOrder.
  induction iterations as [|f l [IHnil IHsub]]; [by split|].
  rewrite fmap_cons. simpl.
  destruct (collectedOf sub m bindings (brOf f)) as [v|]; simpl.
  - destruct v; simpl;
      (split; [try (constructor; [done|]); done
              | first [by apply sublist_cons | by apply sublist_skip]]).
  - split; [done | by apply sublist_cons].
Qed.

Section Map_run_properties.
Context {Ctx W : Type} (sub : Substrate Ctx W).
Variable exec : Statement → Ctx → Workflow → Bindings → W → Outcome W.
Variables (m : Map) (ctx : Ctx) (wf : Workflow) (bindings : Bindings).
Variable items : list any.

(** C7: a [Map] whose window holds every item returns when its iterations
    end.  When a [Map] with [CollectVar] set returns, either it is
    fail-fast and returns the failure of an iteration, with the bindings as
    they were, or its merge has met a write conflict, or
    [bindings[CollectVar]] is the sequence of the values collected for the
    iterations, taken in the order of their indices; the last case is the
    case of every return with no error.  That sequence holds exactly the
    values of the iterations whose slot is set to a value that is not nil,
    in the order of the slots: it holds no nil, and no value of an
    iteration that collected nothing.  The slots that the sequence is
    drawn from are the same for every order in which the results of the
    iterations are recorded. *)
Theorem C7_Map_collects_by_index (w : W) :
  Map_CollectVar m ≠ "" →
  ((∀ local w0, ∃ err local' w0',
      exec (Map_Body m) (childCtx sub ctx) wf local w0
      = Done err local' w0') →
   Z.of_nat (length items) <= Map_window m wf →
   ∃ err b' w', Map_run sub exec m ctx wf bindings items w = Done err b' w')
  ∧ (∀ err b' w',
       Map_run sub exec m ctx wf bindings items w = Done err b' w' →
       ∃ iterations : list future,
         fut_idx <$> iterations = seq O (length items)
         ∧ Forall (iterationOf sub exec m ctx wf bindings items) iterations
         ∧ ((Map_FailFast m = true ∧ failed err = true ∧ b' = bindings)
            ∨ (∃ k, err = Some (ErrMapWriteConflict k))
            ∨ (∃ p, b' !! Map_CollectVar m
                    = Some (VSlice p
                        (collectedInIndexOrder sub m bindings iterations))))
         ∧ (err = None →
            ∃ p, b' !! Map_CollectVar m
                 = Some (VSlice p
                     (collectedInIndexOrder sub m bindings iterations)))
         ∧ Forall (λ v, v ≠ VNil)
             (collectedInIndexOrder sub m bindings iterations)
         ∧ collectedInIndexOrder sub m bindings iterations
           `sublist_of`
           ((λ f, default VNil (collectedOf sub m bindings (brOf f)))
              <$> iterations)
         ∧ (∀ i f v,
              iterations !! i = Some f →
              collectedOf sub m bindings (brOf f) = Some v → v ≠ VNil →
              v ∈ collectedInIndexOrder sub m bindings iterations))
  ∧ (∀ rs rs',
       NoDup (br_idx <$> rs) → rs' ≡ₚ rs →
       so_collected (Map_sort sub m bindings items rs')
       = so_collected (Map_sort sub m bindings items rs)).
Proof.
  intros Hcv. split; [|split].
  { intros Htotal Hwin. by apply Map_run_returns. }
  2:{ intros rs rs' Hnd Hperm.
      rewrite !Map_sort_collected; try done; [|by rewrite Hperm].
      apply list_fmap_ext. intros i j _. by apply slotByIndex_perm. }
  intros err b' w' Hrun.
  pose proof (Map_run_outcome sub exec m ctx wf bindings items w) as Hout.
  destruct (Map_prime sub exec m ctx wf bindings items (length items)
              (Map_initial w)) as [o|st].
  { destruct Hout as [[->| ->] Ho]; rewrite Ho in Hrun; done. }
  destruct Hout as (Hnext & Hidx & Hiter & Ho). rewrite Ho in Hrun.
  clear Ho. simpl in Hrun.
  destruct (Nat.ltb_spec (st_next st) (length items)) as [|Hge]; [done|].
  assert (Hn : st_next st = length items) by lia. rewrite Hn in Hidx.
  pose proof (fireOrder_perm sub (length (st_pending st)) (st_pending st)
                (st_world st) eq_refl) as Hperm.
  destruct (fireOrder sub (length (st_pending st)) (st_pending st)
              (st_world st)) as [fired w1]. simpl in *.
  set (rs := brOf <$> fired) in *.
  assert (Hnd : NoDup (br_idx <$> rs)).
  { unfold rs. rewrite <- list_fmap_compose.
    change (br_idx ∘ brOf) with fut_idx. rewrite Hperm, Hidx.
    apply NoDup_seq. }
  assert (Hslots : so_collected (Map_sort sub m bindings items rs)
                   = (λ f, default VNil (collectedOf sub m bindings (brOf f)))
                       <$> st_pending st).
  { rewrite Map_sort_collected by done. rewrite <- Hidx.
    rewrite <- list_fmap_compose. apply list_fmap_ext. intros i f Hf. simpl.
    change (fut_idx f) with (br_idx (brOf f)).
    apply slotByIndex_of_result; [done|].
    unfold rs. apply list_elem_of_fmap_2. rewrite Hperm.
    by eapply list_elem_of_lookup_2. }
  exists (st_pending st). split; [done|]. split; [done|].
  assert (Hkept : ∀ i f v,
            st_pending st !! i = Some f →
            collectedOf sub m bindings (brOf f) = Some v → v ≠ VNil →
            v ∈ collectedInIndexOrder sub m bindings (st_pending st)).
  { intros i f v Hf Hv Hnil. unfold collectedInIndexOrder.
    apply list_elem_of_omap. exists f.
    split; [by eapply list_elem_of_lookup_2|]. rewrite Hv. by destruct v. }
  destruct (collectedInIndexOrder_sublist sub m bindings (st_pending st))
    as [Hnonil Hsub].
  unfold Map_finish in Hrun.
  destruct (failed (so_firstErr (Map_sort sub m bindings items rs))
            && Map_FailFast m) eqn:Hff.
  { injection Hrun as <- <- <-. apply andb_true_iff in Hff as [Hf Hfast].
    split; [by left|]. split; [|by split_and!].
    intros Hnone. by rewrite Hnone in Hf. }
  destruct (Map_merge sub m _ _ bindings) as [[e|] bm] eqn:Hmerge.
  { injection Hrun as <- <- <-.
    rewrite Map_merge_entries in Hmerge.
    apply mergeEntries_conflict_iff in Hmerge
      as (pre & k & v & post & old & _ & _ & _ & _ & _ & ->).
    split; [right; left; by exists k|]. split; [done | by split_and!]. }
  destruct (String.eqb_spec (Map_CollectVar m) "") as [|_]; [done|].
  simpl in Hrun. destruct (NewSlice sub w1) as [p w2].
  injection Hrun as <- <- <-. rewrite Hslots, finalCollected_slots.
  split; [right; right; exists p; apply lookup_insert_eq|].
  split; [intros _; exists p; apply lookup_insert_eq | by split_and!].
Qed.
End Map_run_properties.

Lemma C7_Map_collects_by_index_witness :
  ∃ iterations p,
    fut_idx <$> iterations = seq O 3
    ∧ urlsWithBlankFetched !! "pages"
      = Some (VSlice p
          (collectedInIndexOrder (exampleRuntime lastRegistered None)
             (mapFetchNonEmpty 3) urlsWithBlank iterations))
    ∧ urlsWithBlankFetched !! "pages"
      = Some (VSlice 3 [VStr "content-of-u1"; VStr "content-of-u3"])
    ∧ Forall (λ v, v ≠ VNil)
        (collectedInIndexOrder (exampleRuntime lastRegistered None)
           (mapFetchNonEmpty 3) urlsWithBlank iterations).
Proof.
  destruct (C7_Map_collects_by_index
              (exampleRuntime lastRegistered None)
              (Statement_execute (exampleRuntime lastRegistered None) 5)
              (mapFetchNonEmpty 3) tt exampleWorkflow urlsWithBlank
              [VStr "u1"; VStr ""; VStr "u3"] [] ltac:(done))
    as (_ & Hreturned & _).
  destruct (Hreturned None urlsWithBlankFetched ["Fetch"; "Fetch"; "make"]
              ltac:(vm_compute; reflexivity))
    as (iterations & Hidx & _ & _ & Hnone & Hnonil & _).
  destruct (Hnone eq_refl) as [p Hp]. exists iterations, p.
  split; [done|]. split; [done|]. split; [reflexivity | done].
Defined.

(** Scenario 2: the pages are collected in the order of the urls, with the
    iterations completing in the order of their launch or in the reverse
    order. *)
Example Map_collects_by_index_in_both_orders :
  Statement_execute (exampleRuntime firstRegistered None) 5
    (SMap (mapFetch 3)) tt exampleWorkflow threeUrls []
  = Done None threeUrlsFetched ["Fetch"; "Fetch"; "Fetch"; "make"]
  ∧ Statement_execute (exampleRuntime lastRegistered None) 5
      (SMap (mapFetch 3)) tt exampleWorkflow threeUrls []
    = Done None threeUrlsFetched ["Fetch"; "Fetch"; "Fetch"; "make"]
  ∧ (fst (fireOrder (exampleRuntime lastRegistered None) 3
            [mkFuture 0 ∅ None; mkFuture 1 ∅ None; mkFuture 2 ∅ None] []))
    = [mkFuture 2 ∅ None; mkFuture 1 ∅ None; mkFuture 0 ∅ None].
Proof. repeat split; vm_compute; reflexivity. Qed.

(* ===================================================================== *)
(** ** More on the evaluator *)
(* ===================================================================== *)

(** [evalValue] fails in two cases only: a reference to a variable that is
    not bound, and a value with no field set; a reference that is bound is
    the value of the variable, whatever literal fields the value carries
    beside it. *)
Theorem evalValue_failure (v : Value) (bindings : Bindings) :
  (failed (evalValue v bindings).2 = true
   ↔ (Value_Ref v ≠ "" ∧ bindings !! Value_Ref v = None)
     ∨ (Value_Ref v = "" ∧ Value_Str v = None ∧ Value_Int v = None
        ∧ Value_Float v = None ∧ Value_Bool v = None))
  ∧ (∀ x, Value_Ref v ≠ "" → bindings !! Value_Ref v = Some x →
          evalValue v bindings = (x, None)).
Proof.
  unfold evalValue. destruct (String.eqb_spec (Value_Ref v) "") as [Hr|Hr];
    simpl.
  - split; [|done].
    destruct (Value_Str v), (Value_Int v), (Value_Float v), (Value_Bool v);
      simpl; naive_solver.
  - split.
    + destruct (bindings !! Value_Ref v); simpl; naive_solver.
    + by intros x _ ->.
Qed.

Lemma evalValue_failure_witness :
  evalValue (mkValue "x" (Some "shadowed") None None None)
    {["x" := VInt64 7]} = (VInt64 7, None).
Proof.
  destruct (evalValue_failure (mkValue "x" (Some "shadowed") None None None)
              {["x" := VInt64 7]}) as [_ Href].
  apply Href; [done | reflexivity].
Defined.

Lemma evalCond_all_form truthy eq ne any (sub : Cond) (subs : list Cond)
    (bindings : Bindings) :
  evalCond (mkCond truthy eq ne None any (sub :: subs)) bindings
  = allLoop (sub :: subs) bindings.
Proof.
  simpl. destruct (evalCond sub bindings) as [[|] [e|]]; try done.
  induction subs as [|c cs IH]; [done|]. simpl.
  destruct (evalCond c bindings) as [[|] [e|]]; try done.
Qed.

Lemma allLoop_stops (pre : list Cond) (c : Cond) (post : list Cond)
    (bindings : Bindings) :
  Forall (λ p, evalCond p bindings = (true, None)) pre →
  evalCond c bindings ≠ (true, None) →
  allLoop (pre ++ c :: post) bindings = evalCond c bindings.
Proof.
  intros Hpre Hc. induction Hpre as [|p pre Hp _ IH]; simpl.
  - by destruct (evalCond c bindings) as [[|] [e|]].
  - by rewrite Hp.
Qed.

Lemma allLoop_all_true (subs : list Cond) (bindings : Bindings) :
  Forall (λ p, evalCond p bindings = (true, None)) subs →
  allLoop subs bindings = (true, None).
Proof. induction 1 as [|p subs Hp _ IH]; simpl; [done|]. by rewrite Hp. Qed.

(** A condition of the [All] form, which [evalCond] tries before the [Any]
    form and the atoms, returns what its first sub-condition that is not
    true without error returns, a false or an error, and does not evaluate
    the sub-conditions after it; it is true when all of them are. *)
Theorem evalCond_All_stops_at_first_failure truthy eq ne any
    (subs : list Cond) (bindings : Bindings) :
  subs ≠ [] →
  (∀ pre c post,
     subs = pre ++ c :: post →
     Forall (λ p, evalCond p bindings = (true, None)) pre →
     evalCond c bindings ≠ (true, None) →
     evalCond (mkCond truthy eq ne None any subs) bindings
     = evalCond c bindings)
  ∧ (Forall (λ p, evalCond p bindings = (true, None)) subs →
     evalCond (mkCond truthy eq ne None any subs) bindings = (true, None)).
Proof.
  intros Hne. destruct subs as [|sub subs]; [done|].
  rewrite evalCond_all_form. split.
  - intros pre c post -> Hpre Hc. by apply allLoop_stops.
  - apply allLoop_all_true.
Qed.

Lemma evalCond_All_stops_at_first_failure_witness :
  evalCond (CAll [CTruthy (VLitBool true); CTruthy (VLitBool false);
                  CTruthy (VRef "y")]) ∅ = (false, None).
Proof.
  destruct (evalCond_All_stops_at_first_failure None None None []
              [CTruthy (VLitBool true); CTruthy (VLitBool false);
               CTruthy (VRef "y")] ∅ ltac:(done)) as [Hstop _].
  apply (Hstop [CTruthy (VLitBool true)] (CTruthy (VLitBool false))
           [CTruthy (VRef "y")]).
  - reflexivity.
  - repeat constructor.
  - discriminate.
Defined.

Lemma allLoop_no_error (subs : list Cond) (bindings : Bindings) :
  Forall (λ c, (evalCond c bindings).2 = None) subs →
  allLoop subs bindings
  = (forallb (λ c, (evalCond c bindings).1) subs, None).
Proof.
  induction 1 as [|c subs Hc _ IH]; simpl; [done|].
  destruct (evalCond c bindings) as [[|] err]; simpl in *; subst; done.
Qed.

Lemma evalCond_CNot (c : Cond) (bindings : Bindings) :
  evalCond (CNot c) bindings
  = (negb (evalCond c bindings).1, (evalCond c bindings).2).
Proof. simpl. by destruct (evalCond c bindings). Qed.

Lemma evalCond_CAll_no_error (subs : list Cond) (bindings : Bindings) :
  subs ≠ [] → Forall (λ c, (evalCond c bindings).2 = None) subs →
  evalCond (CAll subs) bindings
  = (forallb (λ c, (evalCond c bindings).1) subs, None).
Proof.
  intros Hne Hok. destruct subs as [|sub subs]; [done|]. unfold CAll.
  by rewrite evalCond_all_form, allLoop_no_error.
Qed.

Lemma evalCond_CAny_no_error (subs : list Cond) (bindings : Bindings) :
  subs ≠ [] → Forall (λ c, (evalCond c bindings).2 = None) subs →
  evalCond (CAny subs) bindings
  = (existsb (λ c, (evalCond c bindings).1) subs, None).
Proof.
  intros Hne Hok. destruct subs as [|sub subs]; [done|]. unfold CAny.
  by rewrite evalCond_any_form, anyLoop_no_error.
Qed.

(** When no sub-condition raises an error, the laws of De Morgan hold of
    [Not], [All] and [Any]; and [Not] of [Not] is the condition itself,
    errors included. *)
Theorem evalCond_De_Morgan (subs : list Cond) (bindings : Bindings) :
  (∀ c, evalCond (CNot (CNot c)) bindings = evalCond c bindings)
  ∧ (subs ≠ [] →
     Forall (λ c, (evalCond c bindings).2 = None) subs →
     evalCond (CNot (CAll subs)) bindings
     = evalCond (CAny (CNot <$> subs)) bindings
     ∧ evalCond (CNot (CAny subs)) bindings
       = evalCond (CAll (CNot <$> subs)) bindings).
Proof.
  split.
  { intros c. rewrite !evalCond_CNot. cbn [fst snd].
    destruct (evalCond c bindings) as [ok err]. cbn [fst snd].
    by rewrite negb_involutive. }
  intros Hne Hok.
  assert (Hnot : Forall (λ c, (evalCond c bindings).2 = None) (CNot <$> subs)).
  { rewrite Forall_fmap. eapply Forall_impl; [exact Hok|].
    intros c Hc. unfold compose. rewrite evalCond_CNot. exact Hc. }
  assert (Hne' : CNot <$> subs ≠ []) by by destruct subs.
  assert (Hmap : ∀ l : list Cond,
            existsb (λ c, (evalCond c bindings).1) (CNot <$> l)
            = negb (forallb (λ c, (evalCond c bindings).1) l)
            ∧ forallb (λ c, (evalCond c bindings).1) (CNot <$> l)
              = negb (existsb (λ c, (evalCond c bindings).1) l)).
  { induction l as [|c l [IH1 IH2]]; [done|].
    rewrite fmap_cons. cbn [existsb forallb].
    rewrite IH1, IH2, evalCond_CNot. cbn [fst snd negb].
    by destruct (evalCond c bindings).1, (forallb _ l), (existsb _ l). }
  destruct (Hmap subs) as [Hex Hall].
  rewrite !evalCond_CNot.
  rewrite (evalCond_CAll_no_error subs), (evalCond_CAny_no_error subs),
    (evalCond_CAll_no_error (CNot <$> subs)),
    (evalCond_CAny_no_error (CNot <$> subs)) by done.
  cbn [fst snd]. by rewrite Hex, Hall.
Qed.

Lemma evalCond_De_Morgan_witness :
  evalCond (CNot (CAll [CTruthy (VLitBool true); CTruthy (VLitBool false)])) ∅
  = evalCond (CAny [CNot (CTruthy (VLitBool true));
                    CNot (CTruthy (VLitBool false))]) ∅.
Proof.
  destruct (evalCond_De_Morgan
              [CTruthy (VLitBool true); CTruthy (VLitBool false)] ∅)
    as [_ HDM].
  destruct HDM as [Hall _]; [done | repeat constructor | exact Hall].
Defined.

(** Two values that [reflect.DeepEqual] holds equal are equal under
    number-aware equality: a pair of values that an [Ne] condition tells
    apart is a write conflict in a merge. *)
Theorem DeepEqual_implies_number_aware (a b : any) :
  reflect_DeepEqual a b = true → deepEqualNumberAware a b = true.
Proof.
  intros Heq. unfold deepEqualNumberAware.
  destruct a, b; simpl in *; try done.
  - apply Z.eqb_eq in Heq as ->.
    destruct (IsNaN (float64_of_int n0)) eqn:Hn; simpl; [done|].
    by apply float64_eq_refl.
  - apply Z.eqb_eq in Heq as ->.
    destruct (IsNaN (float64_of_int n0)) eqn:Hn; simpl; [done|].
    by apply float64_eq_refl.
  - rewrite Heq. apply orb_true_r.
Qed.

Lemma DeepEqual_implies_number_aware_witness :
  deepEqualNumberAware (VSlice 1 [VFloat float64_nan])
    (VSlice 1 [VFloat float64_nan]) = true.
Proof. apply DeepEqual_implies_number_aware. reflexivity. Defined.

(* ===================================================================== *)
(** ** More on the executor: [Sequence], [If], [Activity], [While] *)
(* ===================================================================== *)

Section Executor_properties.
Context {Ctx W : Type} (sub : Substrate Ctx W).
Variable exec : Statement → Ctx → Workflow → Bindings → W → Outcome W.

(** A [Sequence] of two lists of elements, one after the other, does what
    the [Sequence] of the first list does and then, if it has returned no
    error, what the [Sequence] of the second list does on the bindings the
    first has left; after an error, or an element that does not return,
    nothing of the second list is executed. *)
Theorem Sequence_of_append (els1 els2 : list (option Statement)) (ctx : Ctx)
    (wf : Workflow) (b : Bindings) (w : W) :
  Sequence_execute exec (mkSequence (els1 ++ els2)) ctx wf b w
  = match Sequence_execute exec (mkSequence els1) ctx wf b w with
    | Done None b' w' => Sequence_execute exec (mkSequence els2) ctx wf b' w'
    | stopped => stopped
    end.
Proof.
  unfold Sequence_execute. simpl. revert b w.
  induction els1 as [|[st|] els1 IH]; intros b w; simpl; try done.
  by destruct (exec st ctx wf b w) as [[e|] b' w'| |].
Qed.

(** An [If] on [Not c] does what the [If] on [c] with its two branches
    exchanged does, the error of the condition included. *)
Theorem If_Not_exchanges_branches (c : Cond) (then_ else_ : option Statement)
    (ctx : Ctx) (wf : Workflow) (b : Bindings) (w : W) :
  If_execute exec (mkIf (CNot c) then_ else_) ctx wf b w
  = If_execute exec (mkIf c else_ then_) ctx wf b w.
Proof.
  unfold If_execute. simpl If_Cond. rewrite evalCond_CNot.
  destruct (evalCond c b) as [[|] [e|]]; reflexivity.
Qed.

Lemma evalArgs_acc (name : string) (args : list Value) (i : nat)
    (b : Bindings) (acc : list any) :
  evalArgs name args i b acc
  = ((acc ++ (evalArgs name args i b []).1), (evalArgs name args i b []).2).
Proof.
  revert i acc. induction args as [|a args IH]; intros i acc; simpl.
  - by rewrite app_nil_r.
  - destruct (evalValue a b) as [v [e|]]; simpl; [by rewrite app_nil_r|].
    rewrite (IH (S i) (acc ++ [v])), (IH (S i) [v]). simpl.
    by rewrite <- app_assoc.
Qed.

Lemma evalArgs_first_failure (name : string) (pre : list Value) (a : Value)
    (post : list Value) (i : nat) (b : Bindings) (acc : list any) (e : error) :
  Forall (λ v, (evalValue v b).2 = None) pre →
  (evalValue a b).2 = Some e →
  (evalArgs name (pre ++ a :: post) i b acc).2
  = Some (ErrActivityArg name (i + length pre) e).
Proof.
  intros Hpre Ha. revert i acc.
  induction Hpre as [|v pre Hv _ IH]; intros i acc; simpl.
  - destruct (evalValue a b) as [x err]. simpl in Ha. subst. simpl.
    by rewrite Nat.add_0_r.
  - destruct (evalValue v b) as [x err]. simpl in Hv. subst.
    rewrite IH. do 2 f_equal. lia.
Qed.

(** An activity whose argument fails to evaluate is not invoked: the error
    names the activity and the index of the first argument that fails,
    and the bindings and the world are as they were.  Whenever an activity
    node returns, it has changed no variable but its [Result], and none at
    all when it returns an error. *)
Theorem Activity_execute_frame (a : ActivityInvocation) (ctx : Ctx)
    (wf : Workflow) (b : Bindings) (w : W) :
  (∀ pre arg post e,
     Activity_Args a = pre ++ arg :: post →
     Forall (λ v, (evalValue v b).2 = None) pre →
     (evalValue arg b).2 = Some e →
     Activity_execute sub a ctx wf b w
     = Done (Some (ErrActivityArg (Activity_Name a) (length pre) e)) b w)
  ∧ (∀ err b' w',
       Activity_execute sub a ctx wf b w = Done err b' w' →
       (err ≠ None → b' = b)
       ∧ (∀ k, k ≠ Activity_Result a → b' !! k = b !! k)).
Proof.
  split.
  - intros pre arg post e Hargs Hpre Harg. unfold Activity_execute.
    pose proof (evalArgs_first_failure (Activity_Name a) pre arg post O b []
                  e Hpre Harg) as Hfail.
    rewrite <- Hargs in Hfail.
    destruct (evalArgs (Activity_Name a) (Activity_Args a) O b [])
      as [args err]. simpl in Hfail. by subst.
  - intros err b' w'. unfold Activity_execute.
    destruct (evalArgs _ _ _ _ _) as [args [e|]].
    { by intros [= <- <- <-]. }
    destruct (ExecuteActivity sub _ _ _ w) as [[result [e|]] w1].
    { by intros [= <- <- <-]. }
    destruct (negb _); intros [= <- <- <-]; split; try done.
    intros k Hk. by rewrite lookup_insert_ne.
Qed.

Lemma While_loop_terminates (wh : While) (ctx : Ctx) (wf : Workflow)
    (fuel : nat) (iter : Z) (b : Bindings) (w : W) :
  (∀ b0 w0, ∃ err b' w',
     exec (While_Body wh) ctx wf b0 w0 = Done err b' w') →
  While_MaxIters wh > 0 → 0 <= iter →
  Z.max 0 (While_MaxIters wh - iter) < Z.of_nat fuel →
  ∃ err b' w', While_loop sub exec fuel wh ctx wf iter b w = Done err b' w'.
Proof.
  intros Htotal Hmax. revert iter b w.
  induction fuel as [|fuel IH]; intros iter b w Hiter Hfuel; [lia|].
  simpl. destruct (evalCond (While_Cond wh) b) as [[|] [e|]];
    try by eexists _, _, _.
  destruct (_ && _) eqn:Hguard; [by eexists _, _, _|].
  apply While_guard_false in Hguard.
  destruct (Htotal b w) as (err & b' & w' & Hbody). rewrite Hbody.
  destruct err; [by eexists _, _, _|]. apply IH; lia.
Qed.

(** With [MaxIters > 0] and a body that returns whenever it is executed,
    a [While] returns, after at most [MaxIters] executions of its body. *)
Theorem While_bound_terminates (wh : While) (ctx : Ctx) (wf : Workflow)
    (b : Bindings) (w : W) :
  (∀ b0 w0, ∃ err b' w',
     exec (While_Body wh) ctx wf b0 w0 = Done err b' w') →
  While_MaxIters wh > 0 →
  ∃ err b' w' n,
    While_execute sub exec (S (Z.to_nat (While_MaxIters wh))) wh ctx wf b w
    = Done err b' w'
    ∧ While_spec sub exec wh ctx wf 0 b w n err b' w'
    ∧ Z.of_nat n <= While_MaxIters wh.
Proof.
  intros Htotal Hmax.
  destruct (While_loop_terminates wh ctx wf (S (Z.to_nat (While_MaxIters wh)))
              0 b w Htotal Hmax ltac:(lia) ltac:(lia))
    as (err & b' & w' & Hrun).
  destruct (While_loop_sound sub exec wh ctx wf _ _ _ _ _ _ _ Hrun)
    as [n Hn].
  exists err, b', w', n. split; [done|]. split; [done|].
  pose proof (While_spec_bound sub exec wh ctx wf _ _ _ _ _ _ _ Hn Hmax). lia.
Qed.
End Executor_properties.

Lemma Activity_execute_frame_witness :
  Activity_execute (exampleRuntime firstRegistered None)
    (mkActivityInvocation "DoC" [VLitStr "a"; VRef "missing"; VRef "gone"]
       "c" None) tt exampleWorkflow ∅ []
  = Done (Some (ErrActivityArg "DoC" 1 (ErrRefNotFound "missing"))) ∅ [].
Proof.
  destruct (Activity_execute_frame (exampleRuntime firstRegistered None)
              (mkActivityInvocation "DoC"
                 [VLitStr "a"; VRef "missing"; VRef "gone"] "c" None)
              tt exampleWorkflow ∅ []) as [Hargs _].
  apply (Hargs [VLitStr "a"] (VRef "missing") [VRef "gone"]
           (ErrRefNotFound "missing")).
  - reflexivity.
  - repeat constructor.
  - reflexivity.
Defined.

Lemma While_bound_terminates_witness :
  ∃ err b' w' n,
    While_execute (exampleRuntime firstRegistered None)
      (Statement_execute (exampleRuntime firstRegistered None) 5) 4
      (whileApproval 0) tt exampleWorkflow {["approved" := VBool false]} []
    = Done err b' w'
    ∧ While_spec (exampleRuntime firstRegistered None)
        (Statement_execute (exampleRuntime firstRegistered None) 5)
        (whileApproval 0) tt exampleWorkflow 0
        {["approved" := VBool false]} [] n err b' w'
    ∧ Z.of_nat n <= 3.
Proof.
  apply (While_bound_terminates (exampleRuntime firstRegistered None)
           (Statement_execute (exampleRuntime firstRegistered None) 5)
           (whileApproval 0) tt exampleWorkflow
           {["approved" := VBool false]} []).
  - intros b0 w0. eexists _, _, _. reflexivity.
  - simpl. lia.
Defined.

(* ===================================================================== *)
(** ** No statement unbinds a variable *)
(* ===================================================================== *)

Lemma mergeEntries_grows (conflict : string → error) (skip : string → bool)
    (entries : list (string * any)) (b : Bindings) :
  dom b ⊆ dom (mergeEntries conflict skip entries b).2.
Proof.
  revert b. induction entries as [|[k v] l IH]; intros b; simpl; [done|].
  destruct (skip k); [apply IH|].
  assert (Hins : dom b ⊆ dom (mergeEntries conflict skip l (<[k := v]> b)).2).
  { etrans; [|apply IH]. rewrite dom_insert. set_solver. }
  destruct (b !! k) as [old|]; [|done].
  by destruct (reflect_DeepEqual old v).
Qed.

Section grows.
Context {Ctx W : Type} (sub : Substrate Ctx W).

Lemma Parallel_finish_grows (results : list mergeResult) (b : Bindings)
    (w : W) err b' w' :
  Parallel_finish sub results b w = Done err b' w' → dom b ⊆ dom b'.
Proof.
  unfold Parallel_finish. destruct (firstError _); [by intros [= <- <- <-]|].
  rewrite Parallel_merge_entries.
  pose proof (mergeEntries_grows ErrParallelWriteConflict (λ _, false)
                (Parallel_entries sub results) b) as Hg.
  destruct (mergeEntries _ _ _ b) as [e b1]. by intros [= <- <- <-].
Qed.

Lemma Map_finish_grows (m : Map) (b : Bindings) (items : list any)
    (rs : list branchRes) (w : W) err b' w' :
  Map_finish sub m b items rs w = Done err b' w' → dom b ⊆ dom b'.
Proof.
  unfold Map_finish. destruct (_ && Map_FailFast m); [by intros [= <- <- <-]|].
  rewrite Map_merge_entries.
  pose proof (mergeEntries_grows ErrMapWriteConflict
                (Map_skip m (so_collectVars (Map_sort sub m b items rs)))
                (Map_entries sub
                   (so_successResults (Map_sort sub m b items rs))) b) as Hg.
  destruct (mergeEntries _ _ _ b) as [[e|] b1]; simpl in Hg.
  { by intros [= <- <- <-]. }
  destruct (negb _); [|by intros [= <- <- <-]].
  destruct (NewSlice sub w) as [p w1]. intros [= <- <- <-].
  rewrite dom_insert. set_solver.
Qed.

Variable exec : Statement → Ctx → Workflow → Bindings → W → Outcome W.

Lemma Parallel_launch_inl (branches : list Statement) (i : nat) (ctx : Ctx)
    (wf : Workflow) (b : Bindings) (pending : list future) (w : W) o :
  Parallel_launch exec branches i ctx wf b pending w = inl o →
  o = Blocked ∨ o = OutOfFuel.
Proof.
  revert i pending w. induction branches as [|st rest IH];
    intros i pending w; simpl; [done|].
  destruct (exec st ctx wf (cloneMap b) w) as [e l w'| |].
  - apply IH.
  - intros [= <-]. by left.
  - intros [= <-]. by right.
Qed.

Lemma Parallel_execute_grows (p : Parallel) (ctx : Ctx) (wf : Workflow)
    (b : Bindings) (w : W) err b' w' :
  Parallel_execute sub exec p ctx wf b w = Done err b' w' → dom b ⊆ dom b'.
Proof.
  unfold Parallel_execute.
  destruct (Parallel_Branches p); [by intros [= <- <- <-]|].
  destruct (Parallel_launch _ _ _ _ _ _ _ _) as [o|[pending w1]] eqn:Hl.
  { by apply Parallel_launch_inl in Hl as [-> | ->]. }
  destruct (Parallel_wait _ _ _ _ _ _ _) as [[results w2]|]; [|done].
  apply Parallel_finish_grows.
Qed.

Lemma Map_execute_grows (m : Map) (ctx : Ctx) (wf : Workflow)
    (b : Bindings) (w : W) err b' w' :
  Map_execute sub exec m ctx wf b w = Done err b' w' → dom b ⊆ dom b'.
Proof.
  unfold Map_execute.
  destruct (b !! Map_ItemsRef m) as [itemsAny|]; [|by intros [= <- <- <-]].
  destruct (toSlice itemsAny) as [items [|]]; [|by intros [= <- <- <-]].
  pose proof (Map_run_outcome sub exec m ctx wf b items w) as Hrun.
  destruct (Map_prime _ _ _ _ _ _ _ _ _) as [o|st].
  - by destruct Hrun as [[-> | ->] ->].
  - destruct Hrun as (_ & _ & _ & ->). simpl.
    destruct (_ <? _)%nat; [done|]. apply Map_finish_grows.
Qed.

Hypothesis exec_grows : ∀ s ctx wf b w err b' w',
  exec s ctx wf b w = Done err b' w' → dom b ⊆ dom b'.

Lemma Sequence_loop_grows (els : list (option Statement)) (ctx : Ctx)
    (wf : Workflow) (b : Bindings) (w : W) err b' w' :
  Sequence_loop exec els ctx wf b w = Done err b' w' → dom b ⊆ dom b'.
Proof.
  revert b w. induction els as [|[st|] rest IH]; intros b w; simpl;
    [by intros [= <- <- <-]| |by intros [= <- <- <-]].
  destruct (exec st ctx wf b w) as [[e|] b1 w1| |] eqn:Hst; [| |done..].
  - intros [= <- <- <-]. by eapply exec_grows.
  - intros Hrest. etrans; [by eapply exec_grows | by eapply IH].
Qed.

Lemma If_execute_grows (i : If) (ctx : Ctx) (wf : Workflow) (b : Bindings)
    (w : W) err b' w' :
  If_execute exec i ctx wf b w = Done err b' w' → dom b ⊆ dom b'.
Proof.
  unfold If_execute.
  destruct (evalCond (If_Cond i) b) as [[|] [e|]];
    [by intros [= <- <- <-]| |by intros [= <- <- <-]|].
  - destruct (If_Then i); [apply exec_grows | by intros [= <- <- <-]].
  - destruct (If_Else i); [apply exec_grows | by intros [= <- <- <-]].
Qed.

Lemma While_loop_grows (fuel : nat) (wh : While) (ctx : Ctx) (wf : Workflow)
    (iter : Z) (b : Bindings) (w : W) err b' w' :
  While_loop sub exec fuel wh ctx wf iter b w = Done err b' w' →
  dom b ⊆ dom b'.
Proof.
  revert iter b w. induction fuel as [|fuel IH]; intros iter b w; simpl;
    [done|].
  destruct (evalCond (While_Cond wh) b) as [[|] [e|]];
    [by intros [= <- <- <-]| |by intros [= <- <- <-]..].
  destruct (_ && _); [by intros [= <- <- <-]|].
  destruct (exec (While_Body wh) ctx wf b w) as [[e|] b1 w1| |] eqn:Hbody;
    [| |done..].
  - intros [= <- <- <-]. by eapply exec_grows.
  - intros Hrest. etrans; [by eapply exec_grows | by eapply IH].
Qed.

Lemma Activity_execute_grows (a : ActivityInvocation) (ctx : Ctx)
    (wf : Workflow) (b : Bindings) (w : W) err b' w' :
  Activity_execute sub a ctx wf b w = Done err b' w' → dom b ⊆ dom b'.
Proof.
  unfold Activity_execute.
  destruct (evalArgs _ _ _ _ _) as [args [e|]]; [by intros [= <- <- <-]|].
  destruct (ExecuteActivity _ _ _ _ _) as [[result [e|]] w1];
    [by intros [= <- <- <-]|].
  destruct (negb _); intros [= <- <- <-]; [|done].
  rewrite dom_insert. set_solver.
Qed.

Lemma Statement_dispatch_grows (fuel : nat) (s : Statement) (ctx : Ctx)
    (wf : Workflow) (b : Bindings) (w : W) err b' w' :
  Statement_dispatch sub exec fuel s ctx wf b w = Done err b' w' →
  dom b ⊆ dom b'.
Proof.
  unfold Statement_dispatch.
  destruct (Statement_Activity s); [apply Activity_execute_grows|].
  destruct (Statement_Sequence s); [apply Sequence_loop_grows|].
  destruct (Statement_Parallel s); [apply Parallel_execute_grows|].
  destruct (Statement_Map s); [apply Map_execute_grows|].
  destruct (Statement_While s); [apply While_loop_grows|].
  destruct (Statement_If s); [apply If_execute_grows|].
  by intros [= <- <- <-].
Qed.
End grows.

Lemma Statement_execute_grows {Ctx W : Type} (sub : Substrate Ctx W)
    (fuel : nat) (s : Statement) (ctx : Ctx) (wf : Workflow) (b : Bindings)
    (w : W) (err : option error) (b' : Bindings) (w' : W) :
  Statement_execute sub fuel s ctx wf b w = Done err b' w' →
  dom b ⊆ dom b'.
Proof.
  revert s ctx wf b w err b' w'. induction fuel as [|fuel IH];
    intros s ctx wf b w err b' w'; simpl; [done|].
  by apply Statement_dispatch_grows.
Qed.

(** Whatever a statement does, and whether it succeeds or fails, every
    variable that was bound before it ran is still bound when it returns:
    the executor writes and overwrites variables, and never removes
    one. *)
Theorem Statement_execute_keeps_variables {Ctx W : Type}
    (sub : Substrate Ctx W) (fuel : nat) (s : Statement) (ctx : Ctx)
    (wf : Workflow) (b : Bindings) (w : W) (err : option error)
    (b' : Bindings) (w' : W) :
  Statement_execute sub fuel s ctx wf b w = Done err b' w' →
  dom b ⊆ dom b'.
Proof. apply Statement_execute_grows. Qed.

Lemma Statement_execute_keeps_variables_witness :
  dom ({["x" := VInt64 1]} : Bindings)
  ⊆ dom (<["approved" := VBool true]> {["x" := VInt64 1]} : Bindings).
Proof.
  apply (Statement_execute_keeps_variables
           (exampleRuntime firstRegistered None) 3
           (activity "MockApprove" [] "approved") tt exampleWorkflow
           {["x" := VInt64 1]} [] None _ ["MockApprove"]).
  vm_compute. reflexivity.
Defined.

(* ===================================================================== *)
(** ** What validation gives the executor *)
(* ===================================================================== *)

(** What a statement that [validate] accepts is made of. *)
Lemma Statement_validate_None (s : Statement) :
  Statement_validate s = None →
  variantCount s = 1%nat
  ∧ (∀ sq, Statement_Sequence s = Some sq →
       Forall (λ o, ∃ e, o = Some e ∧ Statement_validate e = None)
         (Sequence_Elements sq))
  ∧ (∀ p, Statement_Parallel s = Some p →
       Forall (λ br, Statement_validate br = None) (Parallel_Branches p))
  ∧ (∀ m, Statement_Map s = Some m → Statement_validate (Map_Body m) = None)
  ∧ (∀ wh, Statement_While s = Some wh →
       Statement_validate (While_Body wh) = None)
  ∧ (∀ i, Statement_If s = Some i →
       ∃ t, If_Then i = Some t ∧ Statement_validate t = None
            ∧ ∀ e, If_Else i = Some e → Statement_validate e = None).
Proof.
  destruct s as [id [a|] [[els]|] [[brs]|] [[ref var conc body coll ff]|]
                 [[wc wbody mx sl]|] [[ic [t|] el]|]];
    simpl; try done; intros H; (split; [done|]); split_and!; try done.
  - intros ? [= <-]. simpl.
    induction els as [|[e|] rest IH]; [constructor| |done].
    destruct (Statement_validate e) eqn:He; [done|].
    constructor; [by exists e | by apply IH].
  - intros ? [= <-]. simpl.
    induction brs as [|br rest IH]; [constructor|].
    destruct (Statement_validate br) eqn:He; [done|].
    constructor; [done | by apply IH].
  - intros ? [= <-]. simpl. by destruct (Statement_validate body).
  - intros ? [= <-]. simpl. by destruct (Statement_validate wbody).
  - intros ? [= <-]. simpl. exists t.
    destruct (Statement_validate t); [done|].
    split; [done|]. split; [done|]. by intros e ->.
Qed.

Section validated.
Context {Ctx W : Type} (sub : Substrate Ctx W).
Variable exec : Statement → Ctx → Workflow → Bindings → W → Outcome W.
Hypothesis exec_validated : ∀ s ctx wf b w e b' w',
  Statement_validate s = None →
  exec s ctx wf b w = Done (Some e) b' w' → structural e = false.

Lemma evalArgs_error (name : string) (args : list Value) (i : nat)
    (b : Bindings) (acc : list any) e :
  (evalArgs name args i b acc).2 = Some e → structural e = false.
Proof.
  revert i acc. induction args as [|a args IH]; intros i acc; simpl; [done|].
  destruct (evalValue a b) as [v [err|]]; [by intros [= <-] | apply IH].
Qed.

Lemma Activity_execute_validated (a : ActivityInvocation) (ctx : Ctx)
    (wf : Workflow) (b : Bindings) (w : W) e b' w' :
  Activity_execute sub a ctx wf b w = Done (Some e) b' w' →
  structural e = false.
Proof.
  unfold Activity_execute.
  pose proof (evalArgs_error (Activity_Name a) (Activity_Args a) O b []) as Ha.
  destruct (evalArgs _ _ _ _ _) as [args [err|]].
  { intros [= <- <- <-]. by apply Ha. }
  destruct (ExecuteActivity _ _ _ _ _) as [[result [err|]] w1];
    [by intros [= <- <- <-]|].
  by destruct (negb _).
Qed.

Lemma Sequence_loop_validated (els : list (option Statement)) (ctx : Ctx)
    (wf : Workflow) (b : Bindings) (w : W) e b' w' :
  Forall (λ o, ∃ st, o = Some st ∧ Statement_validate st = None) els →
  Sequence_loop exec els ctx wf b w = Done (Some e) b' w' →
  structural e = false.
Proof.
  intros Hall. revert b w.
  induction Hall as [|o rest (st & -> & Hst) _ IH]; intros b w; simpl;
    [done|].
  destruct (exec st ctx wf b w) as [[err|] b1 w1| |] eqn:Hrun; [| |done..].
  - intros [= <- <- <-]. by eapply exec_validated.
  - apply IH.
Qed.

Lemma If_execute_validated (i : If) (ctx : Ctx) (wf : Workflow)
    (b : Bindings) (w : W) e b' w' t :
  If_Then i = Some t → Statement_validate t = None →
  (∀ el, If_Else i = Some el → Statement_validate el = None) →
  If_execute exec i ctx wf b w = Done (Some e) b' w' →
  structural e = false.
Proof.
  intros Ht Hvt Hel. unfold If_execute. rewrite Ht.
  destruct (evalCond (If_Cond i) b) as [[|] [err|]];
    [by intros [= <- <- <-]| |by intros [= <- <- <-]|].
  - by apply exec_validated.
  - destruct (If_Else i) as [el|]; [|done].
    apply exec_validated. by apply Hel.
Qed.

Lemma While_loop_validated (fuel : nat) (wh : While) (ctx : Ctx)
    (wf : Workflow) (iter : Z) (b : Bindings) (w : W) e b' w' :
  Statement_validate (While_Body wh) = None →
  While_loop sub exec fuel wh ctx wf iter b w = Done (Some e) b' w' →
  structural e = false.
Proof.
  intros Hbody. revert iter b w.
  induction fuel as [|fuel IH]; intros iter b w; simpl; [done|].
  destruct (evalCond (While_Cond wh) b) as [[|] [err|]];
    [by intros [= <- <- <-]| |by intros [= <- <- <-]|done].
  destruct (_ && _); [by intros [= <- <- <-]|].
  destruct (exec (While_Body wh) ctx wf b w) as [[err|] b1 w1| |] eqn:Hrun;
    [| |done..].
  - intros [= <- <- <-]. by eapply exec_validated.
  - apply IH.
Qed.

Lemma mergeEntries_error (conflict : string → error) (skip : string → bool)
    (entries : list (string * any)) (b : Bindings) e b' :
  mergeEntries conflict skip entries b = (Some e, b') → ∃ k, e = conflict k.
Proof.
  intros H. apply mergeEntries_conflict_iff in H
    as (pre & k & v & post & old & _ & _ & _ & _ & _ & ->). by exists k.
Qed.

Lemma firstError_elem_of (errs : list (option error)) e :
  firstError errs = Some e → Some e ∈ errs.
Proof.
  unfold firstError. induction errs as [|[err|] errs IH]; simpl; [done| |].
  - rewrite firstError_acc. intros [= <-]. apply list_elem_of_here.
  - intros H. apply list_elem_of_further. by apply IH.
Qed.

Lemma Parallel_execute_validated (p : Parallel) (ctx : Ctx) (wf : Workflow)
    (b : Bindings) (w : W) e b' w' :
  Forall (λ br, Statement_validate br = None) (Parallel_Branches p) →
  Parallel_execute sub exec p ctx wf b w = Done (Some e) b' w' →
  structural e = false.
Proof.
  intros Hall H.
  destruct (decide (Parallel_Branches p = [])) as [Hnil|Hne].
  { unfold Parallel_execute in H. by rewrite Hnil in H. }
  destruct (Parallel_launch exec (Parallel_Branches p) O ctx wf b [] w)
    as [o|[pending w1]] eqn:Hl.
  { unfold Parallel_execute in H. rewrite Hl in H.
    apply Parallel_launch_inl in Hl.
    destruct (Parallel_Branches p); [done|]. by destruct Hl as [-> | ->]. }
  rewrite (Parallel_execute_joined sub exec p ctx wf b w pending w1 Hne Hl)
    in H.
  pose proof (fireOrder_perm sub (length pending) pending w1 eq_refl) as Hperm.
  destruct (fireOrder sub (length pending) pending w1) as [order w2].
  simpl in *. unfold Parallel_finish in H.
  destruct (firstError _) as [fe|] eqn:Hfe.
  - injection H as <- <- <-. apply firstError_elem_of in Hfe.
    apply list_elem_of_fmap in Hfe as (r & Hr & Hin).
    apply list_elem_of_fmap in Hin as (f & -> & Hin).
    assert (Hf : fut_err f = Some fe).
    { unfold resultOf in Hr. by destruct (fut_err f). }
    rewrite Hperm in Hin.
    apply Parallel_launch_futures in Hl as (launched & -> & Hrun).
    simpl in Hin. clear Hperm Hne. revert Hall.
    induction Hrun as [|st g sts gs (w0 & w0' & Hst) _ IH]; intros Hall;
      [by apply elem_of_nil in Hin|].
    apply Forall_cons in Hall as [Hv Hall].
    apply elem_of_cons in Hin as [->|Hin].
    + rewrite Hf in Hst. by eapply exec_validated.
    + by apply IH.
  - rewrite Parallel_merge_entries in H.
    destruct (mergeEntries _ _ _ b) as [err b1] eqn:Hm.
    injection H as -> <- <-.
    by apply mergeEntries_error in Hm as [k ->].
Qed.

Lemma Map_sort_firstErr (m : Map) (b : Bindings) (rs : list branchRes)
    (so : Sorted) e :
  so_firstErr (fold_left (Map_sortStep sub m b) rs so) = Some e →
  so_firstErr so = Some e ∨ ∃ r, r ∈ rs ∧ br_err r = Some e.
Proof.
  revert so. induction rs as [|r rs IH]; intros so; simpl; [by left|].
  intros H. apply IH in H as [H|(r' & Hin & Hr')].
  - unfold Map_sortStep in H. destruct (br_err r) as [err|] eqn:Hr.
    + simpl in H. destruct (so_firstErr so) as [fe|]; simpl in H.
      * by left.
      * right. exists r. split; [apply list_elem_of_here | congruence].
    + left. destruct (negb _); [|done].
      by destruct (pickCollected sub m b r) as [[k v]|].
  - right. exists r'. split; [by apply list_elem_of_further | done].
Qed.

Lemma Map_execute_validated (m : Map) (ctx : Ctx) (wf : Workflow)
    (b : Bindings) (w : W) e b' w' :
  Statement_validate (Map_Body m) = None →
  Map_execute sub exec m ctx wf b w = Done (Some e) b' w' →
  structural e = false.
Proof.
  intros Hbody. unfold Map_execute.
  destruct (b !! Map_ItemsRef m) as [itemsAny|]; [|by intros [= <- <- <-]].
  destruct (toSlice itemsAny) as [items [|]]; [|by intros [= <- <- <-]].
  pose proof (Map_run_outcome sub exec m ctx wf b items w) as Hrun.
  destruct (Map_prime _ _ _ _ _ _ _ _ _) as [o|st].
  { by destruct Hrun as [[-> | ->] ->]. }
  destruct Hrun as (_ & _ & Hiter & ->). simpl.
  destruct (_ <? _)%nat; [done|].
  pose proof (fireOrder_perm sub (length (st_pending st)) (st_pending st)
                (st_world st) eq_refl) as Hperm.
  destruct (fireOrder _ _ _ _) as [order w2]. simpl in *.
  assert (Hfirst : ∀ fe,
    so_firstErr (Map_sort sub m b items (brOf <$> order)) = Some fe →
    structural fe = false).
  { intros fe Hfe. apply Map_sort_firstErr in Hfe as [Hfe|(r & Hin & Hr)];
      [done|].
    apply list_elem_of_fmap in Hin as (f & -> & Hin). simpl in Hr.
    rewrite Hperm in Hin.
    rewrite Forall_forall in Hiter.
    destruct (Hiter f Hin) as (it & w0 & w0' & _ & Hf).
    rewrite Hr in Hf. by eapply exec_validated. }
  unfold Map_finish.
  destruct (_ && Map_FailFast m).
  { intros [= H <- <-]. by apply Hfirst. }
  rewrite Map_merge_entries.
  destruct (mergeEntries _ _ _ b) as [[err|] b1] eqn:Hm.
  { intros [= <- <- <-]. by apply mergeEntries_error in Hm as [k ->]. }
  destruct (negb _).
  - destruct (NewSlice sub w2) as [ptr w3]. intros [= H <- <-].
    by apply Hfirst.
  - intros [= H <- <-]. by apply Hfirst.
Qed.

Lemma Statement_dispatch_validated (fuel : nat) (s : Statement) (ctx : Ctx)
    (wf : Workflow) (b : Bindings) (w : W) e b' w' :
  Statement_validate s = None →
  Statement_dispatch sub exec fuel s ctx wf b w = Done (Some e) b' w' →
  structural e = false.
Proof.
  intros Hv. apply Statement_validate_None in Hv
    as (Hcnt & Hsq & Hp & Hm & Hwh & Hif).
  unfold Statement_dispatch. unfold variantCount in Hcnt.
  destruct (Statement_Activity s); [apply Activity_execute_validated|].
  destruct (Statement_Sequence s) as [sq|].
  { apply Sequence_loop_validated. by apply Hsq. }
  destruct (Statement_Parallel s) as [p|].
  { apply Parallel_execute_validated. by apply Hp. }
  destruct (Statement_Map s) as [m|].
  { apply Map_execute_validated. by apply Hm. }
  destruct (Statement_While s) as [wh|].
  { apply While_loop_validated. by apply Hwh. }
  destruct (Statement_If s) as [i|]; [|done].
  destruct (Hif i eq_refl) as (t & Ht & Hvt & Hel).
  by eapply If_execute_validated.
Qed.
End validated.

Lemma Statement_execute_validated {Ctx W : Type} (sub : Substrate Ctx W)
    (fuel : nat) (s : Statement) (ctx : Ctx) (wf : Workflow) (b : Bindings)
    (w : W) (e : error) (b' : Bindings) (w' : W) :
  Statement_validate s = None →
  Statement_execute sub fuel s ctx wf b w = Done (Some e) b' w' →
  structural e = false.
Proof.
  revert s ctx wf b w e b' w'. induction fuel as [|fuel IH];
    intros s ctx wf b w e b' w' Hv; simpl; [done|].
  by apply Statement_dispatch_validated.
Qed.

(** A statement that [validate] accepts never fails with "invalid
    statement" or with "sequence contains nil element": every error it
    returns comes from a value or a condition that could not be evaluated,
    from an activity, from a loop bound or from a write conflict. *)
Theorem validated_statement_has_no_structural_error {Ctx W : Type}
    (sub : Substrate Ctx W) (fuel : nat) (s : Statement) (ctx : Ctx)
    (wf : Workflow) (b : Bindings) (w : W) (e : error) (b' : Bindings)
    (w' : W) :
  Statement_validate s = None →
  Statement_execute sub fuel s ctx wf b w = Done (Some e) b' w' →
  structural e = false.
Proof. apply Statement_execute_validated. Qed.

Lemma validated_statement_has_no_structural_error_witness :
  structural (ErrActivityFailed "Nope" (ErrRuntime "Nope")) = false.
Proof.
  apply (validated_statement_has_no_structural_error
           (exampleRuntime firstRegistered None) 3
           (activity "Nope" [] "x") tt exampleWorkflow ∅ []
           (ErrActivityFailed "Nope" (ErrRuntime "Nope")) ∅ ["Nope"]).
  - vm_compute. reflexivity.
  - vm_compute. reflexivity.
Defined.

(* ===================================================================== *)
(** ** The workflow function *)
(* ===================================================================== *)

(** What a run of [SimpleDSLWorkflow] that returns hands back.  A workflow
    that [validate] rejects returns the error of [validate] with a nil
    map, before anything is asked of the runtime.  A run that fails
    returns a nil map, and its error is never "invalid statement" nor
    "sequence contains nil element".  A run that succeeds returns a map
    that binds every variable of the workflow's [Variables]. *)
Theorem SimpleDSLWorkflow_returns {Ctx W : Type} (sub : Substrate Ctx W)
    (withOptions : Ctx → ActivityOptions → Ctx) (fuel : nat) (ctx : Ctx)
    (wf : Workflow) (w : W) (result : option Bindings)
    (err : option runError) (w' : W) :
  SimpleDSLWorkflow sub withOptions fuel ctx wf w = Returned result err w' →
  match err with
  | Some (RunInvalid i) =>
      result = None ∧ w' = w ∧ Workflow_validate wf = Some i
  | Some (RunFailed e) => result = None ∧ structural e = false
  | None =>
      ∃ b', result = Some b' ∧ dom (Workflow_Variables wf) ⊆ dom b'
  end.
Proof.
  unfold SimpleDSLWorkflow.
  destruct (Workflow_validate wf) as [i|] eqn:Hv; [by intros [= <- <- <-]|].
  unfold Workflow_validate in Hv.
  destruct (Workflow_Root wf) as [root|]; [|done].
  destruct (Statement_execute _ _ _ _ _ _ _) as [[e|] b1 w1| |] eqn:Hrun;
    [| |done..].
  - intros [= <- <- <-]. split; [done|].
    by eapply Statement_execute_validated.
  - intros [= <- <- <-]. exists b1. split; [done|].
    by eapply Statement_execute_grows.
Qed.

Lemma SimpleDSLWorkflow_returns_witness :
  ∃ b', Some (<["approved" := VBool true]> (∅ : Bindings)) = Some b'
        ∧ dom (∅ : Bindings) ⊆ dom b'.
Proof.
  apply (SimpleDSLWorkflow_returns (exampleRuntime firstRegistered None)
           (λ ctx _, ctx) 3 tt
           (mkWorkflow "" "" ∅ (Some (activity "MockApprove" [] "approved"))
              None 0 0)
           [] _ None ["MockApprove"]).
  vm_compute. reflexivity.
Defined.

(* ===================================================================== *)
(** ** What [Map] leaves alone *)
(* ===================================================================== *)

Lemma mergeEntries_skipped (conflict : string → error)
    (skip : string → bool) (entries : list (string * any)) (b : Bindings)
    (k : string) :
  skip k = true → (mergeEntries conflict skip entries b).2 !! k = b !! k.
Proof.
  intros Hk. revert b.
  induction entries as [|[k' v] l IH]; intros b; simpl; [done|].
  destruct (skip k') eqn:Hk'; [apply IH|].
  assert (Hne : k' ≠ k) by congruence.
  assert (Hins : (mergeEntries conflict skip l (<[k' := v]> b)).2 !! k
                 = b !! k).
  { rewrite IH. by apply lookup_insert_ne. }
  destruct (b !! k') as [old|]; [|done].
  by destruct (reflect_DeepEqual old v).
Qed.

Lemma Map_skip_mono (m : Map) (collectVars : gset string) (k : string) :
  Map_skip m ∅ k = true → Map_skip m collectVars k = true.
Proof.
  unfold Map_skip. intros H. apply orb_true_iff in H as [H|H].
  - by rewrite H.
  - by rewrite bool_decide_eq_true, elem_of_empty in H.
Qed.

Section Map_properties.
Context {Ctx W : Type} (sub : Substrate Ctx W).
Variable exec : Statement → Ctx → Workflow → Bindings → W → Outcome W.

Lemma Map_execute_finishes (m : Map) (ctx : Ctx) (wf : Workflow)
    (b : Bindings) (w : W) err b' w' :
  Map_execute sub exec m ctx wf b w = Done err b' w' →
  (b' = b ∧ (err = Some (ErrMapItemsNotFound (Map_ItemsRef m))
             ∨ err = Some (ErrMapItemsNotSlice (Map_ItemsRef m))))
  ∨ ∃ q items rs w1,
      b !! Map_ItemsRef m = Some (VSlice q items)
      ∧ Map_finish sub m b items rs w1 = Done err b' w'.
Proof.
  unfold Map_execute.
  destruct (b !! Map_ItemsRef m) as [itemsAny|];
    [|intros [= <- <- <-]; left; by split; [|left]].
  destruct itemsAny as [| | | | | |q items|];
    try (intros [= <- <- <-]; left; by split; [|right]).
  simpl.
  pose proof (Map_run_outcome sub exec m ctx wf b items w) as Hrun.
  destruct (Map_prime _ _ _ _ _ _ _ _ _) as [o|st].
  { by destruct Hrun as [[-> | ->] ->]. }
  destruct Hrun as (_ & _ & _ & ->). simpl.
  destruct (_ <? _)%nat; [done|]. intros H. right. by eauto 6.
Qed.

Lemma Map_sort_collected_length (m : Map) (b : Bindings) (items : list any)
    (rs : list branchRes) :
  length (so_collected (Map_sort sub m b items rs)) = length items.
Proof.
  induction rs as [|r rs IH] using rev_ind.
  - simpl. apply length_replicate.
  - unfold Map_sort in *. rewrite fold_left_app. simpl.
    unfold Map_sortStep at 1. destruct (br_err r); [done|].
    destruct (negb _); [|done].
    destruct (pickCollected sub m b r) as [[k v]|]; [|done]. simpl.
    destruct (_ <? _)%nat; by rewrite ?length_insert.
Qed.

(** The item variable of a [Map], and with a [CollectVar] the keys that
    start with [CollectVar_], are working variables of the iterations: what
    an iteration binds them to never reaches the scope of the [Map], where
    they are, when the [Map] returns, what they were.  (Only [CollectVar]
    itself is written, with the collection.) *)
Theorem Map_does_not_publish_working_variables (m : Map) (ctx : Ctx)
    (wf : Workflow) (b : Bindings) (w : W) (err : option error)
    (b' : Bindings) (w' : W) (k : string) :
  Map_execute sub exec m ctx wf b w = Done err b' w' →
  Map_skip m ∅ k = true → k ≠ Map_CollectVar m →
  b' !! k = b !! k.
Proof.
  intros Hrun Hk Hne.
  apply Map_execute_finishes in Hrun
    as [[-> _]|(q & items & rs & w1 & _ & Hfin)]; [done|].
  revert Hfin. unfold Map_finish.
  destruct (_ && Map_FailFast m); [by intros [= <- <- <-]|].
  rewrite Map_merge_entries.
  pose proof (mergeEntries_skipped ErrMapWriteConflict
                (Map_skip m (so_collectVars (Map_sort sub m b items rs)))
                (Map_entries sub
                   (so_successResults (Map_sort sub m b items rs))) b k
                (Map_skip_mono _ _ _ Hk)) as Hm.
  destruct (mergeEntries _ _ _ b) as [[e|] b1]; simpl in Hm.
  { by intros [= <- <- <-]. }
  destruct (negb _); [|by intros [= <- <- <-]].
  destruct (NewSlice sub w1) as [p w2]. intros [= <- <- <-].
  by rewrite lookup_insert_ne.
Qed.

(** With [FailFast], a [Map] that returns an error has left the bindings
    of its scope as they were, unless the error is the write conflict of
    its own merge. *)
Theorem Map_fail_fast_leaves_bindings (m : Map) (ctx : Ctx) (wf : Workflow)
    (b : Bindings) (w : W) (e : error) (b' : Bindings) (w' : W) :
  Map_FailFast m = true →
  Map_execute sub exec m ctx wf b w = Done (Some e) b' w' →
  b' = b ∨ ∃ k, e = ErrMapWriteConflict k.
Proof.
  intros Hff Hrun.
  apply Map_execute_finishes in Hrun
    as [[-> _]|(q & items & rs & w1 & _ & Hfin)]; [by left|].
  revert Hfin. unfold Map_finish. rewrite Hff, andb_true_r.
  destruct (so_firstErr _) as [fe|]; simpl; [intros [= <- <- <-]; by left|].
  rewrite Map_merge_entries.
  destruct (mergeEntries _ _ _ b) as [[e1|] b1] eqn:Hm.
  - intros [= <- <- <-]. right. by apply mergeEntries_error in Hm.
  - destruct (negb _); [|done]. by destruct (NewSlice sub w1).
Qed.

(** A [Map] with a [CollectVar] that succeeds binds [CollectVar] to a
    sequence that holds no nil and has at most one element for each
    item. *)
Theorem Map_collects_at_most_one_per_item (m : Map) (ctx : Ctx)
    (wf : Workflow) (b : Bindings) (w : W) (b' : Bindings) (w' : W)
    (q : addr) (items : list any) :
  b !! Map_ItemsRef m = Some (VSlice q items) →
  Map_CollectVar m ≠ "" →
  Map_execute sub exec m ctx wf b w = Done None b' w' →
  ∃ p xs,
    b' !! Map_CollectVar m = Some (VSlice p xs)
    ∧ (length xs <= length items)%nat
    ∧ Forall (λ v, isNil v = false) xs.
Proof.
  intros Hitems Hcv Hrun.
  apply Map_execute_finishes in Hrun
    as [[_ [?|?]]|(q' & items' & rs & w1 & Hitems' & Hfin)]; [done..|].
  rewrite Hitems in Hitems'. injection Hitems' as <- <-.
  revert Hfin. unfold Map_finish.
  destruct (so_firstErr _) as [fe|] eqn:Hfe; simpl.
  { destruct (Map_FailFast m); [done|]. rewrite Map_merge_entries.
    destruct (mergeEntries _ _ _ b) as [[e|] b1]; [done|].
    destruct (negb _); [|done]. by destruct (NewSlice sub w1). }
  rewrite Map_merge_entries.
  destruct (mergeEntries _ _ _ b) as [[e|] b1]; [done|].
  destruct (String.eqb_spec (Map_CollectVar m) "") as [|_]; [done|]. simpl.
  destruct (NewSlice sub w1) as [p w2]. intros [= <- <-].
  eexists p, _. rewrite lookup_insert_eq. split; [done|]. split.
  - unfold finalCollected.
    rewrite <- (Map_sort_collected_length m b items rs).
    apply List.filter_length_le.
  - unfold finalCollected. apply Forall_forall. intros v Hv.
    apply list_elem_of_In, filter_In in Hv as [_ Hv].
    by apply negb_true_iff.
Qed.

(** A [Map] over a sequence with no element succeeds without running its
    body, whatever the body is: it binds [CollectVar], when there is one,
    to a new empty sequence, and changes nothing else. *)
Theorem Map_over_no_items (m : Map) (ctx : Ctx) (wf : Workflow)
    (b : Bindings) (w : W) (p : addr) :
  b !! Map_ItemsRef m = Some (VSlice p []) →
  Map_execute sub exec m ctx wf b w
  = if negb (String.eqb (Map_CollectVar m) "")
    then Done None (<[Map_CollectVar m := VSlice (NewSlice sub w).1 []]> b)
           (NewSlice sub w).2
    else Done None b w.
Proof.
  intros Hitems. unfold Map_execute. rewrite Hitems. simpl.
  unfold Map_run, Map_finish. simpl.
  destruct (negb _); [|done]. by destruct (NewSlice sub w).
Qed.
End Map_properties.

Lemma Map_does_not_publish_working_variables_witness :
  threeUrlsFetched !! "url" = threeUrls !! "url".
Proof.
  apply (Map_does_not_publish_working_variables
           (exampleRuntime firstRegistered None)
           (Statement_execute (exampleRuntime firstRegistered None) 5)
           (mapFetch 3) tt exampleWorkflow threeUrls [] None
           threeUrlsFetched ["Fetch"; "Fetch"; "Fetch"; "make"] "url").
  - vm_compute. reflexivity.
  - vm_compute. reflexivity.
  - done.
Defined.

Lemma Map_fail_fast_leaves_bindings_witness :
  badThenGoodBindings = badThenGoodBindings
  ∨ ∃ k, ErrActivityFailed "DoA" (ErrRuntime "DoA") = ErrMapWriteConflict k.
Proof.
  apply (Map_fail_fast_leaves_bindings
           (exampleRuntime firstRegistered None)
           (Statement_execute (exampleRuntime firstRegistered None) 5)
           (mapFailFast 2) tt exampleWorkflow badThenGoodBindings []
           (ErrActivityFailed "DoA" (ErrRuntime "DoA"))
           badThenGoodBindings ["DoA"; "DoA"]).
  - reflexivity.
  - vm_compute. reflexivity.
Defined.

Lemma Map_over_no_items_witness :
  Map_execute (exampleRuntime firstRegistered None)
    (Statement_execute (exampleRuntime firstRegistered None) 5)
    (mapFetch 1) tt exampleWorkflow {["urls" := VSlice 1 []]} []
  = Done None (<["pages" := VSlice 1 []]> {["urls" := VSlice 1 []]})
      ["make"].
Proof.
  apply (Map_over_no_items (exampleRuntime firstRegistered None)
           (Statement_execute (exampleRuntime firstRegistered None) 5)
           (mapFetch 1) tt exampleWorkflow {["urls" := VSlice 1 []]} [] 1%positive).
  reflexivity.
Defined.

(* ===================================================================== *)
(** ** Activity options *)
(* ===================================================================== *)

(** Up to 9223372036 seconds, the product with [time.Second] does not wrap
    around. *)
Lemma secondsDuration_exact (sec : Z) :
  0 <= sec <= 9223372036 → secondsDuration sec = sec * time_Second.
Proof.
  intros Hsec. unfold secondsDuration, wrap64, time_Second.
  rewrite Z.mod_small; lia.
Qed.

(** The retry policy that the interpreter hands to the runtime always has
    a backoff coefficient that is strictly positive: the coefficient of the
    DSL when that is, and 2.0 when it is zero, negative or not a number. *)
Theorem toRetryPolicy_backoff_is_positive (r : option RetryPolicy)
    (p : temporal_RetryPolicy) :
  toRetryPolicy r = Some p →
  float64_pos (BackoffCoefficient p) = true
  ∧ IsNaN (BackoffCoefficient p) = false.
Proof.
  destruct r as [r|]; [|done]. intros [= <-]. simpl.
  destruct (float64_pos (RetryPolicy_BackoffCoefficient r)) eqn:Hpos.
  - split; [done|]. by destruct (RetryPolicy_BackoffCoefficient r).
  - by vm_compute.
Qed.

Lemma toRetryPolicy_backoff_is_positive_witness :
  float64_pos float64_two = true ∧ IsNaN float64_two = false.
Proof.
  apply (toRetryPolicy_backoff_is_positive
           (Some (mkRetryPolicy 3 1 10 float64_nan))
           (mkTemporalRetryPolicy 1000000000 float64_two 10000000000 3)).
  vm_compute. reflexivity.
Defined.

(** The number of attempts of the DSL reaches the runtime as it is when it
    is below 2^31, a number that is not positive reaching it as 0; the
    conversion to [int32] wraps the others around, and a positive multiple
    of 2^32 reaches the runtime as 0, which is its value for no limit. *)
Theorem toRetryPolicy_attempts (r : RetryPolicy) (p : temporal_RetryPolicy) :
  toRetryPolicy (Some r) = Some p →
  (RetryPolicy_MaxAttempts r < 2 ^ 31 →
   MaximumAttempts p = Z.max 0 (RetryPolicy_MaxAttempts r))
  ∧ (∀ k, 0 < k → RetryPolicy_MaxAttempts r = k * 2 ^ 32 →
          MaximumAttempts p = 0)
  ∧ - 2 ^ 31 <= MaximumAttempts p < 2 ^ 31.
Proof.
  intros [= <-]. simpl. unfold wrap32. split; [|split].
  - intros Hlt. destruct (Z.gtb_spec (RetryPolicy_MaxAttempts r) 0); [|lia].
    rewrite Z.mod_small; lia.
  - intros k Hk ->. destruct (Z.gtb_spec (k * 2 ^ 32) 0); [|lia].
    rewrite Z.add_comm, Z.mod_add by lia. done.
  - destruct (Z.gtb_spec (RetryPolicy_MaxAttempts r) 0); [|lia].
    pose proof (Z.mod_pos_bound (RetryPolicy_MaxAttempts r + 2 ^ 31) (2 ^ 32)
                  ltac:(lia)). lia.
Qed.

Lemma toRetryPolicy_attempts_witness :
  (4294967296 < 2 ^ 31 → 0 = Z.max 0 4294967296)
  ∧ (∀ k, 0 < k → 4294967296 = k * 2 ^ 32 → 0 = 0)
  ∧ - 2 ^ 31 <= 0 < 2 ^ 31.
Proof.
  apply (toRetryPolicy_attempts
           (mkRetryPolicy 4294967296 0 0 float64_two)
           (mkTemporalRetryPolicy 0 float64_two 0 0)).
  vm_compute. reflexivity.
Defined.

(** The timeout that [SimpleDSLWorkflow] sets on its context is strictly
    positive for every [timeoutSec] up to 9223372036: thirty seconds when
    [timeoutSec] is not positive.  One second more and the product wraps
    around to a negative duration. *)
Theorem Workflow_options_timeout (wf : Workflow) :
  (Workflow_TimeoutSec wf <= 9223372036 →
   0 < StartToCloseTimeout (Workflow_options wf))
  ∧ (Workflow_TimeoutSec wf = 9223372037 →
     StartToCloseTimeout (Workflow_options wf) < 0).
Proof.
  unfold Workflow_options. simpl. split.
  - intros Hsec. unfold durationOrDefault.
    destruct (Z.gtb_spec (Workflow_TimeoutSec wf) 0).
    + rewrite secondsDuration_exact by lia. unfold time_Second. lia.
    + unfold time_Second. lia.
  - intros ->. by vm_compute.
Qed.

(** Merging the options of a node into the options of the context is
    idempotent, and options that set nothing leave the options of the
    context as they are. *)
Theorem mergeActOpts_idempotent (parent : ActivityOptions) (o : ActOpts) :
  mergeActOpts (mergeActOpts parent o) o = mergeActOpts parent o
  ∧ mergeActOpts parent (mkActOpts 0 0 0 None) = parent.
Proof.
  split; [|by destruct parent].
  unfold mergeActOpts. simpl.
  destruct (ActOpts_StartToCloseSeconds o >? 0),
    (ActOpts_ScheduleToCloseSeconds o >? 0),
    (ActOpts_HeartbeatSeconds o >? 0), (ActOpts_Retry o); done.
Qed.

Lemma Workflow_options_timeout_witness :
  0 < StartToCloseTimeout (Workflow_options exampleWorkflow).
Proof.
  destruct (Workflow_options_timeout exampleWorkflow) as [Hpos _].
  apply Hpos. simpl. lia.
Defined.

(* ===================================================================== *)
(** ** A variable that is not a number *)
(* ===================================================================== *)

(** [reflect.DeepEqual] tells every value from a NaN. *)
Lemma reflect_DeepEqual_NaN (x : any) :
  reflect_DeepEqual x (VFloat float64_nan) = false.
Proof. destruct x as [| | | | |f| |]; try done. by destruct f. Qed.

Lemma mergeEntries_NaN (conflict : string → error) (skip : string → bool)
    (entries : list (string * any)) (b : Bindings) (k : string) :
  (k, VFloat float64_nan) ∈ entries → skip k = false → is_Some (b !! k) →
  ∃ k', (mergeEntries conflict skip entries b).1 = Some (conflict k').
Proof.
  intros Hin Hskip. revert b Hin.
  induction entries as [|[k0 v0] l IH]; intros b Hin Hb; simpl.
  { by apply elem_of_nil in Hin. }
  apply elem_of_cons in Hin as [[= <- <-]|Hin].
  - rewrite Hskip. destruct Hb as [old ->].
    rewrite reflect_DeepEqual_NaN. by exists k.
  - destruct (skip k0); [by apply IH|].
    assert (Hins : is_Some (<[k0 := v0]> b !! k)).
    { destruct (decide (k0 = k)) as [->|Hne].
      - rewrite lookup_insert_eq. by eexists.
      - by rewrite lookup_insert_ne. }
    destruct (b !! k0) as [old|]; [|by apply IH].
    destruct (reflect_DeepEqual old v0); simpl; [by apply IH | by exists k0].
Qed.

Section Parallel_NaN.
Context {Ctx W : Type} (sub : Substrate Ctx W).
Variable exec : Statement → Ctx → Workflow → Bindings → W → Outcome W.

(** A [Parallel] in a scope that binds a variable to NaN cannot succeed
    when a branch leaves the variable as it is: with every branch
    successful, the merge compares the NaN of the scope with the NaN of the
    clone, which [reflect.DeepEqual] tells apart, and the operator fails
    with a write conflict although no branch wrote anything that
    differs. *)
Theorem Parallel_over_NaN_conflicts (p : Parallel) (ctx : Ctx)
    (wf : Workflow) (b : Bindings) (w : W) (pending : list future) (w1 : W)
    (k : string) :
  Parallel_launch exec (Parallel_Branches p) O ctx wf b [] w
  = inr (pending, w1) →
  Forall (λ f, fut_err f = None) pending →
  is_Some (b !! k) →
  (∃ f, f ∈ pending ∧ fut_local f !! k = Some (VFloat float64_nan)) →
  ∃ k' b' w',
    Parallel_execute sub exec p ctx wf b w
    = Done (Some (ErrParallelWriteConflict k')) b' w'.
Proof.
  intros Hlaunch Hok Hb (f & Hin & Hf).
  assert (Hne : Parallel_Branches p ≠ []).
  { intros Hnil. apply Parallel_launch_length in Hlaunch.
    rewrite Hnil in Hlaunch. destruct pending; [|done].
    by apply elem_of_nil in Hin. }
  rewrite (Parallel_execute_joined sub exec p ctx wf b w pending w1 Hne
             Hlaunch).
  pose proof (fireOrder_perm sub (length pending) pending w1 eq_refl) as Hperm.
  destruct (fireOrder sub (length pending) pending w1) as [order w2].
  simpl in *. rewrite <- Hperm in Hok, Hin.
  rewrite Parallel_finish_all_succeeded.
  2:{ rewrite Forall_fmap. eapply Forall_impl; [exact Hok|].
      intros g Hg. simpl. unfold resultOf. by rewrite Hg. }
  rewrite Parallel_merge_entries.
  destruct (mergeEntries_NaN ErrParallelWriteConflict (λ _, false)
              (Parallel_entries sub (resultOf <$> order)) b k) as [k' Hk'];
    [|done|done|].
  { apply elem_of_Parallel_entries. exists (resultOf f), (fut_local f).
    split; [by apply list_elem_of_fmap_2|].
    rewrite Forall_forall in Hok. unfold resultOf. by rewrite (Hok f Hin). }
  rewrite Hk'. by eexists _, _, _.
Qed.
End Parallel_NaN.

Lemma Parallel_over_NaN_conflicts_witness :
  ∃ k' b' w',
    Parallel_execute (exampleRuntime firstRegistered None)
      (Statement_execute (exampleRuntime firstRegistered None) 3)
      (mkParallel [activity "MockApprove" [] "approved"]) tt exampleWorkflow
      {["x" := VFloat float64_nan]} []
    = Done (Some (ErrParallelWriteConflict k')) b' w'.
Proof.
  apply (Parallel_over_NaN_conflicts (exampleRuntime firstRegistered None)
           (Statement_execute (exampleRuntime firstRegistered None) 3)
           (mkParallel [activity "MockApprove" [] "approved"]) tt
           exampleWorkflow {["x" := VFloat float64_nan]} []
           [mkFuture 0 (<["approved" := VBool true]>
                          {["x" := VFloat float64_nan]}) None]
           ["MockApprove"] "x").
  - vm_compute. reflexivity.
  - repeat constructor.
  - by eexists.
  - eexists. split; [apply list_elem_of_here|]. vm_compute. reflexivity.
Defined.

Lemma Map_collects_at_most_one_per_item_witness :
  ∃ p xs,
    threeUrlsFetched !! "pages" = Some (VSlice p xs)
    ∧ (length xs <= 3)%nat
    ∧ Forall (λ v, isNil v = false) xs.
Proof.
  apply (Map_collects_at_most_one_per_item
           (exampleRuntime firstRegistered None)
           (Statement_execute (exampleRuntime firstRegistered None) 5)
           (mapFetch 3) tt exampleWorkflow threeUrls [] threeUrlsFetched
           ["Fetch"; "Fetch"; "Fetch"; "make"] 1%positive
           [VStr "u1"; VStr "u2"; VStr "u3"]).
  - reflexivity.
  - done.
  - vm_compute. reflexivity.
Defined.
